(** * Crossword CSP solver ([generate.py]): shallow embedding and properties

    The class [CrosswordCreator] of [generate.py] is embedded as a record
    holding the puzzle geometry and the domain store.  Methods that mutate
    [self.domains] are computations in a small state-and-exception monad in
    which the state survives a raised exception, as it does in Python;
    read-only methods are functions of the record. *)

From Stdlib Require Import List String Ascii Arith Lia Bool Permutation Sorted PeanoNat.
Import ListNotations.
Local Open Scope string_scope.
Local Open Scope list_scope.
Local Open Scope nat_scope.

Set Implicit Arguments.

(** ** Python outcomes *)

(** The exceptions the solving methods can raise. *)
Inductive exn : Type :=
| KeyError
| IndexError
| TypeError
| UnboundLocalError.

(** Outcome of a call: a value, a raised exception, or [OutOfFuel] when a
    fuel-bounded loop of the model was given too little fuel (never an
    outcome of the Python program itself). *)
Inductive result (A : Type) : Type :=
| Ok (a : A)
| Raise (e : exn)
| OutOfFuel.

Arguments Raise {A} e.
Arguments OutOfFuel {A}.

Definition rbind {A B : Type} (r : result A) (k : A -> result B) : result B :=
  match r with
  | Ok a => k a
  | Raise e => Raise e
  | OutOfFuel => OutOfFuel
  end.

Declare Scope py_scope.
Delimit Scope py_scope with py.
Notation "x <- c ;; k" := (rbind c (fun x => k))
  (at level 61, c at next level, right associativity) : py_scope.
Notation "' pat <- c ;; k" := (rbind c (fun x => match x with pat => k end))
  (at level 61, pat pattern, c at next level, right associativity) : py_scope.

(** ** Python dictionaries as insertion-ordered association lists *)

Module PyDict.
Section Dict.
Variables K V : Type.
Variable eqb : K -> K -> bool.

Definition t := list (K * V).

(** [d[k]], [None] standing for [KeyError]. *)
Fixpoint get (k : K) (d : t) : option V :=
  match d with
  | [] => None
  | (k', v) :: d' => if eqb k k' then Some v else get k d'
  end.

(** [k in d]. *)
Definition mem (k : K) (d : t) : bool :=
  match get k d with Some _ => true | None => false end.

(** [d[k] = v]: an existing key keeps its position, a new key goes last. *)
Fixpoint set (k : K) (v : V) (d : t) : t :=
  match d with
  | [] => [(k, v)]
  | (k', v') :: d' => if eqb k k' then (k', v) :: d' else (k', v') :: set k v d'
  end.

Definition keys (d : t) : list K := map fst d.

(** [d[k]] as a computation. *)
Definition lookup (k : K) (d : t) : result V :=
  match get k d with Some v => Ok v | None => Raise KeyError end.
End Dict.
End PyDict.

(** ** Stable sorting, as Python's [sorted(..., key=...)] *)

Section Sorted.
Variable A : Type.
Variable key : A -> nat.

(** Insert [x], which precedes every element of [l] in the input. *)
Fixpoint insert_asc (x : A) (l : list A) : list A :=
  match l with
  | [] => [x]
  | y :: l' => if key x <=? key y then x :: l else y :: insert_asc x l'
  end.

(** [sorted(l, key=key)]. *)
Fixpoint sorted (l : list A) : list A :=
  match l with
  | [] => []
  | x :: l' => insert_asc x (sorted l')
  end.

Fixpoint insert_desc (x : A) (l : list A) : list A :=
  match l with
  | [] => [x]
  | y :: l' => if key y <=? key x then x :: l else y :: insert_desc x l'
  end.

(** [sorted(l, key=key, reverse=True)]: descending keys, equal keys in
    their original order. *)
Fixpoint sorted_reverse (l : list A) : list A :=
  match l with
  | [] => []
  | x :: l' => insert_desc x (sorted_reverse l')
  end.
End Sorted.

(** ** Variables (slots) *)

Inductive Direction : Type := ACROSS | DOWN.

(** Class [Variable], also from module [crossword]: the fields read by
    [generate.py]. *)
Record Var : Type := mkVar {
  var_i : nat;
  var_j : nat;
  var_direction : Direction;
  var_length : nat
}.

Definition direction_eqb (a b : Direction) : bool :=
  match a, b with
  | ACROSS, ACROSS | DOWN, DOWN => true
  | _, _ => false
  end.

(** [Variable.__eq__]: structural equality. *)
Definition var_eqb (x y : Var) : bool :=
  (var_i x =? var_i y) && (var_j x =? var_j y)
  && direction_eqb (var_direction x) (var_direction y)
  && (var_length x =? var_length y).

Definition arc_eqb (a b : Var * Var) : bool :=
  var_eqb (fst a) (fst b) && var_eqb (snd a) (snd b).

(** Python sets of words, in iteration order. *)
Definition word_set := list string.

Definition word_mem (w : string) (s : word_set) : bool :=
  existsb (String.eqb w) s.

(** What remains of set [s] once [w] is removed. *)
Definition word_discard (w : string) (s : word_set) : word_set :=
  filter (fun w' => negb (String.eqb w w')) s.

(** ** The puzzle geometry *)

(** Class [Crossword] comes from module [crossword], whose source is not
    part of [generate.py]; what [generate.py] reads of it is taken as given:
    the set of variables, the vocabulary, the overlap dictionary keyed by
    ordered pairs of variables, and the [neighbors] method. *)
Record Crossword : Type := mkCrossword {
  variables : list Var;
  words : word_set;
  overlaps : PyDict.t (Var * Var) (option (nat * nat));
  neighbors : Var -> list Var
}.

Definition Domains := PyDict.t Var word_set.
Definition Assignment := PyDict.t Var string.

(** ** [CrosswordCreator] *)

Record CrosswordCreator : Type := mkCreator {
  crossword : Crossword;
  domains : Domains
}.

(** [CrosswordCreator.__init__]. *)
Definition init (cw : Crossword) : CrosswordCreator :=
  {| crossword := cw;
     domains := map (fun var => (var, words cw)) (variables cw) |}.

(** Computations that may mutate [self] and may raise. *)
Definition M (A : Type) : Type := CrosswordCreator -> result A * CrosswordCreator.

Definition mret {A : Type} (a : A) : M A := fun self => (Ok a, self).

Definition mlift {A : Type} (r : result A) : M A := fun self => (r, self).

Definition mbind {A B : Type} (c : M A) (k : A -> M B) : M B := fun self =>
  match c self with
  | (Ok a, self') => k a self'
  | (Raise e, self') => (Raise e, self')
  | (OutOfFuel, self') => (OutOfFuel, self')
  end.

Notation "x <~ c ;; k" := (mbind c (fun x => k))
  (at level 61, c at next level, right associativity) : py_scope.

Definition overlap_of (self : CrosswordCreator) (x y : Var) : option (option (nat * nat)) :=
  PyDict.get arc_eqb (x, y) (overlaps (crossword self)).

Definition domain_get (self : CrosswordCreator) (x : Var) : option word_set :=
  PyDict.get var_eqb x (domains self).

(** [self.domains[x]]. *)
Definition domain_lookup (x : Var) : M word_set := fun self =>
  (PyDict.lookup var_eqb x (domains self), self).

(** [self.domains[x].remove(w)]: [KeyError] when [x] has no domain or when
    [w] is not in it. *)
Definition domain_remove (x : Var) (w : string) : M unit := fun self =>
  match domain_get self x with
  | None => (Raise KeyError, self)
  | Some ws =>
      if word_mem w ws
      then (Ok tt, {| crossword := crossword self;
                      domains := PyDict.set var_eqb x (word_discard w ws) (domains self) |})
      else (Raise KeyError, self)
  end.

(** *** [enforce_node_consistency] *)

(** The inner loop, over the copied word set of [var]. *)
Fixpoint enforce_words (var : Var) (ws : list string) : M unit :=
  match ws with
  | [] => mret tt
  | word :: ws' =>
      if negb (String.length word =? var_length var)
      then (_ <~ domain_remove var word ;; enforce_words var ws')%py
      else enforce_words var ws'
  end.

(** The outer loop, over the entries of [domain_copy]. *)
Fixpoint enforce_vars (domain_copy : Domains) : M unit :=
  match domain_copy with
  | [] => mret tt
  | (var, ws) :: rest => (_ <~ enforce_words var ws ;; enforce_vars rest)%py
  end.

Definition enforce_node_consistency : M unit := fun self =>
  enforce_vars (domains self) self.

(** *** [revise] *)

(** [w[k]]. *)
Definition char_at (w : string) (k : nat) : result ascii :=
  match String.get k w with Some c => Ok c | None => Raise IndexError end.

(** [x_word[x_overlap] == y_word[y_overlap]], left index first. *)
Definition chars_equal (x_word : string) (x_overlap : nat)
           (y_word : string) (y_overlap : nat) : result bool :=
  (a <- char_at x_word x_overlap ;;
   b <- char_at y_word y_overlap ;;
   Ok (Ascii.eqb a b))%py.

(** The inner loop of [revise]: the value of [matched] when it ends. *)
Fixpoint matched_in (x_word : string) (x_overlap y_overlap : nat)
         (y_domain : list string) : result bool :=
  match y_domain with
  | [] => Ok false
  | y_word :: rest =>
      (eq <- chars_equal x_word x_overlap y_word y_overlap ;;
       if eq then Ok true
       else matched_in x_word x_overlap y_overlap rest)%py
  end.

(** The outer loop of [revise], over the copy of [x]'s domain;
    [self.domains[y]] is read again at every iteration. *)
Fixpoint revise_words (x y : Var) (x_overlap y_overlap : nat)
         (x_domain_copy : list string) (revised : bool) : M bool :=
  match x_domain_copy with
  | [] => mret revised
  | x_word :: rest =>
      (y_domain <~ domain_lookup y ;;
       matched <~ mlift (matched_in x_word x_overlap y_overlap y_domain) ;;
       if matched
       then revise_words x y x_overlap y_overlap rest revised
       else (_ <~ domain_remove x x_word ;;
             revise_words x y x_overlap y_overlap rest true))%py
  end.

Definition revise (x y : Var) : M bool := fun self =>
  match overlap_of self x y with
  | None => (Raise KeyError, self)
  | Some None => (Ok false, self)
  | Some (Some (x_overlap, y_overlap)) =>
      (x_domain_copy <~ domain_lookup x ;;
       revise_words x y x_overlap y_overlap x_domain_copy false)%py self
  end.

(** *** [ac3] *)

(** The arcs [(z, x)] appended after a revision of [x] against [y]. *)
Definition requeue (cw : Crossword) (x y : Var) : list (Var * Var) :=
  map (fun z => (z, x)) (filter (fun z => negb (var_eqb z y)) (neighbors cw x)).

(** The work-list loop; [fuel] bounds the number of iterations. *)
Fixpoint ac3_loop (cw : Crossword) (fuel : nat) (queue : list (Var * Var)) : M bool :=
  match queue with
  | [] => mret true
  | (x, y) :: queue' =>
      match fuel with
      | 0 => mlift OutOfFuel
      | S fuel' =>
          (revised <~ revise x y ;;
           if revised
           then (x_domain <~ domain_lookup x ;;
                 if List.length x_domain =? 0 then mret false
                 else ac3_loop cw fuel' (queue' ++ requeue cw x y))
           else ac3_loop cw fuel' queue')%py
      end
  end.

(** Number of candidate words over all domains. *)
Definition total_size (d : Domains) : nat :=
  list_sum (map (fun e => List.length (snd e)) d).

(** Largest number of neighbours of a variable that has a domain. *)
Definition max_degree (self : CrosswordCreator) : nat :=
  list_max (map (fun e => List.length (neighbors (crossword self) (fst e))) (domains self)).

(** Iterations that [ac3] can need from [queue]. *)
Definition ac3_fuel (queue : list (Var * Var)) (self : CrosswordCreator) : nat :=
  List.length queue + total_size (domains self) * S (max_degree self).

(** The initial work list. *)
Definition initial_queue (arcs : option (list (Var * Var))) (self : CrosswordCreator)
  : list (Var * Var) :=
  match arcs with
  | None => PyDict.keys (overlaps (crossword self))
  | Some arcs => arcs
  end.

Definition ac3 (arcs : option (list (Var * Var))) : M bool := fun self =>
  let queue := initial_queue arcs self in
  ac3_loop (crossword self) (ac3_fuel queue self) queue self.

(** *** [assignment_complete] *)

Definition assignment_complete (self : CrosswordCreator) (assignment : Assignment) : bool :=
  forallb (fun var => PyDict.mem var_eqb var assignment) (PyDict.keys (domains self)).

(** *** [consistent] *)

(** [set(l)], up to the order of its elements. *)
Fixpoint py_set (l : list Var) : list Var :=
  match l with
  | [] => []
  | x :: l' => if existsb (var_eqb x) l' then py_set l' else x :: py_set l'
  end.

(** Second loop: [True] when every assigned word has its variable's length. *)
Fixpoint lengths_ok (assignment : Assignment) (vars : list Var) : result bool :=
  match vars with
  | [] => Ok true
  | var :: rest =>
      (word <- PyDict.lookup var_eqb var assignment ;;
       if negb (var_length var =? String.length word) then Ok false
       else lengths_ok assignment rest)%py
  end.

(** Third loop, inner part: the assigned neighbours of [var]. *)
Fixpoint neighbors_ok (cw : Crossword) (assignment : Assignment) (var : Var)
         (ns : list Var) : result bool :=
  match ns with
  | [] => Ok true
  | neighbor :: rest =>
      if PyDict.mem var_eqb neighbor assignment
      then (o <- PyDict.lookup arc_eqb (var, neighbor) (overlaps cw) ;;
            match o with
            | None => Raise TypeError
            | Some (x_overlap, y_overlap) =>
                var_word <- PyDict.lookup var_eqb var assignment ;;
                a <- char_at var_word x_overlap ;;
                neighbor_word <- PyDict.lookup var_eqb neighbor assignment ;;
                b <- char_at neighbor_word y_overlap ;;
                if negb (Ascii.eqb a b) then Ok false
                else neighbors_ok cw assignment var rest
            end)%py
      else neighbors_ok cw assignment var rest
  end.

(** Third loop, outer part. *)
Fixpoint overlaps_ok (cw : Crossword) (assignment : Assignment) (vars : list Var)
  : result bool :=
  match vars with
  | [] => Ok true
  | var :: rest =>
      (ok <- neighbors_ok cw assignment var (neighbors cw var) ;;
       if ok then overlaps_ok cw assignment rest else Ok false)%py
  end.

Definition consistent (self : CrosswordCreator) (assignment : Assignment) : result bool :=
  (* iterating a dict yields its keys *)
  let words := PyDict.keys assignment in
  if negb (List.length words =? List.length (py_set words)) then Ok false
  else (ok <- lengths_ok assignment (PyDict.keys assignment) ;;
        if ok then overlaps_ok (crossword self) assignment (PyDict.keys assignment)
        else Ok false)%py.

(** *** [order_domain_values] *)

(** Innermost loop: the words of one unassigned neighbour. *)
Fixpoint count_words (word : string) (x_overlap y_overlap : nat)
         (neighbor_domain : list string) (eliminated : nat) : result nat :=
  match neighbor_domain with
  | [] => Ok eliminated
  | neighbor_word :: rest =>
      (a <- char_at word x_overlap ;;
       b <- char_at neighbor_word y_overlap ;;
       count_words word x_overlap y_overlap rest
                   (if negb (Ascii.eqb a b) then eliminated + 1 else eliminated))%py
  end.

(** Middle loop: the neighbours of [var]. *)
Fixpoint count_neighbors (self : CrosswordCreator) (assignment : Assignment)
         (var : Var) (word : string) (ns : list Var) (eliminated : nat) : result nat :=
  match ns with
  | [] => Ok eliminated
  | neighbor :: rest =>
      if negb (PyDict.mem var_eqb neighbor assignment)
      then (o <- PyDict.lookup arc_eqb (var, neighbor) (overlaps (crossword self)) ;;
            match o with
            | None => Raise TypeError
            | Some (x_overlap, y_overlap) =>
                neighbor_domain <- PyDict.lookup var_eqb neighbor (domains self) ;;
                eliminated' <- count_words word x_overlap y_overlap neighbor_domain eliminated ;;
                count_neighbors self assignment var word rest eliminated'
            end)%py
      else count_neighbors self assignment var word rest eliminated
  end.

(** [[item[0] for item in sorted(word_dict.items(), key=lambda item: item[1])]]. *)
Definition sorted_words (word_dict : PyDict.t string nat) : list string :=
  map fst (sorted (fun item : string * nat => snd item) word_dict).

(** Outer loop: [sorted_list] is bound, and bound again, in the loop body
    only; [None] is the unbound local. *)
Fixpoint order_loop (self : CrosswordCreator) (assignment : Assignment) (var : Var)
         (ns : list Var) (ws : list string) (word_dict : PyDict.t string nat)
         (sorted_list : option (list string)) : result (option (list string)) :=
  match ws with
  | [] => Ok sorted_list
  | word :: rest =>
      (eliminated <- count_neighbors self assignment var word ns 0 ;;
       let word_dict' := PyDict.set String.eqb word eliminated word_dict in
       order_loop self assignment var ns rest word_dict' (Some (sorted_words word_dict')))%py
  end.

Definition order_domain_values (self : CrosswordCreator) (var : Var)
           (assignment : Assignment) : result (list string) :=
  let ns := neighbors (crossword self) var in
  (ws <- PyDict.lookup var_eqb var (domains self) ;;
   sorted_list <- order_loop self assignment var ns ws [] None ;;
   match sorted_list with
   | Some l => Ok l
   | None => Raise UnboundLocalError
   end)%py.

(** *** [select_unassigned_variable] *)

Definition unassigned (self : CrosswordCreator) (assignment : Assignment) : Domains :=
  filter (fun e => negb (PyDict.mem var_eqb (fst e) assignment)) (domains self).

Definition degree (self : CrosswordCreator) (var : Var) : nat :=
  List.length (neighbors (crossword self) var).

Definition select_unassigned_variable (self : CrosswordCreator)
           (assignment : Assignment) : result Var :=
  let choice_dict := unassigned self assignment in
  let choice_dict := sorted (fun item : Var * word_set => List.length (snd item)) choice_dict in
  let first (l : list Var) : result Var :=
    match l with
    | v :: _ => Ok v
    | [] => Raise IndexError
    end in
  if List.length choice_dict =? 1 then first (PyDict.keys choice_dict)
  else first (sorted_reverse (degree self) (PyDict.keys choice_dict)).

(** *** [backtrack] *)

(** What the search does, in order: [Call a] when [backtrack(a)] is entered,
    [Try a variable value] when the loop of [backtrack(a)] takes [value]. *)
Inductive Event : Type :=
| Call (assignment : Assignment)
| Try (assignment : Assignment) (variable : Var) (value : string).

Definition Search := (list Event * result (option Assignment))%type.

(** The loop over the candidate values; [recur] is the recursive call. *)
Fixpoint backtrack_values (recur : Assignment -> Search) (self : CrosswordCreator)
         (assignment : Assignment) (variable : Var) (values : list string) : Search :=
  match values with
  | [] => ([], Ok None)
  | value :: rest =>
      let assignment_copy := PyDict.set var_eqb variable value assignment in
      let here := Try assignment variable value in
      match consistent self assignment_copy with
      | Ok true =>
          let (log, r) := recur assignment_copy in
          match r with
          | Ok None =>
              let (log', r') := backtrack_values recur self assignment variable rest in
              (here :: log ++ log', r')
          | _ => (here :: log, r)
          end
      | Ok false =>
          let (log', r') := backtrack_values recur self assignment variable rest in
          (here :: log', r')
      | Raise e => ([here], Raise e)
      | OutOfFuel => ([here], OutOfFuel)
      end
  end.

(** [fuel] bounds the depth of the recursion. *)
Fixpoint backtrack (fuel : nat) (self : CrosswordCreator) (assignment : Assignment)
  : Search :=
  if List.length assignment =? List.length (domains self)
  then ([Call assignment], Ok (Some assignment))
  else
    match fuel with
    | 0 => ([Call assignment], OutOfFuel)
    | S fuel' =>
        match select_unassigned_variable self assignment with
        | Ok variable =>
            match domain_get self variable with
            | Some values =>
                let (log, r) :=
                  backtrack_values (backtrack fuel' self) self assignment variable values in
                (Call assignment :: log, r)
            | None => ([Call assignment], Raise KeyError)
            end
        | Raise e => ([Call assignment], Raise e)
        | OutOfFuel => ([Call assignment], OutOfFuel)
        end
    end.

(** *** [solve] *)

(** The result of [ac3] is dropped; the search starts from [dict()] with
    one level of recursion per variable. *)
Definition solve (self : CrosswordCreator) : Search * CrosswordCreator :=
  match enforce_node_consistency self with
  | (Ok _, self1) =>
      match ac3 None self1 with
      | (Ok _, self2) => (backtrack (List.length (domains self2)) self2 [], self2)
      | (Raise e, self2) => (([], Raise e), self2)
      | (OutOfFuel, self2) => (([], OutOfFuel), self2)
      end
  | (Raise e, self1) => (([], Raise e), self1)
  | (OutOfFuel, self1) => (([], OutOfFuel), self1)
  end.

(** ** A puzzle to run the solver on *)

(** Modelled from the spec: the [neighbors] method of class [Crossword],
    whose source is not part of [generate.py]: the other variables with a
    defined overlap. *)
Definition neighbors_of (vars : list Var)
           (ov : PyDict.t (Var * Var) (option (nat * nat))) (var : Var) : list Var :=
  filter (fun v => negb (var_eqb v var) &&
                   match PyDict.get arc_eqb (v, var) ov with
                   | Some (Some _) => true
                   | _ => false
                   end) vars.

Definition make_crossword (vars : list Var) (vocabulary : word_set)
           (ov : PyDict.t (Var * Var) (option (nat * nat))) : Crossword :=
  {| variables := vars; words := vocabulary; overlaps := ov;
     neighbors := neighbors_of vars ov |}.

Module Example1.
(** A four-letter slot across the top row, crossed at its two ends by
    two three-letter slots going down. *)
Definition A := mkVar 0 0 ACROSS 4.
Definition B := mkVar 0 0 DOWN 3.
Definition C := mkVar 0 3 DOWN 3.

Definition geometry : Crossword :=
  make_crossword [A; B; C] ["ABBA"; "ACCA"; "ADDA"; "AXE"]
    [ ((A, B), Some (0, 0)); ((A, C), Some (3, 0));
      ((B, A), Some (0, 0)); ((B, C), None);
      ((C, A), Some (0, 3)); ((C, B), None) ].

Definition creator : CrosswordCreator := init geometry.
End Example1.

Module Example2.
(** A three-letter slot crossing a four-letter slot at their first cells. *)
Definition A := mkVar 0 0 ACROSS 3.
Definition B := mkVar 0 0 DOWN 4.

Definition geometry : Crossword :=
  make_crossword [A; B] ["CAT"; "DOG"; "CORN"; "DEER"; "DUCK"]
    [ ((A, B), Some (0, 0)); ((B, A), Some (0, 0)) ].

Definition creator : CrosswordCreator := init geometry.

(** The store once [solve()] has pruned it. *)
Definition pruned : CrosswordCreator := snd (solve creator).
End Example2.

Module Example3.
(** A three-letter slot crossing a four-letter slot at their first cells,
    and a vocabulary whose only words of those lengths start differently. *)
Definition A := mkVar 0 0 ACROSS 3.
Definition B := mkVar 0 0 DOWN 4.

Definition geometry : Crossword :=
  make_crossword [A; B] ["CAT"; "DEER"]
    [ ((A, B), Some (0, 0)); ((B, A), Some (0, 0)) ].

Definition creator : CrosswordCreator := init geometry.
End Example3.

(** * Vocabulary of the properties *)

Unset Implicit Arguments.

(** The candidate words of [x]; none when [x] has no entry. *)
Definition dom (self : CrosswordCreator) (x : Var) : word_set :=
  match domain_get self x with
  | Some ws => ws
  | None => []
  end.

(** [s'] is [s] with some candidate words taken away. *)
Record shrinks (s s' : CrosswordCreator) : Prop := {
  shrinks_crossword : crossword s' = crossword s;
  shrinks_keys : PyDict.keys (domains s') = PyDict.keys (domains s);
  shrinks_dom : forall v, incl (dom s' v) (dom s v);
  shrinks_size : total_size (domains s') <= total_size (domains s)
}.

(** [s'] differs from [s] in the domain of [x] at most. *)
Definition same_but (x : Var) (s s' : CrosswordCreator) : Prop :=
  crossword s' = crossword s /\
  forall z, z <> x -> domain_get s' z = domain_get s z.

(** Every run of [c], whatever its outcome, relates its two states by [R]. *)
Definition preserves (R : CrosswordCreator -> CrosswordCreator -> Prop)
           {A : Type} (c : M A) : Prop :=
  forall s r s', c s = (r, s') -> R s s'.

(** [w[i] == w2[j]] holds: both indices are in range and the characters
    are the same. *)
Definition agree (w : string) (i : nat) (w2 : string) (j : nat) : Prop :=
  exists c, String.get i w = Some c /\ String.get j w2 = Some c.

(** Every candidate of [x] has a partner among the candidates of [y]. *)
Definition supported (s : CrosswordCreator) (x y : Var) (i j : nat) : Prop :=
  forall w, In w (dom s x) -> exists w2, In w2 (dom s y) /\ agree w i w2 j.

(** One entry of the overlap dictionary of a well-formed geometry: a
    defined overlap joins two different variables, is recorded mirrored
    for the opposite pair, makes its first variable a neighbour of the
    second, and indexes inside both slots. *)
Definition well_formed_entry (cw : Crossword)
           (e : (Var * Var) * option (nat * nat)) : bool :=
  match e with
  | ((x, y), Some (i, j)) =>
      negb (var_eqb x y)
      && match PyDict.get arc_eqb (y, x) (overlaps cw) with
         | Some (Some (j', i')) => (i =? i') && (j =? j')
         | _ => false
         end
      && existsb (var_eqb x) (neighbors cw y)
      && (i <? var_length x) && (j <? var_length y)
  | (_, None) => true
  end.

(** The neighbours of [v] have a defined overlap with [v]. *)
Definition well_formed_neighbors (cw : Crossword) (v : Var) : bool :=
  forallb (fun n => match PyDict.get arc_eqb (n, v) (overlaps cw) with
                    | Some (Some _) => true
                    | _ => false
                    end) (neighbors cw v).

Definition well_formed_geometry (cw : Crossword) : bool :=
  forallb (well_formed_entry cw) (overlaps cw)
  && forallb (well_formed_neighbors cw) (variables cw).

(** The invariant of the work-list loop: an arc with a defined overlap is
    consistent unless it is waiting in the queue. *)
Definition pending_or_supported (queue : list (Var * Var)) (s : CrosswordCreator) : Prop :=
  forall x y i j, overlap_of s x y = Some (Some (i, j)) ->
                  In (x, y) queue \/ supported s x y i j.

(** Assignments met by the search: distinct variables, all with a domain. *)
Definition within (self : CrosswordCreator) (a : Assignment) : Prop :=
  NoDup (PyDict.keys a) /\ incl (PyDict.keys a) (PyDict.keys (domains self)).

(** Lengths agree with the slots, for the variables of [vars]. *)
Definition fits (a : Assignment) (vars : list Var) : Prop :=
  forall v w, In v vars -> PyDict.get var_eqb v a = Some w ->
              var_length v = String.length w.

(** Was [backtrack] entered? *)
Definition search_invoked (log : list Event) : bool :=
  existsb (fun e => match e with Call _ => true | Try _ _ _ => false end) log.

Fixpoint assignment_eqb (a b : Assignment) : bool :=
  match a, b with
  | [], [] => true
  | (v, w) :: a', (v', w') :: b' =>
      var_eqb v v' && String.eqb w w' && assignment_eqb a' b'
  | _, _ => false
  end.

(** The values the loop of [backtrack(a)] took, in order, as logged. *)
Definition tries_at (a : Assignment) (log : list Event) : list string :=
  flat_map (fun e => match e with
                     | Try a' _ value => if assignment_eqb a a' then [value] else []
                     | Call _ => []
                     end) log.

Definition event_assignment (e : Event) : Assignment :=
  match e with
  | Call a => a
  | Try a _ _ => a
  end.

Definition is_prefix (l1 l2 : list string) : Prop := exists rest, l2 = l1 ++ rest.

(** ** Vocabulary of the further properties *)

(** [len(word) == var.length]. *)
Definition fits_slot (v : Var) (w : string) : bool :=
  String.length w =? var_length v.

(** The store is a dictionary of sets: no variable twice, no word twice in
    a domain. *)
Definition store_ok (self : CrosswordCreator) : Prop :=
  NoDup (PyDict.keys (domains self)) /\
  forall v ws, In (v, ws) (domains self) -> NoDup ws.

(** Every candidate word has the length of its variable. *)
Definition node_consistent (self : CrosswordCreator) : Prop :=
  forall v w, In w (dom self v) -> fits_slot v w = true.

(** The words assigned to a variable and to one of its neighbours show the
    same character where the two slots cross. *)
Definition overlaps_agree (cw : Crossword) (a : Assignment) : Prop :=
  forall var n wv wn i j,
    PyDict.get var_eqb var a = Some wv ->
    PyDict.get var_eqb n a = Some wn ->
    In n (neighbors cw var) ->
    PyDict.get arc_eqb (var, n) (overlaps cw) = Some (Some (i, j)) ->
    agree wv i wn j.

(** A solution of the puzzle as the program tests it: [f] gives every
    variable that has a domain a word of that domain, of the variable's
    length, and the words of two overlapping variables show the same
    character where they cross.  Two variables may carry the same word. *)
Definition solution (self : CrosswordCreator) (f : Var -> string) : Prop :=
  (forall v ws, domain_get self v = Some ws ->
                In (f v) ws /\ fits_slot v (f v) = true) /\
  (forall x y i j,
      In x (PyDict.keys (domains self)) -> In y (PyDict.keys (domains self)) ->
      overlap_of self x y = Some (Some (i, j)) ->
      agree (f x) i (f y) j).

(** [a] assigns what [f] says. *)
Definition follows (a : Assignment) (f : Var -> string) : Prop :=
  forall v w, PyDict.get var_eqb v a = Some w -> f v = w.

(** The assignment [a] read as a function. *)
Definition reading (a : Assignment) (v : Var) : string :=
  match PyDict.get var_eqb v a with
  | Some w => w
  | None => EmptyString
  end.

(** [s'] has the geometry and the variables of [s], and every solution of
    [s] is still one of [s']. *)
Definition keeps_solutions (f : Var -> string) (s s' : CrosswordCreator) : Prop :=
  crossword s' = crossword s /\
  PyDict.keys (domains s') = PyDict.keys (domains s) /\
  (solution s f -> solution s' f).

(** [agree], computed. *)
Definition agreeb (w : string) (i : nat) (w2 : string) (j : nat) : bool :=
  match String.get i w, String.get j w2 with
  | Some a, Some b => Ascii.eqb a b
  | _, _ => false
  end.

(** [solution], computed over the entries of the store and of the overlap
    dictionary. *)
Definition solutionb (self : CrosswordCreator) (f : Var -> string) : bool :=
  forallb (fun e : Var * word_set =>
             word_mem (f (fst e)) (snd e) && fits_slot (fst e) (f (fst e)))
          (domains self)
  && forallb (fun e : (Var * Var) * option (nat * nat) =>
                match e with
                | ((x, y), Some (i, j)) =>
                    negb (PyDict.mem var_eqb x (domains self)
                          && PyDict.mem var_eqb y (domains self))
                    || agreeb (f x) i (f y) j
                | (_, None) => true
                end)
             (overlaps (crossword self)).

(** The words of [l] that differ from [word] where the slots cross. *)
Definition differing (word : string) (i j : nat) (l : list string) : nat :=
  List.length (filter (fun w2 => negb (agreeb word i w2 j)) l).

(** The candidate words of the unassigned variables of [ns] that [word],
    given to [var], rules out. *)
Definition ruled_out (self : CrosswordCreator) (assignment : Assignment)
           (var : Var) (word : string) (ns : list Var) : nat :=
  list_sum
    (map (fun neighbor =>
            if PyDict.mem var_eqb neighbor assignment then 0
            else match overlap_of self var neighbor with
                 | Some (Some (i, j)) => differing word i j (dom self neighbor)
                 | _ => 0
                 end) ns).

(** Every pair of the overlap dictionary is a pair of puzzle variables. *)
Definition arcs_known (cw : Crossword) : bool :=
  forallb (fun e : (Var * Var) * option (nat * nat) =>
             existsb (var_eqb (fst (fst e))) (variables cw)
             && existsb (var_eqb (snd (fst e))) (variables cw))
          (overlaps cw).

(** The state of a creator between the steps of [solve()]: a dictionary of
    sets with one domain per puzzle variable. *)
Definition store_of_puzzle (self : CrosswordCreator) : Prop :=
  store_ok self /\ PyDict.keys (domains self) = variables (crossword self).

(** One store is good whenever the other is. *)
Definition keeps_store_ok (s s' : CrosswordCreator) : Prop :=
  store_ok s -> store_ok s'.

(** ** [letter_grid] and [print] *)

(** What these two methods read of [self.crossword]: the size of the grid
    and, for [print], which cells are open. *)
Record Board : Type := mkBoard {
  width : nat;
  height : nat;
  structure : list (list bool)
}.

Definition Letters := list (list (option ascii)).

(** [l[n] = x] on a list long enough. *)
Fixpoint list_set {A : Type} (l : list A) (n : nat) (x : A) : list A :=
  match l, n with
  | [], _ => []
  | _ :: l', 0 => x :: l'
  | y :: l', S n' => y :: list_set l' n' x
  end.

(** [letters[i][j] = c]: [IndexError] outside the grid. *)
Definition letters_set (letters : Letters) (i j : nat) (c : ascii) : result Letters :=
  match nth_error letters i with
  | None => Raise IndexError
  | Some row =>
      if j <? List.length row
      then Ok (list_set letters i (list_set row j (Some c)))
      else Raise IndexError
  end.

(** The cell of the [k]-th letter of [variable]. *)
Definition cell_i (variable : Var) (k : nat) : nat :=
  var_i variable + (if direction_eqb (var_direction variable) DOWN then k else 0).

Definition cell_j (variable : Var) (k : nat) : nat :=
  var_j variable + (if direction_eqb (var_direction variable) ACROSS then k else 0).

(** The loop [for k in range(len(word))], over the remaining values of [k]. *)
Fixpoint write_word (variable : Var) (word : string) (ks : list nat)
         (letters : Letters) : result Letters :=
  match ks with
  | [] => Ok letters
  | k :: ks' =>
      (c <- char_at word k ;;
       letters' <- letters_set letters (cell_i variable k) (cell_j variable k) c ;;
       write_word variable word ks' letters')%py
  end.

(** The loop over [assignment.items()]. *)
Fixpoint write_words (items : Assignment) (letters : Letters) : result Letters :=
  match items with
  | [] => Ok letters
  | (variable, word) :: rest =>
      (letters' <- write_word variable word (seq 0 (String.length word)) letters ;;
       write_words rest letters')%py
  end.

Definition letter_grid (board : Board) (assignment : Assignment) : result Letters :=
  write_words assignment (repeat (repeat None (width board)) (height board)).

(** The full block that [print] shows for a closed cell (U+2588 in UTF-8). *)
Definition block : string :=
  String (ascii_of_nat 226) (String (ascii_of_nat 150) (String (ascii_of_nat 136) EmptyString)).

(** One cell of [print]: the text of its [print(..., end="")] call. *)
Definition print_cell (board : Board) (letters : Letters) (i j : nat) : result string :=
  match nth_error (structure board) i with
  | None => Raise IndexError
  | Some srow =>
      match nth_error srow j with
      | None => Raise IndexError
      | Some true =>
          match nth_error letters i with
          | None => Raise IndexError
          | Some row =>
              match nth_error row j with
              | None => Raise IndexError
              | Some (Some c) => Ok (String c EmptyString)
              | Some None => Ok (String " "%char EmptyString)
              end
          end
      | Some false => Ok block
      end
  end.

(** What [print] has written to the terminal, the newest text last, with
    the outcome of the call: the texts written before an exception stay. *)
Definition Printed := (list string * result unit)%type.

(** The inner loop of [print], over the remaining columns of row [i]. *)
Fixpoint print_row (board : Board) (letters : Letters) (i : nat) (js : list nat)
         (out : list string) : Printed :=
  match js with
  | [] => (out, Ok tt)
  | j :: js' =>
      match print_cell board letters i j with
      | Ok text => print_row board letters i js' (out ++ [text])
      | Raise e => (out, Raise e)
      | OutOfFuel => (out, OutOfFuel)
      end
  end.

Definition newline : string := String (ascii_of_nat 10) EmptyString.

(** The outer loop of [print], over the remaining rows. *)
Fixpoint print_rows (board : Board) (letters : Letters) (rows : list nat)
         (out : list string) : Printed :=
  match rows with
  | [] => (out, Ok tt)
  | i :: rows' =>
      match print_row board letters i (seq 0 (width board)) out with
      | (out', Ok _) => print_rows board letters rows' (out' ++ [newline])
      | (out', r) => (out', r)
      end
  end.

(** [print(assignment)]. *)
Definition print (board : Board) (assignment : Assignment) : Printed :=
  match letter_grid board assignment with
  | Ok letters => print_rows board letters (seq 0 (height board)) []
  | Raise e => ([], Raise e)
  | OutOfFuel => ([], OutOfFuel)
  end.

(** The letter that [letter_grid] owes to the word of one variable at cell
    [(i, j)], if the word covers the cell. *)
Definition covers (variable : Var) (word : string) (i j : nat) : option ascii :=
  match var_direction variable with
  | ACROSS =>
      if (i =? var_i variable) && (var_j variable <=? j)
      then String.get (j - var_j variable) word else None
  | DOWN =>
      if (j =? var_j variable) && (var_i variable <=? i)
      then String.get (i - var_i variable) word else None
  end.

(** The letter of the last entry of the assignment whose word covers the
    cell. *)
Definition letter_at (assignment : Assignment) (i j : nat) : option ascii :=
  fold_left (fun acc (e : Var * string) =>
               match covers (fst e) (snd e) i j with
               | Some c => Some c
               | None => acc
               end) assignment None.

(** Every cell of every assigned word lies on the board. *)
Definition on_board (board : Board) (assignment : Assignment) : Prop :=
  forall variable word k,
    In (variable, word) assignment -> k < String.length word ->
    cell_i variable k < height board /\ cell_j variable k < width board.

(** The content of a cell of a grid. *)
Definition cell {A : Type} (g : list (list A)) (i j : nat) : option A :=
  match nth_error g i with
  | Some row => nth_error row j
  | None => None
  end.

(** A grid of [h] rows of [w] cells. *)
Definition shaped {A : Type} (w h : nat) (g : list (list A)) : Prop :=
  List.length g = h /\ Forall (fun row => List.length row = w) g.

(** What [print] shows at an open cell: the letter, or a space. *)
Definition glyph (letter : option ascii) : string :=
  match letter with
  | Some c => String c EmptyString
  | None => String " "%char EmptyString
  end.

(** The texts of row [i] as [print] writes them for [assignment]. *)
Definition row_texts (board : Board) (assignment : Assignment) (i : nat) : list string :=
  map (fun j => match cell (structure board) i j with
                | Some false => block
                | _ => glyph (letter_at assignment i j)
                end) (seq 0 (width board))
  ++ [newline].

(** The board of [Example1]: an open top row, and the first and last
    columns open below it. *)
Definition board1 : Board :=
  mkBoard 4 3 [ [true; true; true; true];
                [true; false; false; true];
                [true; false; false; true] ].

Definition filled1 : Assignment :=
  [(Example1.A, "ABBA"); (Example1.B, "AXE"); (Example1.C, "AXE")].

(** [store_ok] and [node_consistent], computed. *)
Fixpoint distinct_words (l : list string) : bool :=
  match l with
  | [] => true
  | w :: l' => negb (word_mem w l') && distinct_words l'
  end.

Fixpoint distinct_vars (l : list Var) : bool :=
  match l with
  | [] => true
  | v :: l' => negb (existsb (var_eqb v) l') && distinct_vars l'
  end.

Definition store_okb (self : CrosswordCreator) : bool :=
  distinct_vars (PyDict.keys (domains self))
  && forallb (fun e : Var * word_set => distinct_words (snd e)) (domains self).

Definition node_consistentb (self : CrosswordCreator) : bool :=
  forallb (fun e : Var * word_set => forallb (fits_slot (fst e)) (snd e)) (domains self).

(** * Properties *)

(** ** Equality tests *)

Lemma direction_eqb_eq (a b : Direction) : direction_eqb a b = true <-> a = b.
Proof. destruct a, b; simpl; split; congruence. Qed.

Lemma var_eqb_eq (x y : Var) : var_eqb x y = true <-> x = y.
Proof.
  destruct x as [i1 j1 d1 l1], y as [i2 j2 d2 l2]; unfold var_eqb; simpl.
  rewrite !andb_true_iff, !Nat.eqb_eq, direction_eqb_eq.
  split.
  - intros [[[-> ->] ->] ->]; reflexivity.
  - intros H; injection H; auto.
Qed.

Lemma var_eqb_refl (x : Var) : var_eqb x x = true.
Proof. now apply var_eqb_eq. Qed.

Lemma var_eqb_neq (x y : Var) : var_eqb x y = false <-> x <> y.
Proof.
  rewrite <- var_eqb_eq. destruct (var_eqb x y); split; congruence.
Qed.

Lemma arc_eqb_eq (a b : Var * Var) : arc_eqb a b = true <-> a = b.
Proof.
  destruct a as [a1 a2], b as [b1 b2]; unfold arc_eqb; simpl.
  rewrite andb_true_iff, !var_eqb_eq. split.
  - intros [-> ->]; reflexivity.
  - intros H; injection H; auto.
Qed.

Lemma Var_eq_dec (x y : Var) : {x = y} + {x <> y}.
Proof.
  destruct (var_eqb x y) eqn:E.
  - left; now apply var_eqb_eq.
  - right; now apply var_eqb_neq.
Defined.

(** ** Dictionaries *)

Section DictFacts.
Variables K V : Type.
Variable eqb : K -> K -> bool.
Hypothesis eqb_eq : forall a b, eqb a b = true <-> a = b.

Local Abbreviation get := (PyDict.get eqb).
Local Abbreviation set := (PyDict.set eqb).
Local Abbreviation mem := (PyDict.mem eqb).
Local Abbreviation keys := (@PyDict.keys K V).

Lemma eqb_same (a : K) : eqb a a = true.
Proof. now apply eqb_eq. Qed.

Lemma eqb_diff (a b : K) : a <> b -> eqb a b = false.
Proof.
  intros H. destruct (eqb a b) eqn:E; [|reflexivity].
  apply eqb_eq in E. contradiction.
Qed.

Lemma get_In (k : K) (v : V) (d : PyDict.t K V) : get k d = Some v -> In (k, v) d.
Proof.
  induction d as [|[k' v'] d IH]; simpl; [discriminate|].
  destruct (eqb k k') eqn:E.
  - apply eqb_eq in E. intros [= ->]. subst. now left.
  - intros H. right. auto.
Qed.

Lemma get_keys (k : K) (d : PyDict.t K V) :
  In k (keys d) <-> exists v, get k d = Some v.
Proof.
  induction d as [|[k' v'] d IH]; simpl.
  - split; [contradiction | intros [v H]; discriminate].
  - destruct (eqb k k') eqn:E.
    + apply eqb_eq in E. subst. split; eauto.
    + rewrite IH. split; [|tauto].
      intros [H|H]; [|assumption].
      subst. rewrite eqb_same in E. discriminate.
Qed.

Lemma mem_keys (k : K) (d : PyDict.t K V) : mem k d = true <-> In k (keys d).
Proof.
  rewrite get_keys. unfold PyDict.mem.
  destruct (get k d); split; eauto; try discriminate.
  intros [v H]; discriminate.
Qed.

Lemma mem_false_keys (k : K) (d : PyDict.t K V) : mem k d = false <-> ~ In k (keys d).
Proof.
  rewrite <- mem_keys. destruct (mem k d); split; congruence.
Qed.

Lemma get_set_same (k : K) (v : V) (d : PyDict.t K V) : get k (set k v d) = Some v.
Proof.
  induction d as [|[k' v'] d IH]; simpl.
  - now rewrite eqb_same.
  - destruct (eqb k k') eqn:E; simpl; rewrite E; auto.
Qed.

Lemma get_set_other (k k' : K) (v : V) (d : PyDict.t K V) :
  k' <> k -> get k' (set k v d) = get k' d.
Proof.
  intros Hne. induction d as [|[k0 v0] d IH]; simpl.
  - now rewrite eqb_diff.
  - destruct (eqb k k0) eqn:E; simpl.
    + apply eqb_eq in E. subst. now rewrite eqb_diff.
    + now rewrite IH.
Qed.

Lemma keys_set_present (k : K) (v : V) (d : PyDict.t K V) :
  In k (keys d) -> keys (set k v d) = keys d.
Proof.
  induction d as [|[k0 v0] d IH]; simpl; [contradiction|].
  intros H. destruct (eqb k k0) eqn:E; simpl; [reflexivity|].
  f_equal. apply IH. destruct H as [H|H]; [|assumption].
  subst. rewrite eqb_same in E. discriminate.
Qed.

Lemma keys_set_absent (k : K) (v : V) (d : PyDict.t K V) :
  ~ In k (keys d) -> set k v d = d ++ [(k, v)].
Proof.
  induction d as [|[k0 v0] d IH]; simpl; [reflexivity|].
  intros H. destruct (eqb k k0) eqn:E.
  - apply eqb_eq in E. subst. tauto.
  - f_equal. apply IH. tauto.
Qed.
End DictFacts.

(** ** The domain store *)

Lemma shrinks_refl (s : CrosswordCreator) : shrinks s s.
Proof. split; auto using incl_refl. Qed.

Lemma shrinks_trans (s1 s2 s3 : CrosswordCreator) :
  shrinks s1 s2 -> shrinks s2 s3 -> shrinks s1 s3.
Proof.
  intros [C1 K1 D1 T1] [C2 K2 D2 T2]. split.
  - congruence.
  - congruence.
  - intros v. eapply incl_tran; eauto.
  - lia.
Qed.

Lemma same_but_refl (x : Var) (s : CrosswordCreator) : same_but x s s.
Proof. split; auto. Qed.

Lemma same_but_trans (x : Var) (s1 s2 s3 : CrosswordCreator) :
  same_but x s1 s2 -> same_but x s2 s3 -> same_but x s1 s3.
Proof.
  intros [C1 D1] [C2 D2]. split; [congruence|].
  intros z Hz. rewrite D2, D1; auto.
Qed.

Lemma word_mem_In (w : string) (s : word_set) : word_mem w s = true <-> In w s.
Proof.
  unfold word_mem. rewrite existsb_exists. split.
  - intros [w' [Hin He]]. apply String.eqb_eq in He. now subst.
  - intros H. exists w. split; [assumption | apply String.eqb_refl].
Qed.

Lemma word_discard_In (w u : string) (s : word_set) :
  In u (word_discard w s) <-> In u s /\ u <> w.
Proof.
  unfold word_discard. rewrite filter_In, negb_true_iff.
  destruct (String.eqb_spec w u); split; intros [H1 H2]; split; auto; congruence.
Qed.

Lemma word_discard_length (w : string) (s : word_set) :
  In w s -> List.length (word_discard w s) < List.length s.
Proof.
  induction s as [|u s IH]; simpl; [contradiction|].
  destruct (String.eqb_spec w u) as [->|Hne]; simpl.
  - intros _. unfold word_discard.
    pose proof (filter_length_le (fun w' => negb (String.eqb u w')) s). lia.
  - intros [H|H]; [congruence|]. apply IH in H. lia.
Qed.

Lemma total_size_set (x : Var) (ws ws' : word_set) (d : Domains) :
  PyDict.get var_eqb x d = Some ws ->
  total_size (PyDict.set var_eqb x ws' d) + List.length ws
  = total_size d + List.length ws'.
Proof.
  unfold total_size.
  induction d as [|[k v] d IH]; simpl; [discriminate|].
  destruct (var_eqb x k) eqn:E; simpl.
  - intros [= ->]. lia.
  - intros H. apply IH in H. lia.
Qed.

(** What a successful [self.domains[x].remove(w)] does. *)
Lemma domain_remove_ok (x : Var) (w : string) (s s' : CrosswordCreator) (u : unit) :
  domain_remove x w s = (Ok u, s') ->
  exists ws, domain_get s x = Some ws /\ In w ws /\
             domain_get s' x = Some (word_discard w ws) /\
             same_but x s s' /\
             PyDict.keys (domains s') = PyDict.keys (domains s) /\
             total_size (domains s') < total_size (domains s).
Proof.
  unfold domain_remove. destruct (domain_get s x) as [ws|] eqn:G; [|discriminate].
  destruct (word_mem w ws) eqn:Hm; [|discriminate].
  intros [= _ <-]. apply word_mem_In in Hm.
  exists ws. unfold domain_get in *; simpl. repeat split; auto.
  - apply get_set_same. apply var_eqb_eq.
  - intros z Hz. apply get_set_other; auto. apply var_eqb_eq.
  - apply keys_set_present; [apply var_eqb_eq|].
    apply (get_keys _ _ var_eqb var_eqb_eq). eauto.
  - pose proof (total_size_set x ws (word_discard w ws) _ G).
    pose proof (word_discard_length _ _ Hm). lia.
Qed.

(** A failed removal leaves the store as it was. *)
Lemma domain_remove_fail (x : Var) (w : string) (s s' : CrosswordCreator)
      (r : result unit) :
  domain_remove x w s = (r, s') -> (forall u, r <> Ok u) -> s' = s.
Proof.
  unfold domain_remove. destruct (domain_get s x) as [ws|]; [|congruence].
  destruct (word_mem w ws); [|congruence].
  intros [= <- <-] H. exfalso. eapply H; reflexivity.
Qed.

Lemma same_but_dom_shrinks (x : Var) (s s' : CrosswordCreator) :
  same_but x s s' ->
  PyDict.keys (domains s') = PyDict.keys (domains s) ->
  incl (dom s' x) (dom s x) ->
  total_size (domains s') <= total_size (domains s) ->
  shrinks s s'.
Proof.
  intros [Hc Hd] Hk Hi Ht. split; auto.
  intros v. destruct (Var_eq_dec v x) as [->|Hne]; [assumption|].
  unfold dom. rewrite Hd by assumption. apply incl_refl.
Qed.

Lemma domain_remove_shrinks (x : Var) (w : string) (s s' : CrosswordCreator)
      (r : result unit) :
  domain_remove x w s = (r, s') -> shrinks s s'.
Proof.
  intros H. destruct r as [[]| |].
  - apply domain_remove_ok in H. destruct H as (ws & G & Hin & G' & Hs & Hk & Ht).
    apply same_but_dom_shrinks with x; auto; [|lia].
    unfold dom. rewrite G, G'. intros u Hu. apply word_discard_In in Hu. tauto.
  - apply domain_remove_fail in H; [subst; apply shrinks_refl | congruence].
  - apply domain_remove_fail in H; [subst; apply shrinks_refl | congruence].
Qed.

Lemma domain_remove_same_but (x : Var) (w : string) (s s' : CrosswordCreator)
      (r : result unit) :
  domain_remove x w s = (r, s') -> same_but x s s'.
Proof.
  intros H. destruct r as [[]| |].
  - apply domain_remove_ok in H. destruct H as (ws & _ & _ & _ & Hs & _). exact Hs.
  - apply domain_remove_fail in H; [subst; apply same_but_refl | congruence].
  - apply domain_remove_fail in H; [subst; apply same_but_refl | congruence].
Qed.

(** ** Relations kept by computations *)

Section Preserves.
Variable R : CrosswordCreator -> CrosswordCreator -> Prop.
Hypothesis R_refl : forall s, R s s.
Hypothesis R_trans : forall s1 s2 s3, R s1 s2 -> R s2 s3 -> R s1 s3.

Lemma preserves_mret {A : Type} (a : A) : preserves R (mret a).
Proof. intros s r s' [= _ <-]. apply R_refl. Qed.

Lemma preserves_mlift {A : Type} (r : result A) : preserves R (mlift r).
Proof. intros s r' s' [= _ <-]. apply R_refl. Qed.

Lemma preserves_lookup (x : Var) : preserves R (domain_lookup x).
Proof. intros s r s' [= _ <-]. apply R_refl. Qed.

Lemma preserves_mbind {A B : Type} (c : M A) (k : A -> M B) :
  preserves R c -> (forall a, preserves R (k a)) -> preserves R (mbind c k).
Proof.
  intros Hc Hk s r s'. unfold mbind.
  destruct (c s) as [[a|e|] s1] eqn:E.
  - intros H. eapply R_trans; [eapply Hc; eauto | eapply Hk; eauto].
  - intros [= _ <-]. eapply Hc; eauto.
  - intros [= _ <-]. eapply Hc; eauto.
Qed.
End Preserves.

Lemma remove_preserves_shrinks (x : Var) (w : string) :
  preserves shrinks (domain_remove x w).
Proof. intros s r s'. apply domain_remove_shrinks. Qed.

Lemma remove_preserves_same_but (x : Var) (w : string) :
  preserves (same_but x) (domain_remove x w).
Proof. intros s r s'. apply domain_remove_same_but. Qed.

Lemma enforce_words_shrinks (var : Var) (ws : list string) :
  preserves shrinks (enforce_words var ws).
Proof.
  induction ws as [|word ws IH]; simpl.
  - apply preserves_mret, shrinks_refl.
  - destruct (negb _); [|exact IH].
    apply (preserves_mbind _ shrinks_trans); [apply remove_preserves_shrinks|auto].
Qed.

Lemma enforce_vars_shrinks (domain_copy : Domains) :
  preserves shrinks (enforce_vars domain_copy).
Proof.
  induction domain_copy as [|[var ws] rest IH]; simpl.
  - apply preserves_mret, shrinks_refl.
  - apply (preserves_mbind _ shrinks_trans); [apply enforce_words_shrinks|auto].
Qed.

Lemma enforce_node_consistency_shrinks : preserves shrinks enforce_node_consistency.
Proof. intros s r s'. unfold enforce_node_consistency. apply enforce_vars_shrinks. Qed.

Section ReviseKeeps.
Variable R : CrosswordCreator -> CrosswordCreator -> Prop.
Hypothesis R_refl : forall s, R s s.
Hypothesis R_trans : forall s1 s2 s3, R s1 s2 -> R s2 s3 -> R s1 s3.
Variable x : Var.
Hypothesis R_remove : forall w, preserves R (domain_remove x w).

Lemma revise_words_keeps (y : Var) (i j : nat) (ws : list string) (revised : bool) :
  preserves R (revise_words x y i j ws revised).
Proof.
  revert revised. induction ws as [|w ws IH]; intros revised; simpl.
  - now apply preserves_mret.
  - apply (preserves_mbind _ R_trans); [now apply preserves_lookup|intros yd].
    apply (preserves_mbind _ R_trans); [now apply preserves_mlift|intros [|]].
    + apply IH.
    + apply (preserves_mbind _ R_trans); [apply R_remove|intros _; apply IH].
Qed.

Lemma revise_keeps (y : Var) : preserves R (revise x y).
Proof.
  intros s r s'. unfold revise.
  destruct (overlap_of s x y) as [[[i j]|]|].
  - apply (preserves_mbind _ R_trans); [now apply preserves_lookup|intros xd].
    apply revise_words_keeps.
  - intros [= _ <-]. apply R_refl.
  - intros [= _ <-]. apply R_refl.
Qed.
End ReviseKeeps.

Lemma revise_shrinks (x y : Var) : preserves shrinks (revise x y).
Proof.
  apply revise_keeps.
  - apply shrinks_refl.
  - apply shrinks_trans.
  - apply remove_preserves_shrinks.
Qed.

Lemma revise_same_but (x y : Var) : preserves (same_but x) (revise x y).
Proof.
  apply revise_keeps.
  - apply same_but_refl.
  - apply same_but_trans.
  - apply remove_preserves_same_but.
Qed.

Lemma ac3_loop_shrinks (cw : Crossword) (fuel : nat) (queue : list (Var * Var)) :
  preserves shrinks (ac3_loop cw fuel queue).
Proof.
  revert queue. induction fuel as [|fuel IH]; intros [|[x y] queue]; simpl;
    try (apply preserves_mret, shrinks_refl);
    try (apply preserves_mlift, shrinks_refl).
  apply (preserves_mbind _ shrinks_trans); [apply revise_shrinks|intros [|]].
  - apply (preserves_mbind _ shrinks_trans);
      [apply preserves_lookup, shrinks_refl|intros xd].
    destruct (_ =? 0); [apply preserves_mret, shrinks_refl | apply IH].
  - apply IH.
Qed.

Lemma ac3_shrinks (arcs : option (list (Var * Var))) : preserves shrinks (ac3 arcs).
Proof. intros s r s'. unfold ac3. apply ac3_loop_shrinks. Qed.

(** C7.  Domains only shrink: whatever [enforce_node_consistency] does, and
    whatever [ac3] does from any initial arc list (also when it stops on an
    exception), every word in a variable's domain afterwards was in that
    variable's domain before; the variables that have a domain stay the same. *)
Theorem domains_only_shrink (self : CrosswordCreator)
        (arcs : option (list (Var * Var))) (var : Var) :
  let after_node := snd (enforce_node_consistency self) in
  let after_ac3 := snd (ac3 arcs self) in
  incl (dom after_node var) (dom self var) /\
  incl (dom after_ac3 var) (dom self var) /\
  PyDict.keys (domains after_node) = PyDict.keys (domains self) /\
  PyDict.keys (domains after_ac3) = PyDict.keys (domains self).
Proof.
  simpl.
  destruct (enforce_node_consistency self) as [r1 s1] eqn:E1.
  destruct (ac3 arcs self) as [r2 s2] eqn:E2.
  apply enforce_node_consistency_shrinks in E1.
  apply ac3_shrinks in E2. simpl.
  destruct E1, E2. auto.
Qed.

(** C8.  For every pair of variables [(x, y)] of a geometry in which no
    variable overlaps itself, [revise(x, y)] leaves the geometry (hence the
    overlap data) and the domain of [y] as they were; and when the overlap
    of [(x, y)] is [None] it returns [False] and leaves the whole store, the
    domain of [x] included, unchanged. *)
Theorem revise_frame (x y : Var) (self : CrosswordCreator)
        (Hself : x = y -> forall i j, overlap_of self x y <> Some (Some (i, j))) :
  crossword (snd (revise x y self)) = crossword self /\
  domain_get (snd (revise x y self)) y = domain_get self y /\
  (overlap_of self x y = Some None -> revise x y self = (Ok false, self)).
Proof.
  assert (Hnone : overlap_of self x y = Some None -> revise x y self = (Ok false, self)).
  { intros Ho. unfold revise. now rewrite Ho. }
  destruct (Var_eq_dec x y) as [Heq|Hne].
  - specialize (Hself Heq). unfold revise in *.
    destruct (overlap_of self x y) as [[[i j]|]|]; simpl; auto.
    now destruct (Hself i j).
  - destruct (revise x y self) as [r s'] eqn:E. simpl.
    pose proof (revise_same_but x y self _ _ E) as [Hc Hd].
    repeat split; auto.
Qed.

(** ** Termination of [ac3] *)

Lemma mbind_ok {A B : Type} (c : M A) (k : A -> M B) (s s' : CrosswordCreator) (b : B) :
  mbind c k s = (Ok b, s') ->
  exists a s1, c s = (Ok a, s1) /\ k a s1 = (Ok b, s').
Proof.
  unfold mbind. destruct (c s) as [[a|e|] s1]; try discriminate. eauto.
Qed.

Lemma mbind_out_of_fuel {A B : Type} (c : M A) (k : A -> M B) (s s' : CrosswordCreator) :
  mbind c k s = (OutOfFuel, s') ->
  c s = (OutOfFuel, s') \/ exists a s1, c s = (Ok a, s1) /\ k a s1 = (OutOfFuel, s').
Proof.
  unfold mbind. destruct (c s) as [[a|e|] s1]; intros H; try discriminate.
  - right. eauto.
  - left. congruence.
Qed.

Lemma rbind_ok {A B : Type} (r : result A) (k : A -> result B) (b : B) :
  rbind r k = Ok b -> exists a, r = Ok a /\ k a = Ok b.
Proof. destruct r; simpl; try discriminate. eauto. Qed.

Lemma char_at_fuel (w : string) (k : nat) : char_at w k <> OutOfFuel.
Proof. unfold char_at. destruct (String.get k w); discriminate. Qed.

Lemma matched_in_fuel (w : string) (i j : nat) (ys : list string) :
  matched_in w i j ys <> OutOfFuel.
Proof.
  induction ys as [|y ys IH]; simpl; [discriminate|].
  unfold chars_equal, char_at.
  destruct (String.get i w); simpl; [|discriminate].
  destruct (String.get j y); simpl; [|discriminate].
  destruct (Ascii.eqb _ _); [discriminate | exact IH].
Qed.

Lemma domain_remove_fuel (x : Var) (w : string) (s s' : CrosswordCreator) :
  domain_remove x w s <> (OutOfFuel, s').
Proof.
  unfold domain_remove. destruct (domain_get s x); [|discriminate].
  destruct (word_mem w w0); discriminate.
Qed.

Lemma domain_lookup_inv (x : Var) (s s' : CrosswordCreator) (r : result word_set) :
  domain_lookup x s = (r, s') ->
  s' = s /\ (r = Raise KeyError /\ domain_get s x = None
             \/ exists ws, r = Ok ws /\ domain_get s x = Some ws).
Proof.
  unfold domain_lookup, PyDict.lookup, domain_get.
  destruct (PyDict.get var_eqb x (domains s)); intros [= <- <-]; eauto.
Qed.

Lemma revise_words_fuel (x y : Var) (i j : nat) (ws : list string) (revised : bool)
      (s s' : CrosswordCreator) :
  revise_words x y i j ws revised s <> (OutOfFuel, s').
Proof.
  revert revised s. induction ws as [|w ws IH]; intros revised s; simpl.
  - discriminate.
  - intros H. apply mbind_out_of_fuel in H.
    destruct H as [H|(yd & s1 & H1 & H)].
    { apply domain_lookup_inv in H. destruct H as [_ [[? _]|(? & ? & _)]]; discriminate. }
    apply mbind_out_of_fuel in H.
    destruct H as [H|(m & s2 & H2 & H)].
    { injection H as H _. now apply matched_in_fuel in H. }
    destruct m.
    + now apply IH in H.
    + apply mbind_out_of_fuel in H.
      destruct H as [H|(u & s3 & H3 & H)].
      * now apply domain_remove_fuel in H.
      * now apply IH in H.
Qed.

Lemma revise_fuel (x y : Var) (s s' : CrosswordCreator) :
  revise x y s <> (OutOfFuel, s').
Proof.
  unfold revise. destruct (overlap_of s x y) as [[[i j]|]|]; try discriminate.
  intros H. apply mbind_out_of_fuel in H.
  destruct H as [H|(xd & s1 & H1 & H)].
  - apply domain_lookup_inv in H. destruct H as [_ [[? _]|(? & ? & _)]]; discriminate.
  - now apply revise_words_fuel in H.
Qed.

(** A run of the loop of [revise] either removes nothing or takes at least
    one word out of the store. *)
Lemma revise_words_size (x y : Var) (i j : nat) (ws : list string) (revised r : bool)
      (s s' : CrosswordCreator) :
  revise_words x y i j ws revised s = (Ok r, s') ->
  (r = revised /\ s' = s) \/
  (r = true /\ total_size (domains s') < total_size (domains s)).
Proof.
  revert revised s. induction ws as [|w ws IH]; intros revised s; simpl.
  - intros [= -> ->]. now left.
  - intros H. apply mbind_ok in H. destruct H as (yd & s1 & H1 & H).
    apply domain_lookup_inv in H1. destruct H1 as [-> _].
    apply mbind_ok in H. destruct H as (m & s2 & H2 & H).
    injection H2 as H2 <-.
    destruct m.
    + now apply IH.
    + apply mbind_ok in H. destruct H as (u & s3 & H3 & H).
      apply domain_remove_ok in H3. destruct H3 as (_ & _ & _ & _ & _ & _ & Hlt).
      apply IH in H. right. destruct H as [[-> ->]|[-> H]]; split; auto; lia.
Qed.

(** Each revision that reports a change strictly shrinks the store, and
    changes the domain of a variable that has one. *)
Lemma revise_true_shrinks (x y : Var) (s s' : CrosswordCreator) :
  revise x y s = (Ok true, s') ->
  total_size (domains s') < total_size (domains s) /\
  In x (PyDict.keys (domains s)).
Proof.
  unfold revise. destruct (overlap_of s x y) as [[[i j]|]|]; try discriminate.
  intros H. apply mbind_ok in H. destruct H as (xd & s1 & H1 & H).
  apply domain_lookup_inv in H1. destruct H1 as [-> [[? _]|(ws & ? & G)]]; [discriminate|].
  split.
  - apply revise_words_size in H. destruct H as [[? _]|[_ H]]; [discriminate|assumption].
  - apply (get_keys _ _ var_eqb var_eqb_eq). eauto.
Qed.

Lemma revise_false_same (x y : Var) (s s' : CrosswordCreator) :
  revise x y s = (Ok false, s') -> s' = s.
Proof.
  unfold revise. destruct (overlap_of s x y) as [[[i j]|]|]; try congruence.
  intros H. apply mbind_ok in H. destruct H as (xd & s1 & H1 & H).
  apply domain_lookup_inv in H1. destruct H1 as [-> _].
  apply revise_words_size in H. destruct H as [[_ ?]|[? _]]; [assumption|discriminate].
Qed.

Lemma list_max_In (n : nat) (l : list nat) : In n l -> n <= list_max l.
Proof.
  induction l as [|m l IH]; simpl; [contradiction|].
  intros [->|H]; [lia|]. apply IH in H. lia.
Qed.

Lemma degree_le_max (s : CrosswordCreator) (x : Var) :
  In x (PyDict.keys (domains s)) ->
  List.length (neighbors (crossword s) x) <= max_degree s.
Proof.
  intros H. apply list_max_In. unfold max_degree, PyDict.keys in *.
  apply in_map_iff in H. destruct H as ([k v] & <- & H).
  apply in_map_iff. exists (k, v). auto.
Qed.

Lemma max_degree_shrinks (s s' : CrosswordCreator) :
  shrinks s s' -> max_degree s' = max_degree s.
Proof.
  intros [Hc Hk _ _]. unfold max_degree. rewrite Hc. f_equal.
  unfold PyDict.keys in Hk.
  rewrite <- (map_map fst (fun k => List.length (neighbors (crossword s) k))).
  rewrite Hk. now rewrite map_map.
Qed.

Lemma requeue_length (cw : Crossword) (x y : Var) :
  List.length (requeue cw x y) <= List.length (neighbors cw x).
Proof.
  unfold requeue. rewrite length_map. apply filter_length_le.
Qed.

(** With [ac3_fuel] iterations at hand the loop never runs out. *)
Lemma ac3_loop_enough_fuel (fuel : nat) :
  forall (queue : list (Var * Var)) (s s' : CrosswordCreator),
    ac3_fuel queue s <= fuel ->
    ac3_loop (crossword s) fuel queue s <> (OutOfFuel, s').
Proof.
  induction fuel as [|fuel IH]; intros [|[x y] queue] s s' Hf; simpl;
    try discriminate.
  - unfold ac3_fuel in Hf. simpl in Hf. lia.
  - intros H. apply mbind_out_of_fuel in H.
    destruct H as [H|([|] & s1 & H1 & H)].
    + now apply revise_fuel in H.
    + pose proof (revise_shrinks x y s _ _ H1) as Hs.
      apply revise_true_shrinks in H1. destruct H1 as [Hlt Hx].
      apply mbind_out_of_fuel in H.
      destruct H as [H|(xd & s2 & H2 & H)].
      { apply domain_lookup_inv in H. destruct H as [_ [[? _]|(? & ? & _)]]; discriminate. }
      apply domain_lookup_inv in H2. destruct H2 as [-> _].
      destruct (List.length xd =? 0); [discriminate|].
      rewrite <- (shrinks_crossword _ _ Hs) in H.
      apply IH in H; [assumption|].
      unfold ac3_fuel in *. rewrite length_app. simpl in Hf.
      rewrite (max_degree_shrinks _ _ Hs).
      pose proof (requeue_length (crossword s1) x y) as Hq.
      rewrite (shrinks_crossword _ _ Hs) in Hq.
      pose proof (degree_le_max s x Hx).
      rewrite (shrinks_crossword _ _ Hs).
      set (d := max_degree s) in *.
      set (t := total_size (domains s)) in *.
      set (t' := total_size (domains s1)) in *.
      assert (t' * S d + S d <= t * S d) by nia.
      lia.
    + apply revise_false_same in H1. subst s1.
      apply IH in H; [assumption|].
      unfold ac3_fuel in *. simpl in Hf. lia.
Qed.

(** More fuel does not change a finished run. *)
Lemma ac3_loop_more_fuel (cw : Crossword) (fuel : nat) :
  forall (queue : list (Var * Var)) (s s' : CrosswordCreator) (r : result bool) (extra : nat),
    ac3_loop cw fuel queue s = (r, s') -> r <> OutOfFuel ->
    ac3_loop cw (fuel + extra) queue s = (r, s').
Proof.
  induction fuel as [|fuel IH]; intros [|[x y] queue] s s' r extra; simpl; auto.
  - now destruct extra.
  - intros [= <- _] H. congruence.
  - unfold mbind. destruct (revise x y s) as [[[|]|e|] s1]; auto.
    destruct (domain_lookup x s1) as [[xd|e|] s2]; auto.
    destruct (List.length xd =? 0); auto.
Qed.

Lemma ac3_enough_fuel (arcs : option (list (Var * Var))) (self : CrosswordCreator) :
  fst (ac3 arcs self) <> OutOfFuel.
Proof.
  unfold ac3. simpl.
  destruct (ac3_loop _ _ _ _) as [r s'] eqn:E. simpl. intros ->.
  revert E. apply ac3_loop_enough_fuel. lia.
Qed.

(** C9.  [ac3] terminates on every store and every initial arc list: the
    work-list loop finishes within [ac3_fuel] iterations (the length of the
    initial list plus, for each candidate word in the store, one revision
    and the arcs it can enqueue), and giving it more iterations changes
    nothing; the reason is that a revision that reports a change, the only
    kind that enqueues arcs, leaves strictly fewer candidate words in the
    store. *)
Theorem ac3_terminates (arcs : option (list (Var * Var))) (self : CrosswordCreator)
        (x y : Var) :
  fst (ac3 arcs self) <> OutOfFuel /\
  (forall extra,
      ac3_loop (crossword self)
               (ac3_fuel (initial_queue arcs self) self + extra)
               (initial_queue arcs self) self
      = ac3 arcs self) /\
  (fst (revise x y self) = Ok true ->
   total_size (domains (snd (revise x y self))) < total_size (domains self)).
Proof.
  pose proof (ac3_enough_fuel arcs self) as H.
  split; [exact H|]. split.
  - intros extra. unfold ac3 in *. simpl in *.
    destruct (ac3_loop _ (ac3_fuel _ _) _ _) as [r s'] eqn:E.
    now apply ac3_loop_more_fuel.
  - destruct (revise x y self) as [r s'] eqn:E. simpl. intros ->.
    now apply revise_true_shrinks in E.
Qed.

Lemma ac3_terminates_witness :
  let s := snd (enforce_node_consistency Example3.creator) in
  fst (ac3 None s) <> OutOfFuel /\
  total_size (domains (snd (revise Example3.A Example3.B s))) < total_size (domains s).
Proof.
  intros s.
  destruct (ac3_terminates None s Example3.A Example3.B) as (H1 & _ & H3).
  split; [exact H1|]. apply H3. reflexivity.
Defined.

(** ** Arc consistency after [ac3] *)

Lemma well_formed_overlap (cw : Crossword) (x y : Var) (i j : nat) :
  well_formed_geometry cw = true ->
  PyDict.get arc_eqb (x, y) (overlaps cw) = Some (Some (i, j)) ->
  x <> y /\
  PyDict.get arc_eqb (y, x) (overlaps cw) = Some (Some (j, i)) /\
  In x (neighbors cw y) /\
  i < var_length x /\ j < var_length y.
Proof.
  unfold well_formed_geometry. rewrite andb_true_iff. intros [Hwf _] Hg.
  apply (get_In _ _ arc_eqb arc_eqb_eq) in Hg.
  rewrite forallb_forall in Hwf. apply Hwf in Hg. simpl in Hg.
  rewrite !andb_true_iff, negb_true_iff in Hg.
  destruct Hg as [[[[Hne Hsym] Hn] Hi] Hj].
  repeat split.
  - now apply var_eqb_neq.
  - destruct (PyDict.get arc_eqb (y, x) (overlaps cw)) as [[[j' i']|]|];
      try discriminate.
    apply andb_true_iff in Hsym. destruct Hsym as [H1 H2].
    apply Nat.eqb_eq in H1, H2. now subst.
  - apply existsb_exists in Hn. destruct Hn as (z & Hz & He).
    apply var_eqb_eq in He. now subst.
  - now apply Nat.ltb_lt.
  - now apply Nat.ltb_lt.
Qed.

Lemma chars_equal_true (w : string) (i : nat) (w2 : string) (j : nat) (b : bool) :
  chars_equal w i w2 j = Ok b -> (b = true <-> agree w i w2 j).
Proof.
  unfold chars_equal, char_at, agree.
  destruct (String.get i w) as [a|]; simpl; [|discriminate].
  destruct (String.get j w2) as [c|]; simpl; [|discriminate].
  intros [= <-]. rewrite Ascii.eqb_eq. split.
  - intros ->. eauto.
  - intros (c' & [= ->] & [= ->]). reflexivity.
Qed.

Lemma matched_in_true (w : string) (i j : nat) (ys : list string) :
  matched_in w i j ys = Ok true -> exists w2, In w2 ys /\ agree w i w2 j.
Proof.
  induction ys as [|y ys IH]; simpl; [discriminate|].
  intros H. apply rbind_ok in H. destruct H as (b & Hb & H).
  apply chars_equal_true in Hb. destruct b.
  - exists y. split; [now left | now apply Hb].
  - apply IH in H. destruct H as (w2 & Hin & Ha). eauto.
Qed.

Lemma matched_in_false (w : string) (i j : nat) (ys : list string) :
  matched_in w i j ys = Ok false -> forall w2, In w2 ys -> ~ agree w i w2 j.
Proof.
  induction ys as [|y ys IH]; simpl; [contradiction|].
  intros H. apply rbind_ok in H. destruct H as (b & Hb & H).
  apply chars_equal_true in Hb. destruct b; [discriminate|].
  intros w2 [<-|Hin].
  - intros Ha. apply Hb in Ha. discriminate.
  - now apply IH.
Qed.

Lemma same_but_dom (x z : Var) (s s' : CrosswordCreator) :
  same_but x s s' -> z <> x -> dom s' z = dom s z.
Proof. intros [_ H] Hz. unfold dom. now rewrite H. Qed.

(** The loop of [revise] keeps of [x]'s domain exactly the words with a
    partner in [y]'s domain. *)
Lemma revise_words_spec (x y : Var) (i j : nat) (Hxy : x <> y) (ws : list string) :
  forall (revised r : bool) (s s' : CrosswordCreator),
    revise_words x y i j ws revised s = (Ok r, s') ->
    same_but x s s' /\
    (forall w, In w (dom s' x) <->
               In w (dom s x) /\ (In w ws -> matched_in w i j (dom s y) = Ok true)) /\
    (forall w, In w ws -> exists b, matched_in w i j (dom s y) = Ok b).
Proof.
  induction ws as [|w0 ws IH]; intros revised r s s'; simpl.
  - intros [= _ <-]. split; [apply same_but_refl|]. split; [|contradiction].
    intros w. tauto.
  - intros H. apply mbind_ok in H. destruct H as (yd & s1 & H1 & H).
    apply domain_lookup_inv in H1.
    destruct H1 as [-> [[? _]|(yd' & [= <-] & Gy)]]; [discriminate|].
    assert (Hyd : dom s y = yd) by (unfold dom; now rewrite Gy).
    apply mbind_ok in H. destruct H as (m & s2 & H2 & H).
    injection H2 as H2 <-. rewrite <- Hyd in H2.
    destruct m.
    + apply IH in H. destruct H as (Hs & Hiff & Hex).
      split; [assumption|]. split.
      * intros w. rewrite Hiff. split; intros [Hin Hm]; split; auto.
        intros [<-|Hw]; auto.
      * intros w [<-|Hw]; eauto.
    + apply mbind_ok in H. destruct H as (u & s3 & H3 & H).
      apply domain_remove_ok in H3.
      destruct H3 as (xs & Gx & Hin0 & Gx' & Hs3 & _ & _).
      apply IH in H. destruct H as (Hs & Hiff & Hex).
      assert (Hy3 : dom s3 y = dom s y) by (apply (same_but_dom _ _ _ _ Hs3); congruence).
      assert (Hx3 : dom s3 x = word_discard w0 (dom s x))
        by (unfold dom; now rewrite Gx, Gx').
      rewrite Hy3 in *. split; [eapply same_but_trans; eauto|]. split.
      * intros w. rewrite Hiff, Hx3, word_discard_In. split.
        -- intros [[Hin Hne] Hm]. split; auto. intros [<-|Hw]; [congruence|auto].
        -- intros [Hin Hm]. split; [split; auto|auto].
           intros ->. rewrite Hm in H2 by now left. discriminate.
      * intros w [<-|Hw]; eauto.
Qed.

Lemma revise_spec (x y : Var) (i j : nat) (b : bool) (s s' : CrosswordCreator) :
  x <> y ->
  overlap_of s x y = Some (Some (i, j)) ->
  revise x y s = (Ok b, s') ->
  same_but x s s' /\
  (forall w, In w (dom s' x) <->
             In w (dom s x) /\ matched_in w i j (dom s y) = Ok true) /\
  (forall w, In w (dom s x) -> exists m, matched_in w i j (dom s y) = Ok m).
Proof.
  intros Hxy Ho. unfold revise. rewrite Ho.
  intros H. apply mbind_ok in H. destruct H as (xd & s1 & H1 & H).
  apply domain_lookup_inv in H1.
  destruct H1 as [-> [[? _]|(xd' & [= <-] & Gx)]]; [discriminate|].
  assert (Hxd : dom s x = xd) by (unfold dom; now rewrite Gx).
  apply revise_words_spec in H; [|assumption]. rewrite Hxd.
  destruct H as (Hs & Hiff & Hex). split; [assumption|]. split; [|assumption].
  intros w. rewrite Hiff, Hxd. tauto.
Qed.

(** After a successful [revise(x, y)] the arc [(x, y)] is consistent. *)
Lemma revise_supported (x y : Var) (i j : nat) (b : bool) (s s' : CrosswordCreator) :
  x <> y ->
  overlap_of s x y = Some (Some (i, j)) ->
  revise x y s = (Ok b, s') ->
  supported s' x y i j.
Proof.
  intros Hxy Ho H. destruct (revise_spec x y i j b s s' Hxy Ho H) as (Hs & Hiff & _).
  intros w Hw. apply Hiff in Hw. destruct Hw as [_ Hm].
  apply matched_in_true in Hm.
  rewrite (same_but_dom _ _ _ _ Hs) by congruence. exact Hm.
Qed.

Lemma in_requeue (cw : Crossword) (x y z : Var) :
  In z (neighbors cw x) -> z <> y -> In (z, x) (requeue cw x y).
Proof.
  intros Hz Hne. unfold requeue. apply in_map_iff. exists z. split; [reflexivity|].
  apply filter_In. split; [assumption|].
  apply negb_true_iff. now apply var_eqb_neq.
Qed.

(** One revision that changed [x]'s domain re-establishes the invariant
    for the queue extended with the arcs into [x]. *)
Lemma invariant_after_revision (x y : Var) (queue : list (Var * Var))
      (s s' : CrosswordCreator) (b : bool) :
  well_formed_geometry (crossword s) = true ->
  pending_or_supported ((x, y) :: queue) s ->
  revise x y s = (Ok b, s') ->
  pending_or_supported (queue ++ requeue (crossword s) x y) s'.
Proof.
  intros Hwf Hinv Hrev a c i j Ho.
  pose proof (revise_same_but x y s _ _ Hrev) as Hsb.
  assert (Ho' : overlap_of s a c = Some (Some (i, j))).
  { unfold overlap_of in *. destruct Hsb as [Hc _]. now rewrite <- Hc. }
  destruct (well_formed_overlap _ _ _ _ _ Hwf Ho') as (Hac & Hsym & Hnb & _).
  destruct (Hinv a c i j Ho') as [[Heq|Hq]|Hsup].
  - injection Heq as <- <-. right. eapply revise_supported; eauto.
  - left. apply in_or_app. now left.
  - destruct (overlap_of s x y) as [[[xi yj]|]|] eqn:Hxy.
    2,3: (assert (s' = s) by (unfold revise in Hrev; rewrite Hxy in Hrev; congruence);
          subst; now right).
    destruct (well_formed_overlap _ _ _ _ _ Hwf Hxy) as (Hne & Hyx & _).
    destruct (revise_spec x y xi yj b s s' Hne Hxy Hrev) as (_ & Hiff & Hex).
    destruct (Var_eq_dec c x) as [->|Hcx].
    + (* an arc into [x] *)
      destruct (Var_eq_dec a y) as [->|Hay].
      * right. unfold overlap_of in Ho'. rewrite Hyx in Ho'.
        injection Ho' as <- <-.
        intros w2 Hw2. rewrite (same_but_dom _ _ _ _ Hsb) in Hw2 by congruence.
        destruct (Hsup w2 Hw2) as (w & Hw & c & Hc2 & Hc1).
        exists w. split; [|exists c; auto].
        apply Hiff. split; [assumption|].
        destruct (Hex w Hw) as [[|] Hm]; [assumption|].
        exfalso. eapply matched_in_false; eauto. exists c; auto.
      * left. apply in_or_app. right. now apply in_requeue.
    + right. intros w Hw.
      assert (Hw' : In w (dom s a)).
      { destruct (Var_eq_dec a x) as [->|Hax].
        - now apply Hiff in Hw.
        - now rewrite (same_but_dom _ _ _ _ Hsb) in Hw. }
      destruct (Hsup w Hw') as (w2 & Hw2 & Ha).
      exists w2. split; [|assumption].
      now rewrite (same_but_dom _ _ _ _ Hsb).
Qed.

Lemma ac3_loop_sound (fuel : nat) :
  forall (queue : list (Var * Var)) (s s' : CrosswordCreator),
    well_formed_geometry (crossword s) = true ->
    pending_or_supported queue s ->
    ac3_loop (crossword s) fuel queue s = (Ok true, s') ->
    pending_or_supported [] s'.
Proof.
  induction fuel as [|fuel IH]; intros [|[x y] queue] s s' Hwf Hinv; simpl;
    try discriminate; try (intros [= <-]; assumption).
  intros H. apply mbind_ok in H. destruct H as (b & s1 & Hrev & H).
  pose proof (invariant_after_revision _ _ _ _ _ _ Hwf Hinv Hrev) as Hinv1.
  pose proof (revise_same_but x y s _ _ Hrev) as [Hc _].
  destruct b.
  - apply mbind_ok in H. destruct H as (xd & s2 & H2 & H).
    apply domain_lookup_inv in H2. destruct H2 as [-> _].
    destruct (List.length xd =? 0); [discriminate|].
    rewrite <- Hc in *. eapply IH; eauto.
  - pose proof (revise_false_same _ _ _ _ Hrev). subst s1.
    apply (IH queue s s' Hwf); [|exact H].
    intros a c i j Ho.
    destruct (Hinv a c i j Ho) as [[Heq|Hq]|Hs]; [|now left|now right].
    injection Heq as <- <-. right.
    destruct (well_formed_overlap _ _ _ _ _ Hwf Ho) as (Hne & _).
    eapply revise_supported; eauto.
Qed.

Lemma initial_invariant (self : CrosswordCreator) :
  pending_or_supported (initial_queue None self) self.
Proof.
  intros x y i j Ho. left. simpl.
  apply (get_keys _ _ arc_eqb arc_eqb_eq). eauto.
Qed.

(** C5.  Over a well-formed geometry, when [ac3()] (default arc list)
    returns [True], every word [w] left in the domain of [x] has, for the
    overlap [(i, j)] of [(x, y)], a word [w2] in the domain of [y] with
    [w[i] == w2[j]]. *)
Theorem ac3_arc_consistent (self self' : CrosswordCreator) (x y : Var) (i j : nat)
        (w : string) :
  well_formed_geometry (crossword self) = true ->
  ac3 None self = (Ok true, self') ->
  overlap_of self' x y = Some (Some (i, j)) ->
  In w (dom self' x) ->
  exists w2, In w2 (dom self' y) /\ agree w i w2 j.
Proof.
  intros Hwf Hrun Ho Hw. unfold ac3 in Hrun. simpl in Hrun.
  apply ac3_loop_sound in Hrun;
    [|exact Hwf|exact (initial_invariant self)].
  destruct (Hrun x y i j Ho) as [[]|Hs]. now apply Hs.
Qed.

Lemma ac3_arc_consistent_witness :
  let s1 := snd (enforce_node_consistency Example1.creator) in
  let s2 := snd (ac3 None s1) in
  exists w2, In w2 (dom s2 Example1.C) /\ agree "ADDA" 3 w2 0.
Proof.
  intros s1 s2.
  apply (ac3_arc_consistent s1 s2 Example1.A Example1.C 3 0 "ADDA").
  - reflexivity.
  - reflexivity.
  - reflexivity.
  - simpl. auto.
Defined.

(** ** Sorting *)

Section SortedFacts.
Variable A : Type.
Variable key : A -> nat.

Lemma insert_asc_perm (x : A) (l : list A) : Permutation (insert_asc key x l) (x :: l).
Proof.
  induction l as [|y l IH]; simpl; [reflexivity|].
  destruct (key x <=? key y); [reflexivity|].
  rewrite IH. apply perm_swap.
Qed.

Lemma sorted_perm (l : list A) : Permutation (sorted key l) l.
Proof.
  induction l as [|x l IH]; simpl; [reflexivity|].
  rewrite insert_asc_perm. now constructor.
Qed.

Lemma insert_desc_perm (x : A) (l : list A) : Permutation (insert_desc key x l) (x :: l).
Proof.
  induction l as [|y l IH]; simpl; [reflexivity|].
  destruct (key y <=? key x); [reflexivity|].
  rewrite IH. apply perm_swap.
Qed.

Lemma sorted_reverse_perm (l : list A) : Permutation (sorted_reverse key l) l.
Proof.
  induction l as [|x l IH]; simpl; [reflexivity|].
  rewrite insert_desc_perm. now constructor.
Qed.
Lemma insert_asc_sorted (x : A) (l : list A) :
  StronglySorted (fun a b => key a <= key b) l ->
  StronglySorted (fun a b => key a <= key b) (insert_asc key x l).
Proof.
  induction 1 as [|y l Hs IH Hy]; simpl.
  - repeat constructor.
  - destruct (key x <=? key y) eqn:E.
    + apply Nat.leb_le in E. constructor; [now constructor|].
      constructor; [assumption|].
      eapply Forall_impl; [|exact Hy]. simpl. intros z Hz. lia.
    + apply Nat.leb_gt in E. constructor; [assumption|].
      eapply Permutation_Forall; [symmetry; apply insert_asc_perm|].
      constructor; [lia|assumption].
Qed.

(** [sorted] sorts by ascending key. *)
Lemma sorted_sorted (l : list A) :
  StronglySorted (fun a b => key a <= key b) (sorted key l).
Proof.
  induction l as [|x l IH]; simpl; [constructor|]. now apply insert_asc_sorted.
Qed.

Lemma insert_desc_sorted (x : A) (l : list A) :
  StronglySorted (fun a b => key b <= key a) l ->
  StronglySorted (fun a b => key b <= key a) (insert_desc key x l).
Proof.
  induction 1 as [|y l Hs IH Hy]; simpl.
  - repeat constructor.
  - destruct (key y <=? key x) eqn:E.
    + apply Nat.leb_le in E. constructor; [now constructor|].
      constructor; [assumption|].
      eapply Forall_impl; [|exact Hy]. simpl. intros z Hz. lia.
    + apply Nat.leb_gt in E. constructor; [assumption|].
      eapply Permutation_Forall; [symmetry; apply insert_desc_perm|].
      constructor; [lia|assumption].
Qed.

(** [sorted_reverse] sorts by descending key. *)
Lemma sorted_reverse_sorted (l : list A) :
  StronglySorted (fun a b => key b <= key a) (sorted_reverse key l).
Proof.
  induction l as [|x l IH]; simpl; [constructor|]. now apply insert_desc_sorted.
Qed.

(** The head of [sorted_reverse] has the largest key. *)
Lemma sorted_reverse_head (l r : list A) (x y : A) :
  sorted_reverse key l = x :: r -> In y l -> key y <= key x.
Proof.
  intros H Hy. pose proof (sorted_reverse_sorted l) as Hs. rewrite H in Hs.
  apply (Permutation_in _ (Permutation_sym (sorted_reverse_perm l))) in Hy.
  rewrite H in Hy. inversion Hs as [|? ? _ Hall]; subst.
  destruct Hy as [<-|Hy]; [lia|].
  rewrite Forall_forall in Hall. now apply Hall.
Qed.
End SortedFacts.

(** ** Variable selection *)

(** [select_unassigned_variable] returns the head of a rearrangement of
    the unassigned variables. *)
Lemma select_unassigned_variable_head (self : CrosswordCreator) (a : Assignment) :
  exists l, Permutation l (PyDict.keys (unassigned self a)) /\
            select_unassigned_variable self a
            = match l with v :: _ => Ok v | [] => Raise IndexError end.
Proof.
  unfold select_unassigned_variable.
  set (by_size := sorted _ (unassigned self a)).
  assert (Hp : Permutation (PyDict.keys by_size) (PyDict.keys (unassigned self a))).
  { unfold PyDict.keys. apply Permutation_map. apply sorted_perm. }
  destruct (List.length by_size =? 1).
  - exists (PyDict.keys by_size). auto.
  - exists (sorted_reverse (degree self) (PyDict.keys by_size)). split; [|reflexivity].
    rewrite sorted_reverse_perm. exact Hp.
Qed.

Lemma unassigned_keys (self : CrosswordCreator) (a : Assignment) (v : Var) :
  In v (PyDict.keys (unassigned self a)) <->
  In v (PyDict.keys (domains self)) /\ ~ In v (PyDict.keys a).
Proof.
  split.
  - intros H. apply in_map_iff in H. destruct H as ([k ws] & <- & H).
    apply filter_In in H. destruct H as [H1 H2]. simpl in *. split.
    + apply in_map_iff. exists (k, ws). auto.
    + apply negb_true_iff in H2.
      now apply (mem_false_keys _ _ var_eqb var_eqb_eq) in H2.
  - intros [H Hn]. apply in_map_iff in H. destruct H as ([k ws] & <- & H).
    apply in_map_iff. exists (k, ws). split; [reflexivity|].
    apply filter_In. split; [assumption|]. simpl in *.
    apply negb_true_iff. now apply (mem_false_keys _ _ var_eqb var_eqb_eq).
Qed.

(** With two or more variables unassigned, the selected variable is one
    with the most neighbours, whatever the sizes of the domains. *)
Lemma select_unassigned_variable_max_degree (self : CrosswordCreator) (a : Assignment)
      (v u : Var) :
  select_unassigned_variable self a = Ok v ->
  List.length (unassigned self a) <> 1 ->
  In u (PyDict.keys (unassigned self a)) ->
  degree self u <= degree self v.
Proof.
  unfold select_unassigned_variable.
  set (by_size := sorted _ (unassigned self a)).
  assert (Hp : Permutation by_size (unassigned self a)) by apply sorted_perm.
  rewrite <- (Permutation_length Hp).
  intros H Hlen Hu. apply Nat.eqb_neq in Hlen. rewrite Hlen in H.
  destruct (sorted_reverse (degree self) (PyDict.keys by_size)) as [|v' r] eqn:E;
    [discriminate|].
  injection H as ->.
  apply (sorted_reverse_head _ (degree self) _ _ _ _ E).
  eapply Permutation_in; [|exact Hu].
  unfold PyDict.keys. apply Permutation_map. now symmetry.
Qed.

(** The selected variable has a domain and no assigned word. *)
Lemma select_unassigned_variable_ok (self : CrosswordCreator) (a : Assignment) (v : Var) :
  select_unassigned_variable self a = Ok v ->
  In v (PyDict.keys (domains self)) /\ ~ In v (PyDict.keys a).
Proof.
  destruct (select_unassigned_variable_head self a) as (l & Hp & ->).
  destruct l as [|v' l]; [discriminate|]. intros [= ->].
  apply unassigned_keys. eapply Permutation_in; [exact Hp|now left].
Qed.

(** A variable is selected whenever one is left. *)
Lemma select_unassigned_variable_total (self : CrosswordCreator) (a : Assignment) (v : Var) :
  In v (PyDict.keys (domains self)) -> ~ In v (PyDict.keys a) ->
  exists v', select_unassigned_variable self a = Ok v'.
Proof.
  intros H1 H2.
  destruct (select_unassigned_variable_head self a) as (l & Hp & ->).
  destruct l as [|v' l]; [|eauto].
  apply Permutation_nil in Hp.
  assert (H : In v (PyDict.keys (unassigned self a))) by now apply unassigned_keys.
  rewrite Hp in H. contradiction.
Qed.

(** ** The search *)

Lemma within_empty (self : CrosswordCreator) : within self [].
Proof. split; [constructor | intros v []]. Qed.

Lemma set_fresh (a : Assignment) (v : Var) (w : string) :
  ~ In v (PyDict.keys a) -> PyDict.set var_eqb v w a = a ++ [(v, w)].
Proof. apply keys_set_absent, var_eqb_eq. Qed.

Lemma within_extend (self : CrosswordCreator) (a : Assignment) (v : Var) (w : string) :
  within self a ->
  In v (PyDict.keys (domains self)) -> ~ In v (PyDict.keys a) ->
  within self (PyDict.set var_eqb v w a).
Proof.
  intros [Hnd Hin] Hv Hn. rewrite set_fresh by assumption.
  unfold within, PyDict.keys. rewrite map_app. simpl. split.
  - apply NoDup_app; auto.
    + constructor; [intros []|constructor].
    + intros u Hu [<-|[]]. contradiction.
  - intros u Hu. apply in_app_or in Hu. destruct Hu as [Hu|[<-|[]]]; auto.
Qed.

(** A successful run of the loop comes from one of the values, accepted
    by [consistent] and completed by the recursive call. *)
Lemma backtrack_values_some (recur : Assignment -> Search) (self : CrosswordCreator)
      (a : Assignment) (v : Var) (values : list string) (log : list Event)
      (r : Assignment) :
  backtrack_values recur self a v values = (log, Ok (Some r)) ->
  exists value log',
    In value values /\
    consistent self (PyDict.set var_eqb v value a) = Ok true /\
    recur (PyDict.set var_eqb v value a) = (log', Ok (Some r)).
Proof.
  revert log. induction values as [|value rest IH]; intros log; simpl; [discriminate|].
  destruct (consistent self (PyDict.set var_eqb v value a)) as [[|]|e|] eqn:Hc;
    try discriminate.
  - destruct (recur (PyDict.set var_eqb v value a)) as [log1 [[r1|]|e|]] eqn:Hr;
      try discriminate.
    + intros [= _ ->]. exists value, log1. auto.
    + destruct (backtrack_values recur self a v rest) as [log2 r2].
      intros [= _ ->]. destruct (IH _ eq_refl) as (value' & log' & Hin & H1 & H2).
      exists value', log'. auto.
  - destruct (backtrack_values recur self a v rest) as [log2 r2].
    intros [= _ ->]. destruct (IH _ eq_refl) as (value' & log' & Hin & H1 & H2).
    exists value', log'. auto.
Qed.

(** What a returned assignment looks like. *)
Lemma backtrack_result (self : CrosswordCreator) (fuel : nat) :
  forall (a r : Assignment) (log : list Event),
    within self a ->
    backtrack fuel self a = (log, Ok (Some r)) ->
    List.length r = List.length (domains self) /\
    within self r /\
    (r = a \/ consistent self r = Ok true) /\
    (forall v w, PyDict.get var_eqb v r = Some w ->
                 PyDict.get var_eqb v a = Some w \/ In w (dom self v)).
Proof.
  induction fuel as [|fuel IH]; intros a r log Hw; simpl;
    destruct (List.length a =? List.length (domains self)) eqn:Hlen;
    try discriminate;
    try (intros [= _ <-]; apply Nat.eqb_eq in Hlen; auto).
  destruct (select_unassigned_variable self a) as [v|e|] eqn:Hsel; try discriminate.
  apply select_unassigned_variable_ok in Hsel. destruct Hsel as [Hv Hn].
  destruct (domain_get self v) as [values|] eqn:Hd; [|discriminate].
  destruct (backtrack_values _ _ _ _ _) as [log1 r1] eqn:Hb.
  intros [= _ ->]. apply backtrack_values_some in Hb.
  destruct Hb as (value & log' & Hin & Hc & Hr).
  apply IH in Hr; [|now apply within_extend].
  destruct Hr as (Hl & Hw' & Hcons & Hval).
  split; [exact Hl|]. split; [exact Hw'|]. split.
  - right. destruct Hcons as [->|]; assumption.
  - intros u w Hu. apply Hval in Hu. destruct Hu as [Hu|Hu]; [|now right].
    destruct (Var_eq_dec u v) as [->|Hne].
    + rewrite (get_set_same _ _ var_eqb var_eqb_eq) in Hu. injection Hu as <-.
      right. unfold dom. now rewrite Hd.
    + rewrite (get_set_other _ _ var_eqb var_eqb_eq) in Hu by assumption. now left.
Qed.

Lemma within_length (self : CrosswordCreator) (a : Assignment) :
  within self a -> List.length a <= List.length (domains self).
Proof.
  intros [Hnd Hin]. apply NoDup_incl_length in Hin; [|assumption].
  unfold PyDict.keys in Hin. now rewrite !length_map in Hin.
Qed.

(** As many distinct assigned variables as there are domains: all of them
    are assigned. *)
Lemma within_full (self : CrosswordCreator) (r : Assignment) :
  NoDup (PyDict.keys (domains self)) ->
  within self r ->
  List.length r = List.length (domains self) ->
  incl (PyDict.keys (domains self)) (PyDict.keys r).
Proof.
  intros Hd [Hnd Hin] Hlen.
  apply NoDup_length_incl; auto.
  unfold PyDict.keys. rewrite !length_map. lia.
Qed.

Lemma assignment_complete_iff (self : CrosswordCreator) (a : Assignment) :
  assignment_complete self a = true <->
  incl (PyDict.keys (domains self)) (PyDict.keys a).
Proof.
  unfold assignment_complete. rewrite forallb_forall. unfold incl.
  split; intros H v Hv; apply (mem_keys _ _ var_eqb var_eqb_eq); auto.
Qed.

Lemma solve_inv (self self' : CrosswordCreator) (log : list Event)
      (o : option Assignment) :
  solve self = ((log, Ok o), self') ->
  exists u s1 b,
    enforce_node_consistency self = (Ok u, s1) /\
    ac3 None s1 = (Ok b, self') /\
    backtrack (List.length (domains self')) self' [] = (log, Ok o).
Proof.
  unfold solve.
  destruct (enforce_node_consistency self) as [[u|e|] s1] eqn:E1; try discriminate.
  destruct (ac3 None s1) as [[b|e|] s2] eqn:E2; try discriminate.
  intros H. injection H as H <-. exists u, s1, b. auto.
Qed.

(** C6.  Whenever [solve()] returns an assignment rather than [None], that
    assignment passes [assignment_complete] and [consistent] (the check as
    the program makes it). *)
Theorem solve_returns_complete_consistent (self self' : CrosswordCreator)
        (log : list Event) (a : Assignment) :
  NoDup (PyDict.keys (domains self)) ->
  solve self = ((log, Ok (Some a)), self') ->
  assignment_complete self' a = true /\ consistent self' a = Ok true.
Proof.
  intros Hnd Hs. apply solve_inv in Hs.
  destruct Hs as (u & s1 & b & H1 & H2 & H3).
  apply enforce_node_consistency_shrinks in H1.
  apply ac3_shrinks in H2.
  pose proof (shrinks_trans _ _ _ H1 H2) as Hsh.
  rewrite <- (shrinks_keys _ _ Hsh) in Hnd.
  apply backtrack_result in H3; [|apply within_empty].
  destruct H3 as (Hl & Hw & Hc & _). split.
  - apply assignment_complete_iff. now apply within_full.
  - destruct Hc as [->|Hc]; [reflexivity|assumption].
Qed.

Lemma solve_returns_complete_consistent_witness :
  let a := [(Example1.A, "ABBA"); (Example1.B, "AXE"); (Example1.C, "AXE")] in
  let self' := snd (solve Example1.creator) in
  assignment_complete self' a = true /\ consistent self' a = Ok true.
Proof.
  apply (solve_returns_complete_consistent
           Example1.creator _ (fst (fst (solve Example1.creator)))).
  - simpl. repeat constructor; simpl; intuition discriminate.
  - reflexivity.
Defined.

(** ** The search after a failed propagation *)

Lemma get_in_range (w : string) (k : nat) :
  k < String.length w -> exists c, String.get k w = Some c.
Proof.
  revert k. induction w as [|c w IH]; intros k; simpl; [lia|].
  destruct k as [|k]; [eauto|]. intros H. apply IH. lia.
Qed.

Lemma lengths_ok_total (a : Assignment) (vars : list Var) :
  incl vars (PyDict.keys a) ->
  exists b, lengths_ok a vars = Ok b /\ (b = true -> fits a vars).
Proof.
  induction vars as [|v vars IH]; intros Hin; simpl.
  - exists true. split; [reflexivity|]. intros _ v w [].
  - assert (Hv : In v (PyDict.keys a)) by (apply Hin; now left).
    apply (get_keys _ _ var_eqb var_eqb_eq) in Hv. destruct Hv as [w Hw].
    unfold PyDict.lookup. rewrite Hw. simpl.
    destruct (var_length v =? String.length w) eqn:E; simpl.
    + destruct IH as (b & Hb & Hfit); [intros u Hu; apply Hin; now right|].
      exists b. split; [assumption|]. intros Ht v' w' [<-|Hv'] Hg.
      * rewrite Hw in Hg. injection Hg as <-. now apply Nat.eqb_eq.
      * now apply (Hfit Ht v' w').
    + exists false. split; [reflexivity|discriminate].
Qed.

Lemma neighbors_ok_total (cw : Crossword) (a : Assignment) (var : Var) (ns : list Var) :
  well_formed_geometry cw = true ->
  fits a (PyDict.keys a) ->
  In var (PyDict.keys a) ->
  (forall n, In n ns -> exists o, PyDict.get arc_eqb (n, var) (overlaps cw) = Some (Some o)) ->
  exists b, neighbors_ok cw a var ns = Ok b.
Proof.
  intros Hwf Hfit Hvar. induction ns as [|n ns IH]; intros Hns; simpl; [eauto|].
  assert (IH' : exists b, neighbors_ok cw a var ns = Ok b)
    by (apply IH; intros m Hm; apply Hns; now right).
  destruct (PyDict.mem var_eqb n a) eqn:Hmem; [|exact IH'].
  apply (mem_keys _ _ var_eqb var_eqb_eq) in Hmem.
  destruct (Hns n (or_introl eq_refl)) as [[p q] Ho].
  destruct (well_formed_overlap _ _ _ _ _ Hwf Ho) as (_ & Hsym & _ & Hp & Hq).
  unfold PyDict.lookup. rewrite Hsym. simpl.
  pose proof Hvar as Hvar'. pose proof Hmem as Hmem'.
  apply (get_keys _ _ var_eqb var_eqb_eq) in Hvar'. destruct Hvar' as [wv Hwv].
  apply (get_keys _ _ var_eqb var_eqb_eq) in Hmem'. destruct Hmem' as [wn Hwn].
  rewrite Hwv, Hwn. simpl. unfold char_at.
  destruct (get_in_range wv q) as [c1 ->];
    [rewrite <- (Hfit var wv Hvar Hwv); assumption|].
  simpl.
  destruct (get_in_range wn p) as [c2 ->];
    [rewrite <- (Hfit n wn Hmem Hwn); assumption|].
  simpl. destruct (Ascii.eqb c1 c2); simpl; eauto.
Qed.

Lemma well_formed_neighbors_overlap (cw : Crossword) (v n : Var) :
  well_formed_geometry cw = true ->
  In v (variables cw) -> In n (neighbors cw v) ->
  exists o, PyDict.get arc_eqb (n, v) (overlaps cw) = Some (Some o).
Proof.
  unfold well_formed_geometry. rewrite andb_true_iff. intros [_ Hwf] Hv Hn.
  rewrite forallb_forall in Hwf. apply Hwf in Hv.
  unfold well_formed_neighbors in Hv. rewrite forallb_forall in Hv. apply Hv in Hn.
  destruct (PyDict.get arc_eqb (n, v) (overlaps cw)) as [[o|]|]; try discriminate.
  eauto.
Qed.

Lemma overlaps_ok_total (cw : Crossword) (a : Assignment) (vars : list Var) :
  well_formed_geometry cw = true ->
  fits a (PyDict.keys a) ->
  incl vars (PyDict.keys a) -> incl vars (variables cw) ->
  exists b, overlaps_ok cw a vars = Ok b.
Proof.
  intros Hwf Hfit. induction vars as [|v vars IH]; intros H1 H2; simpl; [eauto|].
  destruct (neighbors_ok_total cw a v (neighbors cw v)) as [b ->]; auto.
  - apply H1. now left.
  - intros n Hn. apply well_formed_neighbors_overlap; auto. apply H2. now left.
  - simpl. destruct b; [|eauto].
    apply IH; intros u Hu; [apply H1|apply H2]; now right.
Qed.

(** Over a well-formed geometry [consistent] raises nothing. *)
Lemma consistent_total (self : CrosswordCreator) (a : Assignment) :
  well_formed_geometry (crossword self) = true ->
  incl (PyDict.keys a) (variables (crossword self)) ->
  exists b, consistent self a = Ok b.
Proof.
  intros Hwf Hin. unfold consistent.
  destruct (negb _); [eauto|].
  destruct (lengths_ok_total a (PyDict.keys a) (incl_refl _)) as (b & -> & Hfit).
  simpl. destruct b; [|eauto].
  apply overlaps_ok_total; auto using incl_refl.
Qed.

Lemma backtrack_values_total (recur : Assignment -> Search) (self : CrosswordCreator)
      (a : Assignment) (v : Var) (values : list string) :
  (forall value, In value values ->
                 exists b, consistent self (PyDict.set var_eqb v value a) = Ok b) ->
  (forall value, In value values ->
                 exists log o, recur (PyDict.set var_eqb v value a) = (log, Ok o)) ->
  exists log o, backtrack_values recur self a v values = (log, Ok o).
Proof.
  induction values as [|value rest IH]; intros Hc Hr; simpl; [eauto|].
  destruct IH as (log2 & o2 & IH).
  { intros u Hu. apply Hc. now right. }
  { intros u Hu. apply Hr. now right. }
  destruct (Hc value (or_introl eq_refl)) as [b ->].
  destruct (Hr value (or_introl eq_refl)) as (log1 & o1 & ->).
  rewrite IH. destruct b; [|eauto]. destruct o1; eauto.
Qed.

Lemma forallb_false {A : Type} (f : A -> bool) (l : list A) :
  forallb f l = false -> exists x, In x l /\ f x = false.
Proof.
  induction l as [|x l IH]; simpl; [discriminate|].
  destruct (f x) eqn:E; simpl.
  - intros H. destruct (IH H) as (y & Hy & Hf). eauto.
  - eauto.
Qed.

(** Some variable is unassigned while the assignment is shorter than the
    domain store. *)
Lemma unassigned_exists (self : CrosswordCreator) (a : Assignment) :
  NoDup (PyDict.keys (domains self)) ->
  within self a ->
  List.length a <> List.length (domains self) ->
  exists v, In v (PyDict.keys (domains self)) /\ ~ In v (PyDict.keys a).
Proof.
  intros Hnd Hw Hlen.
  destruct (forallb (fun v => PyDict.mem var_eqb v a) (PyDict.keys (domains self)))
    eqn:E.
  - exfalso. apply Hlen. apply Nat.le_antisymm; [now apply within_length|].
    rewrite forallb_forall in E.
    assert (Hin : incl (PyDict.keys (domains self)) (PyDict.keys a)).
    { intros v Hv. apply (mem_keys _ _ var_eqb var_eqb_eq). auto. }
    apply NoDup_incl_length in Hin; [|assumption].
    unfold PyDict.keys in Hin. now rewrite !length_map in Hin.
  - apply forallb_false in E. destruct E as (v & Hv & Hm).
    exists v. split; [assumption|].
    now apply (mem_false_keys _ _ var_eqb var_eqb_eq).
Qed.

(** Over a well-formed geometry the search returns, within one level of
    recursion per unassigned variable. *)
Lemma backtrack_total (self : CrosswordCreator) :
  well_formed_geometry (crossword self) = true ->
  incl (PyDict.keys (domains self)) (variables (crossword self)) ->
  NoDup (PyDict.keys (domains self)) ->
  forall (fuel : nat) (a : Assignment),
    within self a ->
    List.length (domains self) <= List.length a + fuel ->
    exists log o, backtrack fuel self a = (Call a :: log, Ok o).
Proof.
  intros Hwf Hkeys Hnd.
  induction fuel as [|fuel IH]; intros a Hw Hf; simpl;
    destruct (List.length a =? List.length (domains self)) eqn:Hlen; eauto;
    apply Nat.eqb_neq in Hlen.
  - apply within_length in Hw. lia.
  - destruct (unassigned_exists self a Hnd Hw Hlen) as (v0 & Hv0 & Hn0).
    destruct (select_unassigned_variable_total self a v0 Hv0 Hn0) as [v Hsel].
    rewrite Hsel. apply select_unassigned_variable_ok in Hsel.
    destruct Hsel as [Hv Hn].
    pose proof Hv as Hv'. apply (get_keys _ _ var_eqb var_eqb_eq) in Hv'.
    destruct Hv' as [values Hd]. unfold domain_get. rewrite Hd.
    destruct (backtrack_values_total (backtrack fuel self) self a v values)
      as (log & o & ->).
    + intros value _. apply consistent_total; [assumption|].
      destruct (within_extend self a v value Hw Hv Hn) as [_ Hin].
      intros u Hu. auto.
    + intros value _.
      destruct (IH (PyDict.set var_eqb v value a)) as (log & o & ->); eauto.
      * now apply within_extend.
      * rewrite set_fresh by assumption. rewrite length_app. simpl. lia.
    + eauto.
Qed.

(** [ac3] answers [False] only with an emptied domain in the store. *)
Lemma ac3_loop_false_empty (cw : Crossword) (fuel : nat) :
  forall (queue : list (Var * Var)) (s s' : CrosswordCreator),
    ac3_loop cw fuel queue s = (Ok false, s') ->
    exists x, domain_get s' x = Some [].
Proof.
  induction fuel as [|fuel IH]; intros [|[x y] queue] s s'; simpl; try discriminate.
  intros H. apply mbind_ok in H. destruct H as (b & s1 & Hrev & H).
  destruct b; [|eauto].
  apply mbind_ok in H. destruct H as (xd & s2 & H2 & H).
  apply domain_lookup_inv in H2.
  destruct H2 as [-> [[? _]|(xd' & [= <-] & Gx)]]; [discriminate|].
  destruct xd as [|w xd]; simpl in H; [|eauto].
  injection H as <-. eauto.
Qed.

(** No assignment is returned while some variable has an empty domain. *)
Lemma backtrack_empty_domain (self : CrosswordCreator) (fuel : nat) (x : Var)
      (log : list Event) (r : Assignment) :
  NoDup (PyDict.keys (domains self)) ->
  domain_get self x = Some [] ->
  backtrack fuel self [] <> (log, Ok (Some r)).
Proof.
  intros Hnd Hx H. apply backtrack_result in H; [|apply within_empty].
  destruct H as (Hl & Hw & _ & Hval).
  assert (Hin : In x (PyDict.keys r)).
  { apply (within_full self r Hnd Hw Hl).
    apply (get_keys _ _ var_eqb var_eqb_eq). eauto. }
  apply (get_keys _ _ var_eqb var_eqb_eq) in Hin. destruct Hin as [w Hg].
  apply Hval in Hg. destruct Hg as [Hg|Hg]; [discriminate|].
  unfold dom in Hg. now rewrite Hx in Hg.
Qed.

(** C4, as the program has it.  Over a well-formed geometry, when [ac3]
    returns [False] inside [solve()], [solve()] still enters the
    backtracking search, and that search returns [None]: [solve()] reports
    no solution. *)
Theorem solve_fails_after_failed_ac3 (self s1 s2 : CrosswordCreator) (u : unit) :
  well_formed_geometry (crossword self) = true ->
  PyDict.keys (domains self) = variables (crossword self) ->
  NoDup (variables (crossword self)) ->
  enforce_node_consistency self = (Ok u, s1) ->
  ac3 None s1 = (Ok false, s2) ->
  exists log, solve self = ((Call [] :: log, Ok None), s2).
Proof.
  intros Hwf Hkeys Hnd H1 H2. unfold solve. rewrite H1, H2.
  pose proof (enforce_node_consistency_shrinks _ _ _ H1) as Hs1.
  pose proof (ac3_shrinks None _ _ _ H2) as Hs2.
  pose proof (shrinks_trans _ _ _ Hs1 Hs2) as [Hc Hk _ _].
  unfold ac3 in H2. apply ac3_loop_false_empty in H2. destruct H2 as [x Hx].
  destruct (backtrack_total s2) with (fuel := List.length (domains s2)) (a := @nil (Var * string))
    as (log & o & Hb).
  - now rewrite Hc.
  - rewrite Hk, Hc, Hkeys. apply incl_refl.
  - now rewrite Hk, Hkeys.
  - apply within_empty.
  - simpl. lia.
  - rewrite Hb. exists log. destruct o as [r|]; [|reflexivity].
    exfalso. eapply backtrack_empty_domain; eauto. now rewrite Hk, Hkeys.
Qed.

Lemma solve_fails_after_failed_ac3_witness :
  exists log,
    solve Example3.creator
    = ((Call [] :: log, Ok None),
       snd (ac3 None (snd (enforce_node_consistency Example3.creator)))).
Proof.
  apply (solve_fails_after_failed_ac3
           Example3.creator (snd (enforce_node_consistency Example3.creator)) _ tt).
  - reflexivity.
  - reflexivity.
  - simpl. repeat constructor; simpl; intuition discriminate.
  - reflexivity.
  - reflexivity.
Defined.

(** C4, as stated, fails: here [ac3] returns [False] and [solve()] enters
    the search all the same. *)
Lemma solve_searches_after_failed_ac3 :
  fst (ac3 None (snd (enforce_node_consistency Example3.creator))) = Ok false /\
  search_invoked (fst (fst (solve Example3.creator))) = true.
Proof. split; reflexivity. Qed.

(** ** The order in which values are tried *)

Lemma assignment_eqb_refl (a : Assignment) : assignment_eqb a a = true.
Proof.
  induction a as [|[v w] a IH]; simpl; [reflexivity|].
  now rewrite var_eqb_refl, String.eqb_refl, IH.
Qed.

Lemma assignment_eqb_length (a b : Assignment) :
  assignment_eqb a b = true -> List.length a = List.length b.
Proof.
  revert b. induction a as [|[v w] a IH]; intros [|[v' w'] b]; simpl;
    try discriminate; auto.
  rewrite !andb_true_iff. intros [_ H]. f_equal. now apply IH.
Qed.

(** Events logged deeper in the search say nothing about node [a]. *)
Lemma tries_at_deeper (a : Assignment) (log : list Event) :
  Forall (fun e => List.length a < List.length (event_assignment e)) log ->
  tries_at a log = [].
Proof.
  induction 1 as [|e log He _ IH]; [reflexivity|].
  unfold tries_at in *. simpl. rewrite IH, app_nil_r.
  destruct e as [a'|a' v w]; [reflexivity|]. simpl in He.
  destruct (assignment_eqb a a') eqn:E; [|reflexivity].
  apply assignment_eqb_length in E. lia.
Qed.

Lemma tries_at_app (a : Assignment) (l1 l2 : list Event) :
  tries_at a (l1 ++ l2) = tries_at a l1 ++ tries_at a l2.
Proof. unfold tries_at. apply flat_map_app. Qed.

Lemma tries_at_try (a : Assignment) (v : Var) (w : string) (log : list Event) :
  tries_at a (Try a v w :: log) = w :: tries_at a log.
Proof. unfold tries_at. simpl. now rewrite assignment_eqb_refl. Qed.

Lemma set_length (a : Assignment) (v : Var) (w : string) :
  List.length a <= List.length (PyDict.set var_eqb v w a).
Proof.
  induction a as [|[k u] a IH]; simpl; [lia|].
  destruct (var_eqb v k); simpl; lia.
Qed.

(** Every logged event is about the assignment of the call or a longer one. *)
Lemma backtrack_log_depth (self : CrosswordCreator) (fuel : nat) :
  forall (a : Assignment) (log : list Event) (r : result (option Assignment)),
    backtrack fuel self a = (log, r) ->
    Forall (fun e => List.length a <= List.length (event_assignment e)) log.
Proof.
  induction fuel as [|fuel IH]; intros a log r; simpl;
    destruct (List.length a =? List.length (domains self));
    try (intros [= <- _]; repeat constructor).
  destruct (select_unassigned_variable self a) as [v|e|];
    try (intros [= <- _]; repeat constructor).
  destruct (domain_get self v) as [values|];
    try (intros [= <- _]; repeat constructor).
  destruct (backtrack_values _ _ _ _ _) as [log1 r1] eqn:Hb.
  intros [= <- _]. constructor; [simpl; lia|].
  clear r. revert log1 r1 Hb.
  induction values as [|value rest IHv]; intros log1 r1; simpl.
  - intros [= <- _]. constructor.
  - destruct (consistent self (PyDict.set var_eqb v value a)) as [[|]|e|].
    + destruct (backtrack fuel self (PyDict.set var_eqb v value a))
        as [log2 r2] eqn:Hr.
      apply IH in Hr.
      assert (Hlog2 : Forall (fun e => List.length a <= List.length (event_assignment e)) log2).
      { eapply Forall_impl; [|exact Hr]. intros e He. simpl in He.
        pose proof (set_length a v value). lia. }
      destruct r2 as [[r2|]|e|];
        try (intros [= <- _]; constructor; [simpl; lia|assumption]).
      destruct (backtrack_values _ _ _ _ rest) as [log3 r3].
      intros [= <- _]. constructor; [simpl; lia|].
      apply Forall_app. split; [assumption|]. now apply (IHv log3 r3).
    + destruct (backtrack_values _ _ _ _ rest) as [log3 r3].
      intros [= <- _]. constructor; [simpl; lia|]. now apply (IHv log3 r3).
    + intros [= <- _]. repeat constructor.
    + intros [= <- _]. repeat constructor.
Qed.

(** The loop takes the values in the order of the list it is given, up to
    the first success, and all of them when it ends with [None]. *)
Lemma backtrack_values_tries (self : CrosswordCreator) (fuel : nat) (a : Assignment)
      (v : Var) (values : list string) :
  ~ In v (PyDict.keys a) ->
  forall (log : list Event) (r : result (option Assignment)),
    backtrack_values (backtrack fuel self) self a v values = (log, r) ->
    is_prefix (tries_at a log) values /\
    (r = Ok None -> tries_at a log = values).
Proof.
  intros Hn.
  assert (Hdeep : forall value log r,
             backtrack fuel self (PyDict.set var_eqb v value a) = (log, r) ->
             tries_at a log = []).
  { intros value log r H. apply tries_at_deeper.
    apply backtrack_log_depth in H. eapply Forall_impl; [|exact H].
    intros e He. simpl in He. rewrite set_fresh in He by assumption.
    rewrite length_app in He. simpl in He. lia. }
  induction values as [|value rest IH]; intros log r; simpl.
  - intros [= <- <-]. split; [exists []; reflexivity|reflexivity].
  - destruct (consistent self (PyDict.set var_eqb v value a)) as [[|]|e|].
    + destruct (backtrack fuel self (PyDict.set var_eqb v value a))
        as [log2 r2] eqn:Hr.
      apply Hdeep in Hr.
      destruct r2 as [[r2|]|e|];
        try (intros [= <- <-]; rewrite tries_at_try, Hr;
             split; [exists rest; reflexivity|discriminate]).
      destruct (backtrack_values _ _ _ _ rest) as [log3 r3].
      destruct (IH log3 r3 eq_refl) as [[tl Htl] Hall].
      intros [= <- <-]. rewrite tries_at_try, tries_at_app, Hr. simpl. split.
      * exists tl. simpl. now f_equal.
      * intros H. f_equal. auto.
    + destruct (backtrack_values _ _ _ _ rest) as [log3 r3].
      destruct (IH log3 r3 eq_refl) as [[tl Htl] Hall].
      intros [= <- <-]. rewrite tries_at_try. split.
      * exists tl. simpl. now f_equal.
      * intros H. f_equal. auto.
    + intros [= <- <-]. rewrite tries_at_try. simpl.
      split; [exists rest; reflexivity|discriminate].
    + intros [= <- <-]. rewrite tries_at_try. simpl.
      split; [exists rest; reflexivity|discriminate].
Qed.

(** C3, as the program has it.  At the node of [backtrack(a)], the values
    of the selected variable are tried in the order in which the domain of
    that variable yields them: the values tried form a beginning of
    [self.domains[variable]], and all of it when the node fails after
    trying (the assignment being partial). *)
Theorem backtrack_tries_in_domain_order (self : CrosswordCreator) (fuel : nat)
        (a : Assignment) (v : Var) (values : list string) :
  select_unassigned_variable self a = Ok v ->
  domain_get self v = Some values ->
  is_prefix (tries_at a (fst (backtrack (S fuel) self a))) values /\
  (snd (backtrack (S fuel) self a) = Ok None -> tries_at a (fst (backtrack (S fuel) self a)) = values).
Proof.
  intros Hsel Hd. simpl.
  destruct (List.length a =? List.length (domains self)).
  { simpl. split; [exists values; reflexivity|discriminate]. }
  rewrite Hsel, Hd.
  apply select_unassigned_variable_ok in Hsel. destruct Hsel as [_ Hn].
  destruct (backtrack_values _ _ _ _ _) as [log r] eqn:Hb.
  apply backtrack_values_tries in Hb; [|assumption].
  simpl. exact Hb.
Qed.

Lemma backtrack_tries_in_domain_order_witness :
  is_prefix (tries_at [] (fst (backtrack 2 Example2.pruned []))) ["CAT"; "DOG"] /\
  (snd (backtrack 2 Example2.pruned []) = Ok None ->
   tries_at [] (fst (backtrack 2 Example2.pruned [])) = ["CAT"; "DOG"]).
Proof.
  apply (backtrack_tries_in_domain_order Example2.pruned 1 [] Example2.A ["CAT"; "DOG"]).
  - reflexivity.
  - reflexivity.
Defined.

(** C3, as stated, fails: the least-constraining-value order of the
    selected variable starts with ["DOG"], and the search tries ["CAT"],
    the first word of the domain, first. *)
Lemma backtrack_ignores_value_order :
  select_unassigned_variable Example2.pruned [] = Ok Example2.A /\
  order_domain_values Example2.pruned Example2.A [] = Ok ["DOG"; "CAT"] /\
  tries_at [] (fst (backtrack 2 Example2.pruned [])) = ["CAT"] /\
  ~ is_prefix (tries_at [] (fst (backtrack 2 Example2.pruned []))) ["DOG"; "CAT"].
Proof.
  repeat split; try reflexivity.
  intros [rest H]. discriminate H.
Qed.

(** ** [order_domain_values] *)

Lemma char_at_bound (w : string) (k : nat) : char_at w k <> Raise UnboundLocalError.
Proof. unfold char_at. destruct (String.get k w); discriminate. Qed.

Lemma lookup_bound {K V : Type} (eqb : K -> K -> bool) (k : K) (d : PyDict.t K V) :
  PyDict.lookup eqb k d <> Raise UnboundLocalError.
Proof. unfold PyDict.lookup. destruct (PyDict.get eqb k d); discriminate. Qed.

Lemma rbind_raise {A B : Type} (r : result A) (k : A -> result B) (e : exn) :
  rbind r k = Raise e -> r = Raise e \/ exists a, r = Ok a /\ k a = Raise e.
Proof.
  destruct r as [a|e'|]; simpl; intros H; try discriminate.
  - right. eauto.
  - left. injection H as ->. reflexivity.
Qed.

Lemma count_words_bound (word : string) (i j : nat) (ws : list string) (n : nat) :
  count_words word i j ws n <> Raise UnboundLocalError.
Proof.
  revert n. induction ws as [|w ws IH]; intros n; simpl; [discriminate|].
  intros H. apply rbind_raise in H. destruct H as [H|(c1 & _ & H)].
  { now apply char_at_bound in H. }
  apply rbind_raise in H. destruct H as [H|(c2 & _ & H)].
  { now apply char_at_bound in H. }
  now apply IH in H.
Qed.

Lemma count_neighbors_bound (self : CrosswordCreator) (a : Assignment) (var : Var)
      (word : string) (ns : list Var) (n : nat) :
  count_neighbors self a var word ns n <> Raise UnboundLocalError.
Proof.
  revert n. induction ns as [|m ns IH]; intros n; simpl; [discriminate|].
  destruct (negb _); [|apply IH].
  intros H. apply rbind_raise in H. destruct H as [H|(o & _ & H)].
  { now apply lookup_bound in H. }
  destruct o as [[i j]|]; [|discriminate].
  apply rbind_raise in H. destruct H as [H|(nd & _ & H)].
  { now apply lookup_bound in H. }
  apply rbind_raise in H. destruct H as [H|(n' & _ & H)].
  { now apply count_words_bound in H. }
  now apply IH in H.
Qed.

Lemma order_loop_bound (self : CrosswordCreator) (a : Assignment) (var : Var)
      (ns : list Var) (ws : list string) :
  forall (wd : PyDict.t string nat) (sl : option (list string)),
    order_loop self a var ns ws wd sl <> Raise UnboundLocalError.
Proof.
  induction ws as [|w ws IH]; intros wd sl; simpl; [discriminate|].
  intros H. apply rbind_raise in H. destruct H as [H|(n & _ & H)].
  - now apply count_neighbors_bound in H.
  - now apply IH in H.
Qed.

Lemma order_loop_keys (self : CrosswordCreator) (a : Assignment) (var : Var)
      (ns : list Var) (ws : list string) :
  forall (wd : PyDict.t string nat) (sl : option (list string)) (res : option (list string)),
    order_loop self a var ns ws wd sl = Ok res ->
    NoDup ws ->
    (forall w, In w ws -> ~ In w (PyDict.keys wd)) ->
    match ws with
    | [] => res = sl
    | _ :: _ => exists wd', res = Some (sorted_words wd') /\
                            PyDict.keys wd' = PyDict.keys wd ++ ws
    end.
Proof.
  induction ws as [|w ws IH]; intros wd sl res; simpl.
  - intros [= <-]. reflexivity.
  - intros H Hnd Hfresh. apply rbind_ok in H. destruct H as (n & _ & H).
    inversion Hnd as [|? ? Hw Hnd']; subst.
    assert (Hset : PyDict.set String.eqb w n wd = wd ++ [(w, n)]).
    { apply keys_set_absent; [apply String.eqb_eq|]. apply Hfresh. now left. }
    rewrite Hset in H. apply IH in H; auto.
    + destruct ws as [|w' ws'].
      * subst res. exists (wd ++ [(w, n)]). split; [reflexivity|].
        unfold PyDict.keys. now rewrite map_app.
      * destruct H as (wd' & -> & Hk). exists wd'. split; [reflexivity|].
        rewrite Hk. unfold PyDict.keys. rewrite map_app, <- app_assoc. reflexivity.
    + intros u Hu Hin. unfold PyDict.keys in Hin. rewrite map_app in Hin.
      apply in_app_or in Hin. destruct Hin as [Hin|[<-|[]]].
      * apply (Hfresh u); [now right|assumption].
      * contradiction.
Qed.

Lemma sorted_words_perm (wd : PyDict.t string nat) :
  Permutation (sorted_words wd) (PyDict.keys wd).
Proof. unfold sorted_words, PyDict.keys. apply Permutation_map, sorted_perm. Qed.

(** C10.  For a variable whose domain is the set [ws]:
    [order_domain_values] fails with [UnboundLocalError] exactly when [ws]
    is empty, so it never returns an empty list; and whenever it returns a
    list, [ws] is non-empty and the list is a rearrangement of [ws]. *)
Theorem order_domain_values_needs_words (self : CrosswordCreator) (var : Var)
        (a : Assignment) (ws : word_set) :
  domain_get self var = Some ws ->
  NoDup ws ->
  (order_domain_values self var a = Raise UnboundLocalError <-> ws = []) /\
  (forall l, order_domain_values self var a = Ok l -> ws <> [] /\ Permutation l ws).
Proof.
  intros Hd Hnd. unfold order_domain_values, PyDict.lookup.
  unfold domain_get in Hd. rewrite Hd. simpl.
  destruct (order_loop self a var (neighbors (crossword self) var) ws [] None)
    as [res|e|] eqn:Hloop; simpl.
  - apply order_loop_keys in Hloop; auto.
    destruct ws as [|w ws].
    + subst res. split; [tauto|discriminate].
    + destruct Hloop as (wd' & -> & Hk). simpl in Hk. split.
      * split; discriminate.
      * intros l [= <-]. split; [discriminate|].
        rewrite <- Hk. apply sorted_words_perm.
  - split; [|discriminate]. split.
    + intros [= ->]. now apply order_loop_bound in Hloop.
    + intros ->. discriminate.
  - split; [|discriminate]. split; [discriminate|].
    intros ->. discriminate.
Qed.

Lemma order_domain_values_needs_words_witness :
  ((order_domain_values Example2.pruned Example2.A [] = Raise UnboundLocalError
    <-> ["CAT"; "DOG"] = []) /\
   (forall l, order_domain_values Example2.pruned Example2.A [] = Ok l ->
              ["CAT"; "DOG"] <> [] /\ Permutation l ["CAT"; "DOG"])) /\
  ((order_domain_values (snd (solve Example3.creator)) Example3.A []
    = Raise UnboundLocalError <-> @nil string = []) /\
   (forall l, order_domain_values (snd (solve Example3.creator)) Example3.A [] = Ok l ->
              @nil string <> [] /\ Permutation l [])).
Proof.
  split.
  - apply (order_domain_values_needs_words Example2.pruned Example2.A [] ["CAT"; "DOG"]).
    + reflexivity.
    + repeat constructor; simpl; intuition discriminate.
  - apply (order_domain_values_needs_words
             (snd (solve Example3.creator)) Example3.A [] []).
    + reflexivity.
    + constructor.
Defined.

(** ** Runs of the solver *)

Lemma revise_frame_witness :
  let s := snd (enforce_node_consistency Example3.creator) in
  (crossword (snd (revise Example3.A Example3.B s)) = crossword s /\
   domain_get (snd (revise Example3.A Example3.B s)) Example3.B = domain_get s Example3.B /\
   (overlap_of s Example3.A Example3.B = Some None ->
    revise Example3.A Example3.B s = (Ok false, s))) /\
  revise Example1.B Example1.C Example1.creator = (Ok false, Example1.creator).
Proof.
  split.
  - apply (revise_frame Example3.A Example3.B
             (snd (enforce_node_consistency Example3.creator))).
    intros H. discriminate H.
  - apply (revise_frame Example1.B Example1.C Example1.creator).
    + intros H. discriminate H.
    + reflexivity.
Defined.

(** The first test of [consistent] compares the number of assigned
    variables with the number of distinct assigned variables, so it never
    fails on a dictionary. *)
Lemma py_set_nodup (l : list Var) : NoDup l -> py_set l = l.
Proof.
  induction 1 as [|x l Hx Hnd IH]; simpl; [reflexivity|].
  destruct (existsb (var_eqb x) l) eqn:E.
  - apply existsb_exists in E. destruct E as (y & Hy & He).
    apply var_eqb_eq in He. subst. contradiction.
  - now rewrite IH.
Qed.

Lemma distinctness_test_vacuous (a : Assignment) :
  NoDup (PyDict.keys a) ->
  (List.length (PyDict.keys a) =? List.length (py_set (PyDict.keys a))) = true.
Proof. intros H. rewrite py_set_nodup by assumption. apply Nat.eqb_refl. Qed.

(** C1.  The program breaks the claim: [consistent] accepts an assignment
    that gives the word ["AXE"] to two different variables, and [solve()]
    returns such an assignment for the puzzle of [Example1]. *)
Theorem consistent_accepts_repeated_word :
  consistent Example1.creator [(Example1.B, "AXE"); (Example1.C, "AXE")] = Ok true /\
  snd (fst (solve Example1.creator))
  = Ok (Some [(Example1.A, "ABBA"); (Example1.B, "AXE"); (Example1.C, "AXE")]).
Proof. split; reflexivity. Qed.

(** C2.  The program breaks the claim: with the three variables of
    [Example1] unassigned, [select_unassigned_variable] returns [A], whose
    domain has three words, although [B] and [C] have one word each; [A]
    is the variable with the most neighbours. *)
Theorem select_prefers_degree_over_domain_size :
  let s := snd (solve Example1.creator) in
  select_unassigned_variable s [] = Ok Example1.A /\
  List.length (dom s Example1.A) = 3 /\
  List.length (dom s Example1.B) = 1 /\
  List.length (dom s Example1.C) = 1 /\
  degree s Example1.A = 2 /\ degree s Example1.B = 1 /\ degree s Example1.C = 1.
Proof. repeat split; reflexivity. Qed.

(** ** The fuel of the model is never the cause of an outcome *)

Lemma rbind_fuel {A B : Type} (r : result A) (k : A -> result B) :
  r <> OutOfFuel -> (forall a, k a <> OutOfFuel) -> rbind r k <> OutOfFuel.
Proof. destruct r; simpl; auto. discriminate. Qed.

Lemma lookup_fuel {K V : Type} (eqb : K -> K -> bool) (k : K) (d : PyDict.t K V) :
  PyDict.lookup eqb k d <> OutOfFuel.
Proof. unfold PyDict.lookup. destruct (PyDict.get eqb k d); discriminate. Qed.

Lemma lengths_ok_fuel (a : Assignment) (vars : list Var) : lengths_ok a vars <> OutOfFuel.
Proof.
  induction vars as [|v vars IH]; simpl; [discriminate|].
  apply rbind_fuel; [apply lookup_fuel|]. intros w.
  destruct (negb _); [discriminate|exact IH].
Qed.

Lemma neighbors_ok_fuel (cw : Crossword) (a : Assignment) (var : Var) (ns : list Var) :
  neighbors_ok cw a var ns <> OutOfFuel.
Proof.
  induction ns as [|n ns IH]; simpl; [discriminate|].
  destruct (PyDict.mem var_eqb n a); [|exact IH].
  apply rbind_fuel; [apply lookup_fuel|]. intros [[i j]|]; [|discriminate].
  apply rbind_fuel; [apply lookup_fuel|]. intros wv.
  apply rbind_fuel; [apply char_at_fuel|]. intros c1.
  apply rbind_fuel; [apply lookup_fuel|]. intros wn.
  apply rbind_fuel; [apply char_at_fuel|]. intros c2.
  destruct (negb _); [discriminate|exact IH].
Qed.

Lemma overlaps_ok_fuel (cw : Crossword) (a : Assignment) (vars : list Var) :
  overlaps_ok cw a vars <> OutOfFuel.
Proof.
  induction vars as [|v vars IH]; simpl; [discriminate|].
  apply rbind_fuel; [apply neighbors_ok_fuel|]. intros [|]; [exact IH|discriminate].
Qed.

Lemma consistent_fuel (self : CrosswordCreator) (a : Assignment) :
  consistent self a <> OutOfFuel.
Proof.
  unfold consistent. destruct (negb _); [discriminate|].
  apply rbind_fuel; [apply lengths_ok_fuel|].
  intros [|]; [apply overlaps_ok_fuel|discriminate].
Qed.

Lemma select_unassigned_variable_fuel (self : CrosswordCreator) (a : Assignment) :
  select_unassigned_variable self a <> OutOfFuel.
Proof.
  destruct (select_unassigned_variable_head self a) as (l & _ & ->).
  destruct l; discriminate.
Qed.

Lemma backtrack_values_fuel (recur : Assignment -> Search) (self : CrosswordCreator)
      (a : Assignment) (v : Var) (values : list string) :
  (forall value, In value values ->
                 snd (recur (PyDict.set var_eqb v value a)) <> OutOfFuel) ->
  snd (backtrack_values recur self a v values) <> OutOfFuel.
Proof.
  induction values as [|value rest IH]; intros Hr; simpl; [discriminate|].
  assert (IH' : snd (backtrack_values recur self a v rest) <> OutOfFuel)
    by (apply IH; intros u Hu; apply Hr; now right).
  pose proof (Hr value (or_introl eq_refl)) as Hv.
  pose proof (consistent_fuel self (PyDict.set var_eqb v value a)) as Hc.
  destruct (consistent self (PyDict.set var_eqb v value a)) as [[|]|e|];
    try discriminate; try contradiction.
  - destruct (recur (PyDict.set var_eqb v value a)) as [log1 [[r1|]|e|]];
      simpl in *; try discriminate; try contradiction.
    destruct (backtrack_values recur self a v rest). exact IH'.
  - destruct (backtrack_values recur self a v rest). exact IH'.
Qed.

(** One level of recursion per unassigned variable is enough. *)
Lemma backtrack_enough_fuel (self : CrosswordCreator) :
  NoDup (PyDict.keys (domains self)) ->
  forall (fuel : nat) (a : Assignment),
    within self a ->
    List.length (domains self) <= List.length a + fuel ->
    snd (backtrack fuel self a) <> OutOfFuel.
Proof.
  intros Hnd. induction fuel as [|fuel IH]; intros a Hw Hf; simpl;
    destruct (List.length a =? List.length (domains self)) eqn:Hlen;
    try discriminate; apply Nat.eqb_neq in Hlen.
  - apply within_length in Hw. lia.
  - pose proof (select_unassigned_variable_fuel self a) as Hsel.
    destruct (select_unassigned_variable self a) as [v|e|] eqn:E;
      try discriminate; try contradiction.
    apply select_unassigned_variable_ok in E. destruct E as [Hv Hn].
    destruct (domain_get self v) as [values|]; [|discriminate].
    pose proof (backtrack_values_fuel (backtrack fuel self) self a v values) as Hb.
    destruct (backtrack_values _ _ _ _ _) as [log r]. simpl in *.
    apply Hb. intros value _. apply IH.
    + now apply within_extend.
    + rewrite set_fresh by assumption. rewrite length_app. simpl. lia.
Qed.

Lemma enforce_words_fuel (var : Var) (ws : list string) (s s' : CrosswordCreator) :
  enforce_words var ws s <> (OutOfFuel, s').
Proof.
  revert s. induction ws as [|w ws IH]; intros s; simpl; [discriminate|].
  destruct (negb _); [|apply IH].
  intros H. apply mbind_out_of_fuel in H. destruct H as [H|(u & s1 & _ & H)].
  - now apply domain_remove_fuel in H.
  - now apply IH in H.
Qed.

Lemma enforce_vars_fuel (d : Domains) (s s' : CrosswordCreator) :
  enforce_vars d s <> (OutOfFuel, s').
Proof.
  revert s. induction d as [|[var ws] d IH]; intros s; simpl; [discriminate|].
  intros H. apply mbind_out_of_fuel in H. destruct H as [H|(u & s1 & _ & H)].
  - now apply enforce_words_fuel in H.
  - now apply IH in H.
Qed.

(** [solve()] gives its loops all the iterations they need. *)
Lemma solve_enough_fuel (self : CrosswordCreator) :
  NoDup (PyDict.keys (domains self)) ->
  snd (fst (solve self)) <> OutOfFuel.
Proof.
  intros Hnd. unfold solve.
  destruct (enforce_node_consistency self) as [[u|e|] s1] eqn:E1; simpl;
    try discriminate.
  2: { now apply enforce_vars_fuel in E1. }
  pose proof (ac3_enough_fuel None s1) as Hac.
  destruct (ac3 None s1) as [[b|e|] s2] eqn:E2; simpl in *;
    try discriminate; try contradiction.
  apply backtrack_enough_fuel.
  - apply enforce_node_consistency_shrinks in E1. apply ac3_shrinks in E2.
    now rewrite (shrinks_keys _ _ E2), (shrinks_keys _ _ E1).
  - apply within_empty.
  - simpl. lia.
Qed.

(** * Further properties of the solver *)

(** ** Node consistency *)

Lemma filter_all {A : Type} (f : A -> bool) (l : list A) :
  (forall x, In x l -> f x = true) -> filter f l = l.
Proof.
  induction l as [|x l IH]; simpl; intros H; [reflexivity|].
  rewrite (H x (or_introl eq_refl)). f_equal. apply IH. intros y Hy. apply H. now right.
Qed.

Lemma filter_filter {A : Type} (f g : A -> bool) (l : list A) :
  filter f (filter g l) = filter (fun x => g x && f x) l.
Proof.
  induction l as [|x l IH]; simpl; [reflexivity|].
  destruct (g x); simpl; [destruct (f x)|]; now rewrite IH.
Qed.

Lemma get_of_In {V : Type} (v : Var) (x : V) (d : PyDict.t Var V) :
  NoDup (PyDict.keys d) -> In (v, x) d -> PyDict.get var_eqb v d = Some x.
Proof.
  induction d as [|[k y] d IH]; simpl; [contradiction|].
  intros Hnd [H|H]; inversion Hnd as [|? ? Hk Hnd']; subst.
  - injection H as -> ->. now rewrite var_eqb_refl.
  - destruct (var_eqb v k) eqn:E; [|auto].
    apply var_eqb_eq in E. subst. exfalso. apply Hk.
    unfold PyDict.keys. apply in_map_iff. exists (k, x). auto.
Qed.

(** The inner loop takes out of the domain of [var] the words of [ws] that
    do not fit, and nothing else. *)
Lemma enforce_words_spec (var : Var) (ws : list string) :
  forall (s : CrosswordCreator) (L : word_set),
    domain_get s var = Some L -> NoDup ws -> incl ws L ->
    exists s',
      enforce_words var ws s = (Ok tt, s') /\
      domain_get s' var
      = Some (filter (fun w => fits_slot var w || negb (word_mem w ws)) L) /\
      same_but var s s' /\
      PyDict.keys (domains s') = PyDict.keys (domains s).
Proof.
  induction ws as [|w0 ws IH]; intros s L HL Hnd Hin; simpl.
  - exists s. split; [reflexivity|]. split; [|split; [apply same_but_refl|reflexivity]].
    rewrite HL. f_equal. symmetry. apply filter_all. intros x _.
    now rewrite orb_true_r.
  - inversion Hnd as [|? ? Hw0 Hnd']; subst.
    assert (Hin' : incl ws L) by (intros u Hu; apply Hin; now right).
    change (String.length w0 =? var_length var) with (fits_slot var w0).
    destruct (fits_slot var w0) eqn:Hfit; simpl.
    + destruct (IH s L HL Hnd' Hin') as (s' & Hrun & Hd & Hsb & Hk).
      exists s'. repeat split; auto; try apply Hsb.
      rewrite Hd. f_equal. apply filter_ext_in. intros u Hu.
      destruct (String.eqb_spec u w0) as [->|Hne]; [now rewrite Hfit|].
      reflexivity.
    + unfold mbind.
      destruct (domain_remove var w0 s) as [[[]|e|] s1] eqn:Hrem.
      * apply domain_remove_ok in Hrem.
        destruct Hrem as (L0 & HL0 & _ & HL1 & Hsb1 & Hk1 & _).
        rewrite HL in HL0. injection HL0 as <-.
        destruct (IH s1 (word_discard w0 L) HL1 Hnd') as (s' & Hrun & Hd & Hsb & Hk).
        { intros u Hu. apply word_discard_In. split; [now apply Hin'|].
          intros ->. contradiction. }
        exists s'. split; [exact Hrun|]. split; [|split].
        -- rewrite Hd. f_equal. unfold word_discard. rewrite filter_filter.
           apply filter_ext_in. intros u Hu.
           destruct (String.eqb_spec w0 u) as [<-|Hne]; simpl.
           ++ rewrite Hfit, String.eqb_refl. reflexivity.
           ++ destruct (String.eqb_spec u w0) as [->|_]; [congruence|reflexivity].
        -- eapply same_but_trans; eauto.
        -- congruence.
      * exfalso. unfold domain_remove in Hrem. rewrite HL in Hrem.
        assert (Hm : word_mem w0 L = true)
          by (apply word_mem_In, Hin; now left).
        rewrite Hm in Hrem. discriminate.
      * now apply domain_remove_fuel in Hrem.
Qed.

Lemma filter_fits_domain (var : Var) (L : word_set) :
  filter (fun w => fits_slot var w || negb (word_mem w L)) L = filter (fits_slot var) L.
Proof.
  apply filter_ext_in. intros u Hu.
  apply word_mem_In in Hu. rewrite Hu. apply orb_false_r.
Qed.

(** The outer loop, over the entries still to visit. *)
Lemma enforce_vars_spec (rest : Domains) :
  forall (s : CrosswordCreator),
    NoDup (PyDict.keys rest) ->
    (forall v ws, In (v, ws) rest -> domain_get s v = Some ws /\ NoDup ws) ->
    exists s',
      enforce_vars rest s = (Ok tt, s') /\
      crossword s' = crossword s /\
      PyDict.keys (domains s') = PyDict.keys (domains s) /\
      (forall v ws, In (v, ws) rest ->
                    domain_get s' v = Some (filter (fits_slot v) ws)) /\
      (forall v, ~ In v (PyDict.keys rest) -> domain_get s' v = domain_get s v).
Proof.
  induction rest as [|[var ws] rest IH]; intros s Hnd Hrest; simpl.
  - exists s. repeat split; auto. intros v ws [].
  - inversion Hnd as [|? ? Hvar Hnd']; subst.
    destruct (Hrest var ws (or_introl eq_refl)) as [Hget Hws].
    destruct (enforce_words_spec var ws s ws Hget Hws (incl_refl _))
      as (s1 & Hrun1 & Hd1 & [Hc1 Hsb1] & Hk1).
    rewrite filter_fits_domain in Hd1.
    assert (Hne : forall v, In v (PyDict.keys rest) -> v <> var)
      by (intros v Hv ->; contradiction).
    destruct (IH s1 Hnd') as (s' & Hrun & Hc & Hk & Hin & Hout).
    { intros v ws' Hv.
      assert (Hvk : In v (PyDict.keys rest))
        by (unfold PyDict.keys; apply in_map_iff; exists (v, ws'); auto).
      rewrite Hsb1 by auto. apply Hrest. now right. }
    exists s'. unfold mbind. rewrite Hrun1. split; [exact Hrun|].
    split; [congruence|]. split; [congruence|]. split.
    + intros v ws' [H|H].
      * injection H as <- <-. rewrite Hout by assumption. exact Hd1.
      * now apply Hin.
    + intros v Hv. rewrite Hout by tauto. apply Hsb1. intros ->. apply Hv. now left.
Qed.

Lemma store_ok_get (self : CrosswordCreator) (v : Var) (ws : word_set) :
  store_ok self -> domain_get self v = Some ws -> NoDup ws.
Proof.
  intros [_ H] Hg. apply (H v). now apply (get_In _ _ var_eqb var_eqb_eq).
Qed.

Lemma enforce_node_consistency_filter (self : CrosswordCreator) (v : Var) :
  store_ok self ->
  fst (enforce_node_consistency self) = Ok tt /\
  dom (snd (enforce_node_consistency self)) v = filter (fits_slot v) (dom self v) /\
  crossword (snd (enforce_node_consistency self)) = crossword self /\
  PyDict.keys (domains (snd (enforce_node_consistency self))) = PyDict.keys (domains self).
Proof.
  intros [Hnd Hsets]. unfold enforce_node_consistency.
  destruct (enforce_vars_spec (domains self) self Hnd)
    as (s' & -> & Hc & Hk & Hin & Hout).
  { intros u ws Hu. split; [now apply get_of_In|eauto]. }
  simpl. repeat split; auto.
  unfold dom. destruct (domain_get self v) as [ws|] eqn:G.
  - rewrite (Hin v ws); [reflexivity|].
    now apply (get_In _ _ var_eqb var_eqb_eq).
  - rewrite Hout, G; [reflexivity|].
    intros Hv. apply (get_keys _ _ var_eqb var_eqb_eq) in Hv.
    destruct Hv as [ws Hv]. unfold domain_get in G. congruence.
Qed.

(** X1.  On a store that is a dictionary of sets, [enforce_node_consistency]
    raises nothing and leaves in the domain of every variable exactly the
    words of the variable's length, in their order; the geometry and the
    set of variables with a domain are unchanged. *)
Theorem enforce_node_consistency_spec (self : CrosswordCreator) (v : Var) :
  store_ok self ->
  fst (enforce_node_consistency self) = Ok tt /\
  dom (snd (enforce_node_consistency self)) v = filter (fits_slot v) (dom self v) /\
  crossword (snd (enforce_node_consistency self)) = crossword self /\
  PyDict.keys (domains (snd (enforce_node_consistency self))) = PyDict.keys (domains self).
Proof. apply enforce_node_consistency_filter. Qed.

Lemma enforce_node_consistency_spec_witness :
  fst (enforce_node_consistency Example1.creator) = Ok tt /\
  dom (snd (enforce_node_consistency Example1.creator)) Example1.B
  = filter (fits_slot Example1.B) (dom Example1.creator Example1.B) /\
  crossword (snd (enforce_node_consistency Example1.creator)) = crossword Example1.creator /\
  PyDict.keys (domains (snd (enforce_node_consistency Example1.creator)))
  = PyDict.keys (domains Example1.creator).
Proof.
  apply (enforce_node_consistency_spec Example1.creator Example1.B).
  split.
  - simpl. repeat constructor; simpl; intuition discriminate.
  - intros v ws H. simpl in H.
    destruct H as [H|[H|[H|[]]]]; injection H as _ <-;
      repeat constructor; simpl; intuition discriminate.
Defined.

Lemma enforce_words_noop (var : Var) (ws : list string) (s : CrosswordCreator) :
  (forall w, In w ws -> fits_slot var w = true) ->
  enforce_words var ws s = (Ok tt, s).
Proof.
  induction ws as [|w ws IH]; intros H; simpl; [reflexivity|].
  change (String.length w =? var_length var) with (fits_slot var w).
  rewrite (H w (or_introl eq_refl)). simpl. apply IH. intros u Hu. apply H. now right.
Qed.

Lemma enforce_vars_noop (rest : Domains) (s : CrosswordCreator) :
  (forall v ws w, In (v, ws) rest -> In w ws -> fits_slot v w = true) ->
  enforce_vars rest s = (Ok tt, s).
Proof.
  induction rest as [|[var ws] rest IH]; intros H; simpl; [reflexivity|].
  unfold mbind. rewrite enforce_words_noop.
  - apply IH. intros v ws' w Hv Hw. apply (H v ws'); auto. now right.
  - intros w Hw. apply (H var ws); auto. now left.
Qed.

(** On a node-consistent store [enforce_node_consistency] changes nothing. *)
Lemma enforce_node_consistency_noop (self : CrosswordCreator) :
  NoDup (PyDict.keys (domains self)) ->
  node_consistent self ->
  enforce_node_consistency self = (Ok tt, self).
Proof.
  intros Hnd Hnc. apply enforce_vars_noop. intros v ws w Hv Hw.
  apply Hnc. unfold dom, domain_get. now rewrite (get_of_In v ws _ Hnd Hv).
Qed.

Lemma enforce_node_consistency_post (self : CrosswordCreator) :
  store_ok self -> node_consistent (snd (enforce_node_consistency self)).
Proof.
  intros Hok v w Hw.
  destruct (enforce_node_consistency_filter self v Hok) as (_ & Hd & _).
  rewrite Hd in Hw. apply filter_In in Hw. tauto.
Qed.

(** X2.  Node consistency is idempotent: on a store that is a dictionary of
    sets, a second run of [enforce_node_consistency] returns normally and
    leaves the store exactly as the first run left it. *)
Theorem enforce_node_consistency_idempotent (self : CrosswordCreator) :
  store_ok self ->
  enforce_node_consistency (snd (enforce_node_consistency self))
  = (Ok tt, snd (enforce_node_consistency self)).
Proof.
  intros Hok. apply enforce_node_consistency_noop.
  - destruct (enforce_node_consistency_filter self (mkVar 0 0 ACROSS 0) Hok)
      as (_ & _ & _ & ->).
    apply Hok.
  - now apply enforce_node_consistency_post.
Qed.

Lemma store_ok_init (cw : Crossword) :
  NoDup (variables cw) -> NoDup (words cw) -> store_ok (init cw).
Proof.
  intros Hv Hw. split; simpl.
  - unfold PyDict.keys. rewrite map_map. simpl. now rewrite map_id.
  - intros v ws H. apply in_map_iff in H. destruct H as (u & [= _ <-] & _). exact Hw.
Qed.

Lemma Example1_store_ok : store_ok Example1.creator.
Proof.
  apply store_ok_init; simpl; repeat constructor; simpl; intuition discriminate.
Qed.

Lemma enforce_node_consistency_idempotent_witness :
  enforce_node_consistency (snd (enforce_node_consistency Example1.creator))
  = (Ok tt, snd (enforce_node_consistency Example1.creator)).
Proof.
  apply (enforce_node_consistency_idempotent Example1.creator).
  apply store_ok_init; simpl; repeat constructor; simpl; intuition discriminate.
Defined.

(** ** Revision and propagation *)

(** X3.  The value returned by [revise] tells whether the store changed:
    [False] means the store is exactly as before, [True] means that it holds
    strictly fewer candidate words. *)
Theorem revise_reports_change (x y : Var) (self s' : CrosswordCreator) (b : bool) :
  revise x y self = (Ok b, s') ->
  (b = true <-> s' <> self) /\
  (b = true -> total_size (domains s') < total_size (domains self)).
Proof.
  intros H. destruct b.
  - apply revise_true_shrinks in H. destruct H as [Hlt _]. split; [|auto].
    split; [|reflexivity]. intros _ ->. lia.
  - apply revise_false_same in H. subst. split; [|discriminate].
    split; [discriminate|]. intros Hne. now destruct Hne.
Qed.

Lemma revise_reports_change_witness :
  let s := snd (enforce_node_consistency Example3.creator) in
  let s' := snd (revise Example3.A Example3.B s) in
  (true = true <-> s' <> s) /\
  (true = true -> total_size (domains s') < total_size (domains s)).
Proof.
  intros s s'. apply (revise_reports_change Example3.A Example3.B s s' true).
  reflexivity.
Defined.

(** X4.  For two different variables with overlap [(i, j)], a [revise(x, y)]
    that returns leaves in the domain of [x] exactly the words that have a
    partner in the domain of [y]: a word [w2] with [w[i] == w2[j]]. *)
Theorem revise_keeps_supported (x y : Var) (i j : nat) (self s' : CrosswordCreator)
        (b : bool) (w : string) :
  x <> y ->
  overlap_of self x y = Some (Some (i, j)) ->
  revise x y self = (Ok b, s') ->
  (In w (dom s' x) <->
   In w (dom self x) /\ exists w2, In w2 (dom self y) /\ agree w i w2 j).
Proof.
  intros Hxy Ho H.
  destruct (revise_spec x y i j b self s' Hxy Ho H) as (_ & Hiff & Hex).
  rewrite Hiff. split; intros [Hin Hm]; split; auto.
  - now apply matched_in_true.
  - destruct (Hex w Hin) as [[|] Hb]; [assumption|].
    destruct Hm as (w2 & Hw2 & Ha). exfalso.
    eapply matched_in_false; eauto.
Qed.

Lemma revise_keeps_supported_witness :
  let s := snd (enforce_node_consistency Example2.creator) in
  In "CAT" (dom (snd (revise Example2.A Example2.B s)) Example2.A) <->
  In "CAT" (dom s Example2.A) /\
  exists w2, In w2 (dom s Example2.B) /\ agree "CAT" 0 w2 0.
Proof.
  intros s.
  apply (revise_keeps_supported Example2.A Example2.B 0 0 s
           (snd (revise Example2.A Example2.B s)) false "CAT").
  - intros H. discriminate H.
  - reflexivity.
  - reflexivity.
Defined.

(** A revision that reports a change found a word to remove. *)
Lemma revise_words_true_nonempty (x y : Var) (i j : nat) (ws : list string) :
  forall (revised : bool) (s s' : CrosswordCreator),
    revise_words x y i j ws revised s = (Ok true, s') ->
    revised = true \/ dom s x <> [].
Proof.
  induction ws as [|w ws IH]; intros revised s s'; simpl.
  - intros [= -> _]. now left.
  - intros H. apply mbind_ok in H. destruct H as (yd & s1 & H1 & H).
    apply domain_lookup_inv in H1. destruct H1 as [-> _].
    apply mbind_ok in H. destruct H as (m & s2 & H2 & H).
    injection H2 as _ <-. destruct m.
    + now apply IH in H.
    + apply mbind_ok in H. destruct H as (u & s3 & H3 & _).
      apply domain_remove_ok in H3. destruct H3 as (L & HL & Hin & _).
      right. unfold dom. rewrite HL. intros ->. contradiction.
Qed.

Lemma revise_true_nonempty (x y : Var) (s s' : CrosswordCreator) :
  revise x y s = (Ok true, s') -> dom s x <> [].
Proof.
  unfold revise. destruct (overlap_of s x y) as [[[i j]|]|]; try discriminate.
  intros H. apply mbind_ok in H. destruct H as (xd & s1 & H1 & H).
  apply domain_lookup_inv in H1. destruct H1 as [-> _].
  apply revise_words_true_nonempty in H. destruct H as [H|H]; [discriminate|exact H].
Qed.

Lemma ac3_loop_false_emptied (cw : Crossword) (fuel : nat) :
  forall (queue : list (Var * Var)) (s s' : CrosswordCreator),
    ac3_loop cw fuel queue s = (Ok false, s') ->
    exists x, domain_get s' x = Some [] /\ dom s x <> [].
Proof.
  induction fuel as [|fuel IH]; intros [|[x y] queue] s s'; simpl; try discriminate.
  intros H. apply mbind_ok in H. destruct H as (b & s1 & Hrev & H).
  destruct b.
  - pose proof (revise_true_nonempty _ _ _ _ Hrev) as Hne.
    pose proof (revise_shrinks _ _ _ _ _ Hrev) as Hsh.
    apply mbind_ok in H. destruct H as (xd & s2 & H2 & H).
    apply domain_lookup_inv in H2.
    destruct H2 as [-> [[? _]|(xd' & [= <-] & Gx)]]; [discriminate|].
    destruct xd as [|w xd]; simpl in H.
    + injection H as <-. exists x. auto.
    + apply IH in H. destruct H as (x' & Hx' & Hne').
      exists x'. split; [exact Hx'|].
      intros Hd. apply Hne'. pose proof (shrinks_dom _ _ Hsh x') as Hi.
      destruct (dom s1 x') as [|u l]; [reflexivity|]. rewrite Hd in Hi.
      now destruct (Hi u (or_introl eq_refl)).
  - apply revise_false_same in Hrev. subst s1.
    apply IH in H. destruct H as (x' & Hx' & Hne'). exists x'. auto.
Qed.

(** X5.  [ac3], from any arc list, returns [False] only after emptying a
    domain: some variable then has an empty domain that was not empty
    before the call. *)
Theorem ac3_false_emptied_domain (arcs : option (list (Var * Var)))
        (self s' : CrosswordCreator) :
  ac3 arcs self = (Ok false, s') ->
  exists x, domain_get s' x = Some [] /\ dom self x <> [].
Proof. unfold ac3. apply ac3_loop_false_emptied. Qed.

Lemma ac3_false_emptied_domain_witness :
  let s := snd (enforce_node_consistency Example3.creator) in
  exists x, domain_get (snd (ac3 None s)) x = Some [] /\ dom s x <> [].
Proof.
  intros s. apply (ac3_false_emptied_domain None s (snd (ac3 None s))).
  reflexivity.
Defined.

(** ** What [consistent] checks *)

Lemma lengths_ok_fits (a : Assignment) (vars : list Var) :
  fits a vars -> incl vars (PyDict.keys a) -> lengths_ok a vars = Ok true.
Proof.
  induction vars as [|v vars IH]; intros Hfit Hin; simpl; [reflexivity|].
  assert (Hv : In v (PyDict.keys a)) by (apply Hin; now left).
  apply (get_keys _ _ var_eqb var_eqb_eq) in Hv. destruct Hv as [w Hw].
  unfold PyDict.lookup. rewrite Hw. simpl.
  rewrite (Hfit v w (or_introl eq_refl) Hw), Nat.eqb_refl. simpl.
  apply IH.
  - intros u w' Hu. apply Hfit. now right.
  - intros u Hu. apply Hin. now right.
Qed.

Lemma agree_chars (wv wn : string) (i j : nat) (c1 c2 : ascii) :
  String.get i wv = Some c1 -> String.get j wn = Some c2 ->
  (Ascii.eqb c1 c2 = true <-> agree wv i wn j).
Proof.
  intros H1 H2. rewrite Ascii.eqb_eq. unfold agree. split.
  - intros ->. eauto.
  - intros (c & Hc1 & Hc2). congruence.
Qed.

Lemma neighbors_ok_spec (cw : Crossword) (a : Assignment) (var : Var) (ns : list Var) :
  well_formed_geometry cw = true ->
  fits a (PyDict.keys a) ->
  In var (PyDict.keys a) ->
  (forall n, In n ns -> exists o, PyDict.get arc_eqb (n, var) (overlaps cw) = Some (Some o)) ->
  (neighbors_ok cw a var ns = Ok true <->
   forall n wv wn i j,
     In n ns ->
     PyDict.get var_eqb var a = Some wv ->
     PyDict.get var_eqb n a = Some wn ->
     PyDict.get arc_eqb (var, n) (overlaps cw) = Some (Some (i, j)) ->
     agree wv i wn j).
Proof.
  intros Hwf Hfit Hvar. induction ns as [|n ns IH]; intros Hns; simpl.
  - split; [intros _ n wv wn i j []|reflexivity].
  - assert (IH' := IH (fun m Hm => Hns m (or_intror Hm))). clear IH.
    match goal with |- _ <-> ?R => set (Q := R) end.
    destruct (PyDict.mem var_eqb n a) eqn:Hmem.
    + apply (mem_keys _ _ var_eqb var_eqb_eq) in Hmem.
      destruct (Hns n (or_introl eq_refl)) as [[p q] Ho].
      destruct (well_formed_overlap _ _ _ _ _ Hwf Ho) as (_ & Hsym & _ & Hp & Hq).
      unfold PyDict.lookup. rewrite Hsym. simpl.
      pose proof Hvar as Hvar'. pose proof Hmem as Hmem'.
      apply (get_keys _ _ var_eqb var_eqb_eq) in Hvar'. destruct Hvar' as [wv Hwv].
      apply (get_keys _ _ var_eqb var_eqb_eq) in Hmem'. destruct Hmem' as [wn Hwn].
      rewrite Hwv, Hwn. simpl. unfold char_at.
      destruct (get_in_range wv q) as [c1 Hc1];
        [rewrite <- (Hfit var wv Hvar Hwv); assumption|].
      destruct (get_in_range wn p) as [c2 Hc2];
        [rewrite <- (Hfit n wn Hmem Hwn); assumption|].
      rewrite Hc1. simpl. rewrite Hc2. simpl.
      pose proof (agree_chars wv wn q p c1 c2 Hc1 Hc2) as Hag.
      destruct (Ascii.eqb c1 c2); simpl.
      * rewrite IH'. subst Q. split.
        -- intros H n' wv' wn' i j [<-|Hn'] G1 G2 G3;
             [|exact (H n' wv' wn' i j Hn' G1 G2 G3)].
           rewrite Hwv in G1. rewrite Hwn in G2. rewrite Hsym in G3.
           injection G1 as <-. injection G2 as <-. injection G3 as <- <-.
           now apply Hag.
        -- intros H n' wv' wn' i j Hn'. apply H. now right.
      * subst Q. split; [discriminate|]. intros H.
        assert (Ha : agree wv q wn p) by (apply (H n); auto).
        apply Hag in Ha. discriminate.
    + rewrite IH'. subst Q. split.
      * intros H n' wv' wn' i j [<-|Hn'] G1 G2 G3;
          [|exact (H n' wv' wn' i j Hn' G1 G2 G3)].
        unfold PyDict.mem in Hmem. rewrite G2 in Hmem. discriminate.
      * intros H n' wv' wn' i j Hn'. apply H. now right.
Qed.

Lemma overlaps_ok_spec (cw : Crossword) (a : Assignment) (vars : list Var) :
  well_formed_geometry cw = true ->
  fits a (PyDict.keys a) ->
  incl vars (PyDict.keys a) -> incl vars (variables cw) ->
  (overlaps_ok cw a vars = Ok true <->
   forall var n wv wn i j,
     In var vars -> In n (neighbors cw var) ->
     PyDict.get var_eqb var a = Some wv ->
     PyDict.get var_eqb n a = Some wn ->
     PyDict.get arc_eqb (var, n) (overlaps cw) = Some (Some (i, j)) ->
     agree wv i wn j).
Proof.
  intros Hwf Hfit. induction vars as [|v vars IH]; intros H1 H2; simpl.
  - split; [intros _ var n wv wn i j []|reflexivity].
  - assert (Hv1 : In v (PyDict.keys a)) by (apply H1; now left).
    assert (Hv2 : In v (variables cw)) by (apply H2; now left).
    assert (Hns : forall n, In n (neighbors cw v) ->
                  exists o, PyDict.get arc_eqb (n, v) (overlaps cw) = Some (Some o))
      by (intros n Hn; now apply well_formed_neighbors_overlap).
    pose proof (neighbors_ok_spec cw a v (neighbors cw v) Hwf Hfit Hv1 Hns) as Hspec.
    destruct (neighbors_ok_total cw a v (neighbors cw v) Hwf Hfit Hv1 Hns) as [b Hb].
    rewrite Hb in *. simpl.
    assert (IH' : overlaps_ok cw a vars = Ok true <->
                  forall var n wv wn i j,
                    In var vars -> In n (neighbors cw var) ->
                    PyDict.get var_eqb var a = Some wv ->
                    PyDict.get var_eqb n a = Some wn ->
                    PyDict.get arc_eqb (var, n) (overlaps cw) = Some (Some (i, j)) ->
                    agree wv i wn j).
    { apply IH; intros u Hu; [apply H1|apply H2]; now right. }
    destruct b.
    + rewrite IH'. split.
      * intros H var n wv wn i j [<-|Hvar]; [|now apply H].
        intros Hn G1 G2 G3. apply (proj1 Hspec eq_refl n wv wn i j); auto.
      * intros H var n wv wn i j Hvar. apply H. now right.
    + split; [discriminate|]. intros H.
      assert (Ht : Ok false = Ok true); [|discriminate Ht].
      apply Hspec. intros n wv wn i j Hn. apply H; auto; now left.
Qed.

Lemma consistent_iff (self : CrosswordCreator) (a : Assignment) :
  well_formed_geometry (crossword self) = true ->
  NoDup (PyDict.keys a) ->
  incl (PyDict.keys a) (variables (crossword self)) ->
  consistent self a = Ok true <->
  fits a (PyDict.keys a) /\ overlaps_agree (crossword self) a.
Proof.
  intros Hwf Hnd Hin.
  unfold consistent. rewrite distinctness_test_vacuous by assumption. simpl.
  destruct (lengths_ok_total a (PyDict.keys a) (incl_refl _)) as (b & Hb & Hfit).
  rewrite Hb. simpl. destruct b.
  - specialize (Hfit eq_refl).
    rewrite (overlaps_ok_spec _ a _ Hwf Hfit (incl_refl _) Hin). split.
    + intros H. split; [assumption|].
      intros var n wv wn i j G1 G2 Hn G3. apply (H var n); auto.
      apply (get_keys _ _ var_eqb var_eqb_eq). eauto.
    + intros [_ H] var n wv wn i j _ Hn G1 G2 G3. now apply (H var n wv wn i j).
  - split; [discriminate|]. intros [Hf _].
    rewrite (lengths_ok_fits a _ Hf (incl_refl _)) in Hb. discriminate.
Qed.

(** X6.  Over a well-formed geometry, [consistent] raises nothing on an
    assignment of puzzle variables, and it returns [True] exactly when
    every assigned word has the length of its variable and every assigned
    variable agrees with each of its assigned neighbours on the character
    where they cross.  That two variables may carry the same word plays no
    part. *)
Theorem consistent_spec (self : CrosswordCreator) (a : Assignment) :
  well_formed_geometry (crossword self) = true ->
  NoDup (PyDict.keys a) ->
  incl (PyDict.keys a) (variables (crossword self)) ->
  (exists b, consistent self a = Ok b) /\
  (consistent self a = Ok true <->
   fits a (PyDict.keys a) /\ overlaps_agree (crossword self) a).
Proof.
  intros Hwf Hnd Hin. split.
  - now apply consistent_total.
  - now apply consistent_iff.
Qed.

Lemma consistent_spec_witness :
  let a := [(Example1.A, "ABBA"); (Example1.B, "AXE"); (Example1.C, "AXE")] in
  (exists b, consistent Example1.creator a = Ok b) /\
  (consistent Example1.creator a = Ok true <->
   fits a (PyDict.keys a) /\ overlaps_agree (crossword Example1.creator) a).
Proof.
  apply (consistent_spec Example1.creator).
  - reflexivity.
  - simpl. repeat constructor; simpl; intuition discriminate.
  - simpl. intros v Hv. exact Hv.
Defined.

(** ** Soundness and completeness of the search *)

Lemma keeps_solutions_refl (f : Var -> string) (s : CrosswordCreator) :
  keeps_solutions f s s.
Proof. unfold keeps_solutions. auto. Qed.

Lemma keeps_solutions_trans (f : Var -> string) (s1 s2 s3 : CrosswordCreator) :
  keeps_solutions f s1 s2 -> keeps_solutions f s2 s3 -> keeps_solutions f s1 s3.
Proof.
  intros (C1 & K1 & S1) (C2 & K2 & S2).
  split; [congruence|]. split; [congruence|auto].
Qed.

(** Removing a word that [f] does not use keeps [f] a solution. *)
Lemma domain_remove_keeps_solution (f : Var -> string) (x : Var) (w : string)
      (s s' : CrosswordCreator) (r : result unit) :
  domain_remove x w s = (r, s') ->
  (forall L, domain_get s x = Some L -> solution s f -> f x <> w) ->
  keeps_solutions f s s'.
Proof.
  intros H Hne. destruct r as [[]| |].
  - apply domain_remove_ok in H.
    destruct H as (L & HL & Hin & HL' & [Hc Hsb] & Hk & _).
    split; [exact Hc|]. split; [exact Hk|].
    intros Hsol. specialize (Hne L HL Hsol). destruct Hsol as [Hdom Hov]. split.
    + intros v ws Hv. destruct (Var_eq_dec v x) as [->|Hvx].
      * rewrite HL' in Hv. injection Hv as <-.
        destruct (Hdom x L HL) as [H1 H2]. split; [|exact H2].
        apply word_discard_In. auto.
      * rewrite Hsb in Hv by assumption. now apply Hdom.
    + intros a b i j Ha Hb Ho. rewrite Hk in Ha, Hb.
      unfold overlap_of in *. rewrite Hc in Ho. now apply Hov.
  - apply domain_remove_fail in H; [subst; apply keeps_solutions_refl|congruence].
  - apply domain_remove_fail in H; [subst; apply keeps_solutions_refl|congruence].
Qed.

Lemma enforce_words_keeps_solutions (f : Var -> string) (var : Var) (ws : list string) :
  preserves (keeps_solutions f) (enforce_words var ws).
Proof.
  induction ws as [|w ws IH]; simpl.
  - apply preserves_mret, keeps_solutions_refl.
  - change (String.length w =? var_length var) with (fits_slot var w).
    destruct (fits_slot var w) eqn:Hfit; simpl; [exact IH|].
    apply (preserves_mbind _ (keeps_solutions_trans f)); [|intros _; exact IH].
    intros s r s' H. apply (domain_remove_keeps_solution f _ _ _ _ _ H).
    intros L HL [Hdom _] Heq.
    destruct (Hdom var L HL) as [_ Hf]. rewrite Heq in Hf. congruence.
Qed.

Lemma enforce_node_consistency_keeps_solutions (f : Var -> string) :
  preserves (keeps_solutions f) enforce_node_consistency.
Proof.
  intros s r s'. unfold enforce_node_consistency.
  generalize (domains s) at 1. intros d. revert s r s'.
  induction d as [|[var ws] d IH]; simpl.
  - apply preserves_mret, keeps_solutions_refl.
  - apply (preserves_mbind _ (keeps_solutions_trans f)); [|intros _; exact IH].
    apply enforce_words_keeps_solutions.
Qed.

(** The loop of [revise] removes no word that a solution uses. *)
Lemma revise_words_keeps_solutions (f : Var -> string) (x y : Var) (i j : nat)
      (ws : list string) :
  forall (revised : bool) (s s' : CrosswordCreator) (r : result bool),
    overlap_of s x y = Some (Some (i, j)) ->
    revise_words x y i j ws revised s = (r, s') ->
    keeps_solutions f s s'.
Proof.
  induction ws as [|w ws IH]; intros revised s s' r Ho; simpl.
  - intros [= _ <-]. apply keeps_solutions_refl.
  - unfold mbind at 1.
    destruct (domain_lookup y s) as [ry s0] eqn:Hy.
    apply domain_lookup_inv in Hy. destruct Hy as [-> [[-> _]|(yd & -> & Gy)]].
    { intros [= _ <-]. apply keeps_solutions_refl. }
    unfold mbind at 1, mlift.
    destruct (matched_in w i j yd) as [[|]|e|] eqn:Hm;
      try (intros [= _ <-]; apply keeps_solutions_refl).
    + now apply IH.
    + unfold mbind.
      destruct (domain_remove x w s) as [ru s1] eqn:Hrem.
      assert (Hk : keeps_solutions f s s1).
      { apply (domain_remove_keeps_solution f _ _ _ _ _ Hrem).
        intros L HL [Hdom Hov] Heq.
        assert (Ha : agree (f x) i (f y) j).
        { apply Hov; auto; apply (get_keys _ _ var_eqb var_eqb_eq); eauto. }
        destruct (Hdom y yd Gy) as [Hfy _]. rewrite Heq in Ha.
        exact (matched_in_false _ _ _ _ Hm _ Hfy Ha). }
      destruct ru as [[]|e|].
      * intros H. eapply keeps_solutions_trans; [exact Hk|].
        apply (IH true s1 s' r); [|exact H].
        destruct Hk as (Hc & _). unfold overlap_of in *. now rewrite Hc.
      * intros [= _ <-]. exact Hk.
      * intros [= _ <-]. exact Hk.
Qed.

Lemma revise_keeps_solutions (f : Var -> string) (x y : Var) :
  preserves (keeps_solutions f) (revise x y).
Proof.
  intros s r s'. unfold revise.
  destruct (overlap_of s x y) as [[[i j]|]|] eqn:Ho;
    try (intros [= _ <-]; apply keeps_solutions_refl).
  unfold mbind. destruct (domain_lookup x s) as [rx s0] eqn:Hx.
  apply domain_lookup_inv in Hx. destruct Hx as [-> [[-> _]|(xd & -> & Gx)]].
  - intros [= _ <-]. apply keeps_solutions_refl.
  - now apply revise_words_keeps_solutions.
Qed.

Lemma ac3_loop_keeps_solutions (f : Var -> string) (cw : Crossword) (fuel : nat)
      (queue : list (Var * Var)) :
  preserves (keeps_solutions f) (ac3_loop cw fuel queue).
Proof.
  revert queue. induction fuel as [|fuel IH]; intros [|[x y] queue]; simpl;
    try (apply preserves_mret, keeps_solutions_refl);
    try (apply preserves_mlift, keeps_solutions_refl).
  apply (preserves_mbind _ (keeps_solutions_trans f));
    [apply revise_keeps_solutions|intros [|]].
  - apply (preserves_mbind _ (keeps_solutions_trans f));
      [apply preserves_lookup, keeps_solutions_refl|intros xd].
    destruct (_ =? 0); [apply preserves_mret, keeps_solutions_refl | apply IH].
  - apply IH.
Qed.

(** X7.  Pruning loses no solution: whatever [enforce_node_consistency]
    and [ac3] (from any arc list) do, an assignment of domain words that
    fits every slot and agrees on every overlap is still made of domain
    words afterwards. *)
Theorem pruning_keeps_solutions (self : CrosswordCreator)
        (arcs : option (list (Var * Var))) (f : Var -> string) :
  solution self f ->
  solution (snd (enforce_node_consistency self)) f /\
  solution (snd (ac3 arcs self)) f.
Proof.
  intros Hsol. split.
  - destruct (enforce_node_consistency self) as [r s'] eqn:E.
    apply (enforce_node_consistency_keeps_solutions f) in E. now apply E.
  - destruct (ac3 arcs self) as [r s'] eqn:E. unfold ac3 in E.
    apply (ac3_loop_keeps_solutions f) in E. now apply E.
Qed.

Lemma agreeb_agree (w : string) (i : nat) (w2 : string) (j : nat) :
  agreeb w i w2 j = true <-> agree w i w2 j.
Proof.
  unfold agreeb, agree.
  destruct (String.get i w) as [a|]; [destruct (String.get j w2) as [b|]|].
  - rewrite Ascii.eqb_eq. split.
    + intros ->. eauto.
    + intros (c & [= ->] & [= ->]). reflexivity.
  - split; [discriminate|]. intros (c & _ & H). discriminate.
  - split; [discriminate|]. intros (c & H & _). discriminate.
Qed.

Lemma solutionb_solution (self : CrosswordCreator) (f : Var -> string) :
  solutionb self f = true -> solution self f.
Proof.
  unfold solutionb. rewrite andb_true_iff, !forallb_forall. intros [H1 H2]. split.
  - intros v ws Hv. apply (get_In _ _ var_eqb var_eqb_eq) in Hv.
    apply H1 in Hv. simpl in Hv. apply andb_true_iff in Hv. destruct Hv as [Hm Hf].
    apply word_mem_In in Hm. auto.
  - intros x y i j Hx Hy Ho. apply (get_In _ _ arc_eqb arc_eqb_eq) in Ho.
    apply H2 in Ho. simpl in Ho.
    apply (mem_keys _ _ var_eqb var_eqb_eq) in Hx, Hy.
    rewrite Hx, Hy in Ho. simpl in Ho. now apply agreeb_agree.
Qed.

Lemma pruning_keeps_solutions_witness :
  let f := reading [(Example1.A, "ADDA"); (Example1.B, "AXE"); (Example1.C, "AXE")] in
  solution (snd (enforce_node_consistency Example1.creator)) f /\
  solution (snd (ac3 None Example1.creator)) f.
Proof.
  intros f. apply (pruning_keeps_solutions Example1.creator None f).
  apply solutionb_solution. reflexivity.
Defined.

(** A partial assignment read off a solution passes [consistent]. *)
Lemma consistent_of_solution (self : CrosswordCreator) (a : Assignment)
      (f : Var -> string) :
  well_formed_geometry (crossword self) = true ->
  incl (PyDict.keys (domains self)) (variables (crossword self)) ->
  within self a ->
  solution self f -> follows a f ->
  consistent self a = Ok true.
Proof.
  intros Hwf Hkeys [Hnd Hin] [Hdom Hov] Hfol.
  apply consistent_iff; auto.
  - intros v Hv. auto.
  - split.
    + intros v w Hv Hg. rewrite <- (Hfol v w Hg).
      apply Hin in Hv. apply (get_keys _ _ var_eqb var_eqb_eq) in Hv.
      destruct Hv as [ws Hws]. destruct (Hdom v ws Hws) as [_ Hf].
      unfold fits_slot in Hf. apply Nat.eqb_eq in Hf. now symmetry.
    + intros var n wv wn i j G1 G2 _ G3.
      rewrite <- (Hfol var wv G1), <- (Hfol n wn G2).
      apply Hov; auto; apply Hin; apply (get_keys _ _ var_eqb var_eqb_eq); eauto.
Qed.

(** When the loop ends with [None], every value was refused by
    [consistent] or failed in the recursive call. *)
Lemma backtrack_values_none (recur : Assignment -> Search) (self : CrosswordCreator)
      (a : Assignment) (v : Var) (values : list string) (log : list Event) :
  backtrack_values recur self a v values = (log, Ok None) ->
  forall value, In value values ->
    consistent self (PyDict.set var_eqb v value a) = Ok false \/
    exists log', recur (PyDict.set var_eqb v value a) = (log', Ok None).
Proof.
  revert log. induction values as [|value0 rest IH]; intros log; simpl.
  - intros _ value [].
  - destruct (consistent self (PyDict.set var_eqb v value0 a)) as [[|]|e|] eqn:Hc;
      try discriminate.
    + destruct (recur (PyDict.set var_eqb v value0 a)) as [log1 [[r1|]|e|]] eqn:Hr;
        try discriminate.
      destruct (backtrack_values recur self a v rest) as [log2 r2].
      intros [= _ ->] value [<-|Hin]; [right; eauto|]. now apply (IH log2).
    + destruct (backtrack_values recur self a v rest) as [log2 r2].
      intros [= _ ->] value [<-|Hin]; [now left|]. now apply (IH log2).
Qed.

Lemma follows_extend (a : Assignment) (f : Var -> string) (v : Var) :
  follows a f -> follows (PyDict.set var_eqb v (f v) a) f.
Proof.
  intros Hfol u w. destruct (Var_eq_dec u v) as [->|Hne].
  - rewrite (get_set_same _ _ var_eqb var_eqb_eq). now intros [= <-].
  - rewrite (get_set_other _ _ var_eqb var_eqb_eq) by assumption. apply Hfol.
Qed.

(** The search misses no solution: it does not answer [None] from an
    assignment that a solution extends. *)
Lemma backtrack_complete (self : CrosswordCreator) (f : Var -> string) :
  well_formed_geometry (crossword self) = true ->
  incl (PyDict.keys (domains self)) (variables (crossword self)) ->
  solution self f ->
  forall (fuel : nat) (a : Assignment) (log : list Event),
    within self a -> follows a f ->
    backtrack fuel self a <> (log, Ok None).
Proof.
  intros Hwf Hkeys Hsol.
  induction fuel as [|fuel IH]; intros a log Hw Hfol; simpl;
    destruct (List.length a =? List.length (domains self)); try discriminate.
  destruct (select_unassigned_variable self a) as [v|e|] eqn:Hsel; try discriminate.
  apply select_unassigned_variable_ok in Hsel. destruct Hsel as [Hv Hn].
  destruct (domain_get self v) as [values|] eqn:Hd; [|discriminate].
  destruct (backtrack_values _ _ _ _ _) as [log1 r1] eqn:Hb.
  intros [= _ ->].
  assert (Hin : In (f v) values) by (destruct Hsol as [Hdom _]; now apply (Hdom v)).
  destruct (backtrack_values_none _ _ _ _ _ _ Hb (f v) Hin) as [Hc|[log' Hr]].
  - rewrite (consistent_of_solution self _ f) in Hc; auto; try discriminate.
    + now apply within_extend.
    + now apply follows_extend.
  - revert Hr. apply IH; [now apply within_extend|now apply follows_extend].
Qed.

Lemma solution_grows (f : Var -> string) (s s' : CrosswordCreator) :
  shrinks s s' -> solution s' f -> solution s f.
Proof.
  intros [Hc Hk Hd _] [Hdom Hov]. split.
  - intros v ws Hv.
    assert (Hin : In v (PyDict.keys (domains s')))
      by (rewrite Hk; apply (get_keys _ _ var_eqb var_eqb_eq); eauto).
    apply (get_keys _ _ var_eqb var_eqb_eq) in Hin. destruct Hin as [ws' Hv'].
    destruct (Hdom v ws' Hv') as [H1 H2]. split; [|exact H2].
    specialize (Hd v). unfold dom, domain_get in *. rewrite Hv, Hv' in Hd. auto.
  - intros x y i j Hx Hy Ho. rewrite <- Hk in Hx, Hy.
    unfold overlap_of in *. rewrite <- Hc in Ho. now apply Hov.
Qed.

(** X8.  [solve()] is complete for the puzzle as the program tests it: over
    a well-formed geometry, with one domain per variable, if [solve()]
    returns [None] then no choice of one domain word per variable fits
    every slot and agrees on every overlap. *)
Theorem solve_none_no_solution (self s' : CrosswordCreator) (log : list Event)
        (f : Var -> string) :
  well_formed_geometry (crossword self) = true ->
  PyDict.keys (domains self) = variables (crossword self) ->
  solve self = ((log, Ok None), s') ->
  ~ solution self f.
Proof.
  intros Hwf Hkeys Hs Hsol. apply solve_inv in Hs.
  destruct Hs as (u & s1 & b & H1 & H2 & H3).
  pose proof (enforce_node_consistency_keeps_solutions f _ _ _ H1) as (C1 & K1 & S1).
  unfold ac3 in H2.
  pose proof (ac3_loop_keeps_solutions f _ _ _ _ _ _ H2) as (C2 & K2 & S2).
  revert H3. apply (backtrack_complete s' f).
  - now rewrite C2, C1.
  - rewrite K2, K1, C2, C1, Hkeys. apply incl_refl.
  - auto.
  - apply within_empty.
  - intros v w H. discriminate H.
Qed.

Lemma solve_none_no_solution_witness :
  ~ solution Example3.creator
    (reading [(Example3.A, "CAT"); (Example3.B, "DEER")]).
Proof.
  apply (solve_none_no_solution Example3.creator (snd (solve Example3.creator))
           (fst (fst (solve Example3.creator)))).
  - reflexivity.
  - reflexivity.
  - reflexivity.
Defined.

(** X9.  [solve()] is sound for the puzzle as the program tests it: over a
    well-formed geometry, with one domain per (distinct) variable, an
    assignment returned by [solve()] gives every variable a word of its
    initial domain, of the variable's length, and agrees on every
    overlap. *)
Theorem solve_some_is_solution (self s' : CrosswordCreator) (log : list Event)
        (a : Assignment) :
  well_formed_geometry (crossword self) = true ->
  PyDict.keys (domains self) = variables (crossword self) ->
  NoDup (variables (crossword self)) ->
  solve self = ((log, Ok (Some a)), s') ->
  solution self (reading a) /\
  forall v, In v (variables (crossword self)) ->
            PyDict.get var_eqb v a = Some (reading a v).
Proof.
  intros Hwf Hkeys Hnd Hs. apply solve_inv in Hs.
  destruct Hs as (u & s1 & b & H1 & H2 & H3).
  apply enforce_node_consistency_shrinks in H1. apply ac3_shrinks in H2.
  pose proof (shrinks_trans _ _ _ H1 H2) as Hsh.
  pose proof (shrinks_keys _ _ Hsh) as Hk. pose proof (shrinks_crossword _ _ Hsh) as Hc.
  apply backtrack_result in H3; [|apply within_empty].
  destruct H3 as (Hl & Hw & Hcons & Hval).
  assert (Hnd' : NoDup (PyDict.keys (domains s'))) by now rewrite Hk, Hkeys.
  pose proof (within_full s' a Hnd' Hw Hl) as Hfull.
  assert (Hget : forall v, In v (PyDict.keys (domains s')) ->
                           PyDict.get var_eqb v a = Some (reading a v)).
  { intros v Hv. apply Hfull in Hv. apply (get_keys _ _ var_eqb var_eqb_eq) in Hv.
    destruct Hv as [w Hg]. unfold reading. now rewrite Hg. }
  assert (Hcon : consistent s' a = Ok true)
    by (destruct Hcons as [->|Hcons]; [reflexivity|assumption]).
  destruct Hw as [Hnda Hina].
  apply consistent_iff in Hcon; [|now rewrite Hc|assumption|].
  2: { rewrite Hc, <- Hkeys, <- Hk. exact Hina. }
  destruct Hcon as [Hfit Hag]. split.
  - apply (solution_grows _ _ _ Hsh). split.
    + intros v ws Hv.
      assert (Hin : In v (PyDict.keys (domains s')))
        by (apply (get_keys _ _ var_eqb var_eqb_eq); eauto).
      pose proof (Hget v Hin) as Hg. split.
      * destruct (Hval v _ Hg) as [H|H]; [discriminate|].
        unfold dom in H. now rewrite Hv in H.
      * unfold fits_slot. apply Nat.eqb_eq. symmetry. apply (Hfit v); [|exact Hg].
        now apply Hfull.
    + intros x y i j Hx Hy Ho.
      destruct (well_formed_overlap (crossword s') x y i j) as (_ & Hsym & _);
        [now rewrite Hc|exact Ho|].
      destruct (well_formed_overlap (crossword s') y x j i) as (_ & _ & Hn & _);
        [now rewrite Hc|exact Hsym|].
      apply (Hag x y); auto.
  - intros v Hv. apply Hget. now rewrite Hk, Hkeys.
Qed.

Lemma solve_some_is_solution_witness :
  let a := [(Example1.A, "ABBA"); (Example1.B, "AXE"); (Example1.C, "AXE")] in
  solution Example1.creator (reading a) /\
  forall v, In v (variables (crossword Example1.creator)) ->
            PyDict.get var_eqb v a = Some (reading a v).
Proof.
  apply (solve_some_is_solution Example1.creator (snd (solve Example1.creator))
           (fst (fst (solve Example1.creator)))).
  - reflexivity.
  - reflexivity.
  - simpl. repeat constructor; simpl; intuition discriminate.
  - reflexivity.
Defined.

(** ** Which variable is selected *)

Lemma select_unassigned_variable_none (self : CrosswordCreator) (a : Assignment) :
  select_unassigned_variable self a = Raise IndexError <->
  forall v, In v (PyDict.keys (domains self)) -> In v (PyDict.keys a).
Proof.
  destruct (select_unassigned_variable_head self a) as (l & Hp & ->). split.
  - destruct l as [|v' l]; [|discriminate]. intros _ v Hv.
    destruct (PyDict.mem var_eqb v a) eqn:Hm.
    + now apply (mem_keys _ _ var_eqb var_eqb_eq).
    + apply (mem_false_keys _ _ var_eqb var_eqb_eq) in Hm.
      assert (H : In v (PyDict.keys (unassigned self a))) by now apply unassigned_keys.
      apply (Permutation_in _ (Permutation_sym Hp)) in H. contradiction.
  - intros H. destruct l as [|v' l]; [reflexivity|]. exfalso.
    assert (Hv : In v' (PyDict.keys (unassigned self a)))
      by (eapply Permutation_in; [exact Hp|now left]).
    apply unassigned_keys in Hv. destruct Hv as [H1 H2]. auto.
Qed.

(** X10.  [select_unassigned_variable] raises [IndexError] exactly when
    every variable with a domain is already assigned, raises nothing else,
    and a variable it returns has a domain and is not assigned. *)
Theorem select_unassigned_variable_outcome (self : CrosswordCreator) (a : Assignment) :
  (select_unassigned_variable self a = Raise IndexError <->
   forall v, In v (PyDict.keys (domains self)) -> In v (PyDict.keys a)) /\
  (forall v, select_unassigned_variable self a = Ok v ->
             In v (PyDict.keys (domains self)) /\ ~ In v (PyDict.keys a)) /\
  (forall e, select_unassigned_variable self a = Raise e -> e = IndexError).
Proof.
  split; [apply select_unassigned_variable_none|]. split.
  - intros v. apply select_unassigned_variable_ok.
  - destruct (select_unassigned_variable_head self a) as (l & _ & ->).
    destruct l; [now intros e [= <-]|discriminate].
Qed.

Lemma select_unassigned_variable_outcome_witness :
  select_unassigned_variable Example1.creator
    [(Example1.A, "ABBA"); (Example1.B, "AXE"); (Example1.C, "AXE")] = Raise IndexError /\
  In Example1.A (PyDict.keys (domains Example1.creator)) /\
  ~ In Example1.A (PyDict.keys (@nil (Var * string))).
Proof.
  destruct (select_unassigned_variable_outcome Example1.creator
              [(Example1.A, "ABBA"); (Example1.B, "AXE"); (Example1.C, "AXE")])
    as (H1 & _ & _).
  destruct (select_unassigned_variable_outcome Example1.creator []) as (_ & H2 & _).
  split.
  - apply H1. intros v Hv. exact Hv.
  - apply (H2 Example1.A). reflexivity.
Defined.

(** The head of [sorted_reverse] is the first element of the input with
    the largest key. *)
Lemma sorted_reverse_first_max {A : Type} (key : A -> nat) (l r : list A) (x : A) :
  sorted_reverse key l = x :: r ->
  exists l1 l2, l = l1 ++ x :: l2 /\
                (forall y, In y l1 -> key y < key x) /\
                (forall y, In y l2 -> key y <= key x).
Proof.
  revert r x. induction l as [|a l IH]; intros r x; simpl; [discriminate|].
  destruct (sorted_reverse key l) as [|h t] eqn:E; simpl.
  - intros [= <- <-]. exists [], l. split; [reflexivity|]. split; [intros y []|].
    intros y Hy. apply (Permutation_in _ (Permutation_sym (sorted_reverse_perm _ key l))) in Hy.
    rewrite E in Hy. contradiction.
  - destruct (IH t h eq_refl) as (l1 & l2 & -> & H1 & H2).
    destruct (key h <=? key a) eqn:Hle.
    + apply Nat.leb_le in Hle. intros [= <- <-].
      exists [], (l1 ++ h :: l2). split; [reflexivity|]. split; [intros y []|].
      intros y Hy. apply in_app_or in Hy. destruct Hy as [Hy|[<-|Hy]].
      * apply H1 in Hy. lia.
      * lia.
      * apply H2 in Hy. lia.
    + apply Nat.leb_gt in Hle. intros [= <- _].
      exists (a :: l1), l2. split; [reflexivity|]. split; [|exact H2].
      intros y [<-|Hy]; [lia|]. now apply H1.
Qed.

Lemma StronglySorted_after {A : Type} (R : A -> A -> Prop) (l1 l2 : list A) (x y : A) :
  StronglySorted R (l1 ++ x :: l2) -> In y l2 -> R x y.
Proof.
  induction l1 as [|a l1 IH]; simpl; intros H Hy.
  - inversion H as [|? ? _ Hall]; subst. rewrite Forall_forall in Hall. auto.
  - inversion H; subst. auto.
Qed.

(** X11.  Which variable [select_unassigned_variable] returns: one with the
    most neighbours among the unassigned variables and, among those with
    as many neighbours, one with the fewest candidate words.  The number of
    neighbours comes first, the size of the domain second. *)
Theorem select_unassigned_variable_order (self : CrosswordCreator) (a : Assignment)
        (v u : Var) :
  NoDup (PyDict.keys (domains self)) ->
  select_unassigned_variable self a = Ok v ->
  In u (PyDict.keys (domains self)) -> ~ In u (PyDict.keys a) ->
  degree self u <= degree self v /\
  (degree self u = degree self v ->
   List.length (dom self v) <= List.length (dom self u)).
Proof.
  intros Hnd Hsel Hu1 Hu2.
  assert (Hu : In u (PyDict.keys (unassigned self a))) by now apply unassigned_keys.
  clear Hu1 Hu2. revert Hsel. unfold select_unassigned_variable.
  set (size := fun item : Var * word_set => List.length (snd item)).
  set (by_size := sorted size (unassigned self a)).
  assert (Hp : Permutation by_size (unassigned self a)) by apply sorted_perm.
  assert (Hs : StronglySorted (fun p q => size p <= size q) by_size)
    by apply sorted_sorted.
  assert (Hdom : forall x ws, In (x, ws) by_size -> dom self x = ws).
  { intros x ws Hx. apply (Permutation_in _ Hp) in Hx.
    apply filter_In in Hx. destruct Hx as [Hx _].
    unfold dom, domain_get. now rewrite (get_of_In x ws _ Hnd Hx). }
  assert (Huk : In u (PyDict.keys by_size)).
  { eapply Permutation_in; [|exact Hu]. unfold PyDict.keys.
    apply Permutation_map. now symmetry. }
  destruct (List.length by_size =? 1) eqn:Hlen.
  - apply Nat.eqb_eq in Hlen.
    destruct by_size as [|[x ws] [|? ?]]; try discriminate. simpl.
    intros [= <-]. simpl in Huk. destruct Huk as [<-|[]]. auto.
  - destruct (sorted_reverse (degree self) (PyDict.keys by_size)) as [|v' r] eqn:E;
      [discriminate|].
    intros [= ->].
    destruct (sorted_reverse_first_max _ _ _ _ E) as (l1 & l2 & Hsplit & H1 & H2).
    unfold PyDict.keys in Hsplit. apply map_eq_app in Hsplit.
    destruct Hsplit as (e1 & e2' & Hby & He1 & He2).
    apply map_eq_cons in He2. destruct He2 as ([x ws] & e2 & -> & Hx & He2).
    simpl in Hx. subst x.
    unfold PyDict.keys in Huk. rewrite Hby, map_app in Huk. simpl in Huk.
    rewrite He1, He2 in Huk.
    apply in_app_or in Huk. destruct Huk as [Hin|[<-|Hin]].
    + apply H1 in Hin. split; lia.
    + auto.
    + split; [now apply H2|]. intros _.
      rewrite <- He2 in Hin. apply in_map_iff in Hin.
      destruct Hin as ([u' wu] & Hfst & Hin). simpl in Hfst. subst u'.
      rewrite Hby in Hs.
      pose proof (StronglySorted_after _ _ _ _ _ Hs Hin) as Hle.
      rewrite (Hdom v ws), (Hdom u wu); [exact Hle| |].
      * rewrite Hby. apply in_or_app. right. now right.
      * rewrite Hby. apply in_or_app. right. now left.
Qed.

Lemma select_unassigned_variable_order_witness :
  let s := snd (solve Example1.creator) in
  degree s Example1.B <= degree s Example1.A /\
  (degree s Example1.B = degree s Example1.A ->
   List.length (dom s Example1.A) <= List.length (dom s Example1.B)).
Proof.
  apply (select_unassigned_variable_order (snd (solve Example1.creator)) []).
  - simpl. repeat constructor; simpl; intuition discriminate.
  - reflexivity.
  - simpl. auto.
  - simpl. auto.
Defined.

(** ** The order of [order_domain_values] *)

Lemma set_In {V : Type} (k k0 : string) (v v0 : V) (d : PyDict.t string V) :
  In (k, v) (PyDict.set String.eqb k0 v0 d) -> (k, v) = (k0, v0) \/ In (k, v) d.
Proof.
  induction d as [|[k1 v1] d IH]; simpl.
  - intros [H|[]]. now left.
  - destruct (String.eqb_spec k0 k1) as [->|Hne]; simpl.
    + intros [H|H]; [left; congruence|right; now right].
    + intros [H|H]; [right; now left|].
      apply IH in H. destruct H; [now left|right; now right].
Qed.

Lemma count_words_spec (word : string) (i j : nat) (l : list string) :
  forall (n m : nat),
    count_words word i j l n = Ok m -> m = n + differing word i j l.
Proof.
  unfold differing. induction l as [|w2 l IH]; intros n m; simpl.
  - intros [= <-]. lia.
  - intros H. apply rbind_ok in H. destruct H as (c1 & H1 & H).
    apply rbind_ok in H. destruct H as (c2 & H2 & H).
    apply IH in H.
    assert (Hab : agreeb word i w2 j = Ascii.eqb c1 c2).
    { unfold agreeb, char_at in *.
      destruct (String.get i word) as [c1'|]; [|discriminate].
      destruct (String.get j w2) as [c2'|]; [|discriminate].
      congruence. }
    rewrite Hab. destruct (Ascii.eqb c1 c2); simpl in *; lia.
Qed.

Lemma count_neighbors_spec (self : CrosswordCreator) (a : Assignment) (var : Var)
      (word : string) (ns : list Var) :
  forall (n m : nat),
    count_neighbors self a var word ns n = Ok m ->
    m = n + ruled_out self a var word ns.
Proof.
  unfold ruled_out, overlap_of, dom, domain_get.
  induction ns as [|nb ns IH]; intros n m; simpl.
  - intros [= <-]. lia.
  - destruct (PyDict.mem var_eqb nb a); simpl.
    + apply IH.
    + intros H. apply rbind_ok in H. destruct H as (o & Ho & H).
      unfold PyDict.lookup in Ho.
      destruct (PyDict.get arc_eqb (var, nb) (overlaps (crossword self))) as [o'|];
        [|discriminate].
      injection Ho as ->. destruct o as [[i j]|]; [|discriminate].
      apply rbind_ok in H. destruct H as (nd & Hnd & H).
      apply rbind_ok in H. destruct H as (n' & Hn' & H).
      apply IH in H. apply count_words_spec in Hn'.
      unfold PyDict.lookup in Hnd.
      destruct (PyDict.get var_eqb nb (domains self)) as [nd'|]; [|discriminate].
      injection Hnd as ->. lia.
Qed.

Lemma order_loop_sorted (self : CrosswordCreator) (a : Assignment) (var : Var)
      (ns : list Var) (ws : list string) :
  forall (wd : PyDict.t string nat) (sl res : option (list string)),
    (forall w n, In (w, n) wd -> n = ruled_out self a var w ns) ->
    (forall l, sl = Some l ->
               StronglySorted (fun w1 w2 => ruled_out self a var w1 ns
                                            <= ruled_out self a var w2 ns) l) ->
    order_loop self a var ns ws wd sl = Ok res ->
    forall l, res = Some l ->
              StronglySorted (fun w1 w2 => ruled_out self a var w1 ns
                                           <= ruled_out self a var w2 ns) l.
Proof.
  induction ws as [|w ws IH]; intros wd sl res Hwd Hsl; simpl.
  - intros [= <-]. exact Hsl.
  - intros H. apply rbind_ok in H. destruct H as (n & Hn & H).
    apply count_neighbors_spec in Hn. simpl in Hn.
    revert H. apply IH.
    + intros w' n' Hin. apply set_In in Hin. destruct Hin as [[= -> ->]|Hin]; auto.
    + intros l [= <-]. unfold sorted_words.
      set (wd' := PyDict.set String.eqb w n wd).
      assert (Hwd' : forall p, In p (sorted (fun item : string * nat => snd item) wd') ->
                               snd p = ruled_out self a var (fst p) ns).
      { intros [w' n'] Hp.
        apply (Permutation_in _ (sorted_perm _ _ wd')) in Hp.
        apply set_In in Hp. simpl.
        destruct Hp as [[= -> ->]|Hp]; [assumption|]. now apply Hwd. }
      pose proof (sorted_sorted _ (fun item : string * nat => snd item) wd') as Hs.
      revert Hwd' Hs. generalize (sorted (fun item : string * nat => snd item) wd').
      intros L HL Hs. induction Hs as [|p L Hs IHs Hall]; simpl; constructor.
      * apply IHs. intros q Hq. apply HL. now right.
      * rewrite Forall_forall in *. intros w' Hw'. apply in_map_iff in Hw'.
        destruct Hw' as (q & <- & Hq).
        rewrite <- (HL p (or_introl eq_refl)), <- (HL q (or_intror Hq)). now apply Hall.
Qed.

(** X12.  A list returned by [order_domain_values] is in ascending order of
    what each value rules out: the number of candidate words, over the
    unassigned neighbours of [var], whose character where the slots cross
    differs from the value's.  No value comes before one that rules out
    fewer words. *)
Theorem order_domain_values_sorted (self : CrosswordCreator) (var : Var)
        (a : Assignment) (l : list string) :
  order_domain_values self var a = Ok l ->
  StronglySorted
    (fun w1 w2 => ruled_out self a var w1 (neighbors (crossword self) var)
                  <= ruled_out self a var w2 (neighbors (crossword self) var)) l.
Proof.
  unfold order_domain_values. intros H.
  apply rbind_ok in H. destruct H as (ws & _ & H).
  apply rbind_ok in H. destruct H as (res & Hloop & H).
  destruct res as [l'|]; [|discriminate]. injection H as ->.
  apply (order_loop_sorted self a var _ ws [] None (Some l)); auto.
  - intros w n [].
  - discriminate.
Qed.

Lemma order_domain_values_sorted_witness :
  StronglySorted
    (fun w1 w2 => ruled_out Example2.pruned [] Example2.A w1
                            (neighbors (crossword Example2.pruned) Example2.A)
                  <= ruled_out Example2.pruned [] Example2.A w2
                               (neighbors (crossword Example2.pruned) Example2.A))
    ["DOG"; "CAT"].
Proof.
  apply (order_domain_values_sorted Example2.pruned Example2.A [] ["DOG"; "CAT"]).
  reflexivity.
Defined.

(** ** [solve()] raises nothing *)

Lemma set_In_var {V : Type} (k k0 : Var) (v v0 : V) (d : PyDict.t Var V) :
  In (k, v) (PyDict.set var_eqb k0 v0 d) -> (k, v) = (k0, v0) \/ In (k, v) d.
Proof.
  induction d as [|[k1 v1] d IH]; simpl.
  - intros [H|[]]. now left.
  - destruct (var_eqb k0 k1) eqn:E; simpl.
    + apply var_eqb_eq in E. subst.
      intros [H|H]; [left; congruence|right; now right].
    + intros [H|H]; [right; now left|].
      apply IH in H. destruct H; [now left|right; now right].
Qed.

Lemma word_discard_NoDup (w : string) (l : word_set) :
  NoDup l -> NoDup (word_discard w l).
Proof. apply NoDup_filter. Qed.

Lemma domain_remove_keeps_store_ok (x : Var) (w : string) :
  preserves keeps_store_ok (domain_remove x w).
Proof.
  intros s r s' H. destruct r as [[]|e|].
  - apply domain_remove_ok in H. destruct H as (L & HL & _ & HL' & [Hc Hsb] & Hk & _).
    intros [Hnd Hsets]. split; [now rewrite Hk|].
    intros v ws Hin.
    assert (Hnd' : NoDup (PyDict.keys (domains s'))) by now rewrite Hk.
    pose proof (get_of_In v ws _ Hnd' Hin) as Hg.
    destruct (Var_eq_dec v x) as [->|Hne].
    + unfold domain_get in HL'. rewrite HL' in Hg. injection Hg as <-.
      apply word_discard_NoDup. apply (Hsets x).
      now apply (get_In _ _ var_eqb var_eqb_eq).
    + change (domain_get s' v = Some ws) in Hg. rewrite Hsb in Hg by assumption.
      apply (Hsets v). now apply (get_In _ _ var_eqb var_eqb_eq).
  - apply domain_remove_fail in H; [subst; now intros ?|congruence].
  - apply domain_remove_fail in H; [subst; now intros ?|congruence].
Qed.

Lemma keeps_store_ok_refl (s : CrosswordCreator) : keeps_store_ok s s.
Proof. now intros H. Qed.

Lemma keeps_store_ok_trans (s1 s2 s3 : CrosswordCreator) :
  keeps_store_ok s1 s2 -> keeps_store_ok s2 s3 -> keeps_store_ok s1 s3.
Proof. unfold keeps_store_ok. auto. Qed.

Lemma revise_keeps_store_ok (x y : Var) : preserves keeps_store_ok (revise x y).
Proof.
  apply revise_keeps.
  - apply keeps_store_ok_refl.
  - apply keeps_store_ok_trans.
  - apply domain_remove_keeps_store_ok.
Qed.

Lemma enforce_node_consistency_keeps_store_ok :
  preserves keeps_store_ok enforce_node_consistency.
Proof.
  intros s r s'. unfold enforce_node_consistency.
  generalize (domains s) at 1. intros d. revert s r s'.
  induction d as [|[var ws] d IH]; simpl.
  - apply preserves_mret, keeps_store_ok_refl.
  - apply (preserves_mbind _ keeps_store_ok_trans); [|intros _; exact IH].
    induction ws as [|w ws IHw]; simpl.
    + apply preserves_mret, keeps_store_ok_refl.
    + destruct (negb _); [|exact IHw].
      apply (preserves_mbind _ keeps_store_ok_trans);
        [apply domain_remove_keeps_store_ok|intros _; exact IHw].
Qed.

Lemma node_consistent_shrinks (s s' : CrosswordCreator) :
  shrinks s s' -> node_consistent s -> node_consistent s'.
Proof. intros Hsh Hnc v w Hw. apply Hnc. now apply (shrinks_dom _ _ Hsh). Qed.

Lemma matched_in_total (w : string) (i j : nat) (yd : list string) :
  i < String.length w ->
  (forall w2, In w2 yd -> j < String.length w2) ->
  exists b, matched_in w i j yd = Ok b.
Proof.
  intros Hi. induction yd as [|w2 yd IH]; intros Hj; simpl; [eauto|].
  unfold chars_equal, char_at.
  destruct (get_in_range w i Hi) as [c1 ->]. simpl.
  destruct (get_in_range w2 j (Hj w2 (or_introl eq_refl))) as [c2 ->]. simpl.
  destruct (Ascii.eqb c1 c2); [eauto|].
  apply IH. intros u Hu. apply Hj. now right.
Qed.

Lemma revise_words_total (x y : Var) (i j : nat) (yd : word_set) (ws : list string) :
  x <> y ->
  (forall w2, In w2 yd -> j < String.length w2) ->
  forall (revised : bool) (s : CrosswordCreator) (L : word_set),
    domain_get s x = Some L -> domain_get s y = Some yd ->
    NoDup ws -> incl ws L ->
    (forall w, In w ws -> i < String.length w) ->
    exists r s', revise_words x y i j ws revised s = (Ok r, s').
Proof.
  intros Hxy Hj. induction ws as [|w ws IH]; intros revised s L HL Hy Hnd Hin Hi; simpl.
  - unfold mret. eauto.
  - inversion Hnd as [|? ? Hw Hnd']; subst.
    unfold mbind at 1, domain_lookup, PyDict.lookup.
    unfold domain_get in Hy. rewrite Hy.
    unfold mbind at 1, mlift.
    destruct (matched_in_total w i j yd (Hi w (or_introl eq_refl)) Hj) as [b ->].
    destruct b.
    + apply (IH revised s L); auto.
      * intros u Hu. apply Hin. now right.
      * intros u Hu. apply Hi. now right.
    + unfold mbind.
      destruct (domain_remove x w s) as [ru s1] eqn:Hrem.
      assert (Hok : exists u, ru = Ok u).
      { unfold domain_remove in Hrem. rewrite HL in Hrem.
        assert (Hm : word_mem w L = true) by (apply word_mem_In, Hin; now left).
        rewrite Hm in Hrem. injection Hrem as <- _. eauto. }
      destruct Hok as [u ->].
      apply domain_remove_ok in Hrem.
      destruct Hrem as (L0 & HL0 & _ & HL1 & [_ Hsb] & _).
      rewrite HL in HL0. injection HL0 as <-.
      apply (IH true s1 (word_discard w L)); auto.
      * unfold domain_get in *. rewrite <- Hy.
        apply Hsb. congruence.
      * intros w' Hw'. apply word_discard_In. split; [apply Hin; now right|].
        intros ->. contradiction.
      * intros w' Hw'. apply Hi. now right.
Qed.

Lemma existsb_var_In (x : Var) (l : list Var) :
  existsb (var_eqb x) l = true <-> In x l.
Proof.
  rewrite existsb_exists. split.
  - intros (y & Hy & He). apply var_eqb_eq in He. now subst.
  - intros H. exists x. split; [assumption|apply var_eqb_refl].
Qed.

Lemma arcs_known_In (cw : Crossword) (x y : Var) (o : option (nat * nat)) :
  arcs_known cw = true ->
  PyDict.get arc_eqb (x, y) (overlaps cw) = Some o ->
  In x (variables cw) /\ In y (variables cw).
Proof.
  unfold arcs_known. rewrite forallb_forall. intros H Hg.
  apply (get_In _ _ arc_eqb arc_eqb_eq) in Hg. apply H in Hg. simpl in Hg.
  apply andb_true_iff in Hg. destruct Hg as [H1 H2].
  now rewrite !existsb_var_In in *.
Qed.

Lemma node_consistent_length (s : CrosswordCreator) (x : Var) (L : word_set) (w : string) :
  node_consistent s -> domain_get s x = Some L -> In w L ->
  String.length w = var_length x.
Proof.
  intros Hnc HL Hw. apply Nat.eqb_eq. apply (Hnc x w). unfold dom. now rewrite HL.
Qed.

(** [revise] returns normally on an arc of the overlap dictionary. *)
Lemma revise_total (x y : Var) (s : CrosswordCreator) (o : option (nat * nat)) :
  well_formed_geometry (crossword s) = true ->
  arcs_known (crossword s) = true ->
  store_of_puzzle s -> node_consistent s ->
  overlap_of s x y = Some o ->
  exists b s', revise x y s = (Ok b, s').
Proof.
  intros Hwf Hknown [Hok Hkeys] Hnc Ho. unfold revise. rewrite Ho.
  destruct o as [[i j]|]; [|eauto].
  destruct (well_formed_overlap _ _ _ _ _ Hwf Ho) as (Hxy & _ & _ & Hi & Hj).
  destruct (arcs_known_In _ _ _ _ Hknown Ho) as [Hx Hy].
  rewrite <- Hkeys in Hx, Hy.
  apply (get_keys _ _ var_eqb var_eqb_eq) in Hx, Hy.
  destruct Hx as [L HL]. destruct Hy as [yd Hyd].
  unfold mbind, domain_lookup, PyDict.lookup. rewrite HL.
  apply (revise_words_total x y i j yd L Hxy) with (L := L); auto.
  - intros w2 Hw2. now rewrite (node_consistent_length s y yd w2 Hnc Hyd Hw2).
  - apply (store_ok_get s x); assumption.
  - apply incl_refl.
  - intros w Hw. now rewrite (node_consistent_length s x L w Hnc HL Hw).
Qed.

Lemma ac3_loop_no_raise (cw : Crossword) (fuel : nat) :
  forall (queue : list (Var * Var)) (s s' : CrosswordCreator) (e : exn),
    crossword s = cw ->
    well_formed_geometry cw = true -> arcs_known cw = true ->
    store_of_puzzle s -> node_consistent s ->
    (forall x y, In (x, y) queue -> exists o, overlap_of s x y = Some o) ->
    ac3_loop cw fuel queue s <> (Raise e, s').
Proof.
  induction fuel as [|fuel IH]; intros [|[x y] queue] s s' e Hc Hwf Hknown Hst Hnc Hq;
    simpl; try discriminate.
  destruct (Hq x y (or_introl eq_refl)) as [o Ho].
  subst cw.
  destruct (revise_total x y s o Hwf Hknown Hst Hnc Ho) as (b & s1 & Hrev).
  unfold mbind at 1. rewrite Hrev.
  pose proof (revise_shrinks x y s _ _ Hrev) as Hsh.
  pose proof (revise_keeps_store_ok x y s _ _ Hrev) as Hks.
  pose proof (shrinks_crossword _ _ Hsh) as Hc1.
  pose proof (shrinks_keys _ _ Hsh) as Hk1.
  assert (Hst1 : store_of_puzzle s1).
  { destruct Hst as [Hok Hkeys]. split; [now apply Hks|congruence]. }
  assert (Hnc1 : node_consistent s1) by now apply (node_consistent_shrinks s).
  assert (Hq1 : forall a b, In (a, b) queue -> exists o, overlap_of s1 a b = Some o).
  { intros a c Hin. unfold overlap_of. rewrite Hc1. apply Hq. now right. }
  destruct b.
  - destruct (arcs_known_In _ _ _ _ Hknown Ho) as [Hx _].
    destruct Hst1 as [Hok1 Hkeys1]. pose proof Hx as Hx'.
    rewrite <- Hc1, <- Hkeys1 in Hx'.
    apply (get_keys _ _ var_eqb var_eqb_eq) in Hx'. destruct Hx' as [xd Hxd].
    unfold mbind, domain_lookup, PyDict.lookup. rewrite Hxd.
    destruct (List.length xd =? 0); [discriminate|].
    apply IH; auto; [split; assumption|].
    intros a c Hin. apply in_app_or in Hin. destruct Hin as [Hin|Hin]; [auto|].
    unfold requeue in Hin. apply in_map_iff in Hin.
    destruct Hin as (z & [= <- <-] & Hz). apply filter_In in Hz. destruct Hz as [Hz _].
    destruct (well_formed_neighbors_overlap (crossword s) x z) as [o' Ho']; auto.
    unfold overlap_of. rewrite Hc1. eauto.
  - apply IH; auto.
Qed.

(** [ac3()] returns normally inside [solve()]. *)
Lemma ac3_total (s : CrosswordCreator) :
  well_formed_geometry (crossword s) = true -> arcs_known (crossword s) = true ->
  store_of_puzzle s -> node_consistent s ->
  exists b s', ac3 None s = (Ok b, s').
Proof.
  intros Hwf Hknown Hst Hnc.
  pose proof (ac3_enough_fuel None s) as Hfuel.
  destruct (ac3 None s) as [[b|e|] s'] eqn:E; simpl in Hfuel.
  - eauto.
  - exfalso. unfold ac3 in E. revert E. apply ac3_loop_no_raise; auto.
    intros x y Hin. simpl in Hin. unfold overlap_of.
    apply (get_keys _ _ arc_eqb arc_eqb_eq). exact Hin.
  - congruence.
Qed.

(** X13.  On a well-formed puzzle [solve()] raises nothing: with a
    well-formed geometry whose overlap dictionary speaks of puzzle variables
    only, and a store that is a dictionary of sets with one domain per
    variable, [solve()] returns an assignment or [None]. *)
Theorem solve_returns (self : CrosswordCreator) :
  well_formed_geometry (crossword self) = true ->
  arcs_known (crossword self) = true ->
  store_of_puzzle self ->
  exists log o s', solve self = ((log, Ok o), s').
Proof.
  intros Hwf Hknown [Hok Hkeys]. unfold solve.
  destruct (enforce_node_consistency self) as [r1 s1] eqn:E1.
  assert (Hr1 : r1 = Ok tt).
  { pose proof (enforce_node_consistency_filter self (mkVar 0 0 ACROSS 0) Hok) as (H & _).
    now rewrite E1 in H. }
  subst r1.
  pose proof (enforce_node_consistency_shrinks _ _ _ E1) as Hsh1.
  assert (Hnc1 : node_consistent s1).
  { pose proof (enforce_node_consistency_post self Hok) as H. now rewrite E1 in H. }
  assert (Hst1 : store_of_puzzle s1).
  { split.
    - now apply (enforce_node_consistency_keeps_store_ok _ _ _ E1).
    - rewrite (shrinks_keys _ _ Hsh1), (shrinks_crossword _ _ Hsh1). exact Hkeys. }
  destruct (ac3_total s1) as (b & s2 & E2); auto;
    try (rewrite (shrinks_crossword _ _ Hsh1); assumption).
  rewrite E2.
  pose proof (ac3_shrinks None _ _ _ E2) as Hsh2.
  destruct (backtrack_total s2) with (fuel := List.length (domains s2))
                                     (a := @nil (Var * string))
    as (log & o & Hb).
  - now rewrite (shrinks_crossword _ _ Hsh2), (shrinks_crossword _ _ Hsh1).
  - destruct Hst1 as [_ Hk1].
    rewrite (shrinks_keys _ _ Hsh2), (shrinks_crossword _ _ Hsh2), Hk1. apply incl_refl.
  - rewrite (shrinks_keys _ _ Hsh2). apply Hst1.
  - apply within_empty.
  - simpl. lia.
  - rewrite Hb. eauto.
Qed.

Lemma solve_returns_witness :
  exists log o s', solve Example1.creator = ((log, Ok o), s').
Proof.
  apply (solve_returns Example1.creator).
  - reflexivity.
  - reflexivity.
  - split; [|reflexivity].
    apply store_ok_init; simpl; repeat constructor; simpl; intuition discriminate.
Defined.

(** ** A second propagation changes nothing *)

Lemma ac3_loop_keeps_store_ok (cw : Crossword) (fuel : nat) (queue : list (Var * Var)) :
  preserves keeps_store_ok (ac3_loop cw fuel queue).
Proof.
  revert queue. induction fuel as [|fuel IH]; intros [|[x y] queue]; simpl;
    try (apply preserves_mret, keeps_store_ok_refl);
    try (apply preserves_mlift, keeps_store_ok_refl).
  apply (preserves_mbind _ keeps_store_ok_trans);
    [apply revise_keeps_store_ok|intros [|]].
  - apply (preserves_mbind _ keeps_store_ok_trans);
      [apply preserves_lookup, keeps_store_ok_refl|intros xd].
    destruct (_ =? 0); [apply preserves_mret, keeps_store_ok_refl | apply IH].
  - apply IH.
Qed.

Lemma revise_words_noop (x y : Var) (i j : nat) (yd : word_set) (ws : list string)
      (revised : bool) (s : CrosswordCreator) :
  domain_get s y = Some yd ->
  (forall w, In w ws -> matched_in w i j yd = Ok true) ->
  revise_words x y i j ws revised s = (Ok revised, s).
Proof.
  intros Hy. induction ws as [|w ws IH]; intros Hm; simpl; [reflexivity|].
  unfold mbind at 1, domain_lookup, PyDict.lookup.
  unfold domain_get in Hy. rewrite Hy.
  unfold mbind at 1, mlift. rewrite (Hm w (or_introl eq_refl)).
  apply IH. intros u Hu. apply Hm. now right.
Qed.

(** [revise] does nothing on an arc that is already consistent. *)
Lemma revise_noop (x y : Var) (s : CrosswordCreator) (o : option (nat * nat)) :
  well_formed_geometry (crossword s) = true ->
  arcs_known (crossword s) = true ->
  store_of_puzzle s -> node_consistent s ->
  overlap_of s x y = Some o ->
  (forall i j, o = Some (i, j) -> supported s x y i j) ->
  revise x y s = (Ok false, s).
Proof.
  intros Hwf Hknown [Hok Hkeys] Hnc Ho Hsup. unfold revise. rewrite Ho.
  destruct o as [[i j]|]; [|reflexivity].
  specialize (Hsup i j eq_refl).
  destruct (well_formed_overlap _ _ _ _ _ Hwf Ho) as (Hxy & _ & _ & Hi & Hj).
  destruct (arcs_known_In _ _ _ _ Hknown Ho) as [Hx Hy].
  rewrite <- Hkeys in Hx, Hy.
  apply (get_keys _ _ var_eqb var_eqb_eq) in Hx, Hy.
  destruct Hx as [L HL]. destruct Hy as [yd Hyd].
  unfold mbind, domain_lookup, PyDict.lookup. rewrite HL.
  apply (revise_words_noop x y i j yd); [exact Hyd|].
  intros w Hw.
  destruct (matched_in_total w i j yd) as [b Hb].
  - now rewrite (node_consistent_length s x L w Hnc HL Hw).
  - intros w2 Hw2. now rewrite (node_consistent_length s y yd w2 Hnc Hyd Hw2).
  - destruct b; [exact Hb|]. exfalso.
    destruct (Hsup w) as (w2 & Hw2 & Ha).
    + unfold dom, domain_get. now rewrite HL.
    + unfold dom, domain_get in Hw2. unfold domain_get in Hyd. rewrite Hyd in Hw2.
      exact (matched_in_false _ _ _ _ Hb _ Hw2 Ha).
Qed.

Lemma ac3_loop_noop (cw : Crossword) (s : CrosswordCreator) (queue : list (Var * Var)) :
  forall fuel,
    List.length queue <= fuel ->
    (forall x y, In (x, y) queue -> revise x y s = (Ok false, s)) ->
    ac3_loop cw fuel queue s = (Ok true, s).
Proof.
  induction queue as [|[x y] queue IH]; intros fuel Hf Hq.
  - now destruct fuel.
  - destruct fuel as [|fuel]; simpl in *; [lia|].
    unfold mbind. rewrite (Hq x y (or_introl eq_refl)).
    apply IH; [lia|]. intros a b Hin. apply Hq. now right.
Qed.

(** X14.  Propagation reaches a fixed point: on a well-formed puzzle whose
    domains are node consistent, after an [ac3()] that returned [True] a
    second [ac3()] returns [True] again and leaves the store as it is. *)
Theorem ac3_idempotent (self s' : CrosswordCreator) :
  well_formed_geometry (crossword self) = true ->
  arcs_known (crossword self) = true ->
  store_of_puzzle self -> node_consistent self ->
  ac3 None self = (Ok true, s') ->
  ac3 None s' = (Ok true, s').
Proof.
  intros Hwf Hknown [Hok Hkeys] Hnc Hrun.
  pose proof (ac3_shrinks None _ _ _ Hrun) as Hsh.
  pose proof (shrinks_crossword _ _ Hsh) as Hc.
  pose proof (shrinks_keys _ _ Hsh) as Hk.
  assert (Hst' : store_of_puzzle s').
  { split; [|congruence]. unfold ac3 in Hrun.
    now apply (ac3_loop_keeps_store_ok _ _ _ _ _ _ Hrun). }
  assert (Hnc' : node_consistent s') by now apply (node_consistent_shrinks self).
  assert (Hsup : pending_or_supported [] s').
  { unfold ac3 in Hrun. apply ac3_loop_sound in Hrun;
      [exact Hrun|exact Hwf|exact (initial_invariant self)]. }
  unfold ac3. apply ac3_loop_noop.
  - unfold ac3_fuel. lia.
  - intros x y Hin. simpl in Hin.
    apply (get_keys _ _ arc_eqb arc_eqb_eq) in Hin. destruct Hin as [o Ho].
    apply (revise_noop x y s' o); auto; try (rewrite Hc; assumption).
    intros i j ->. destruct (Hsup x y i j Ho) as [[]|H]. exact H.
Qed.

Lemma ac3_idempotent_witness :
  let s := snd (enforce_node_consistency Example2.creator) in
  ac3 None (snd (ac3 None s)) = (Ok true, snd (ac3 None s)).
Proof.
  intros s. apply (ac3_idempotent s (snd (ac3 None s))).
  - reflexivity.
  - reflexivity.
  - split; [|reflexivity].
    split.
    + simpl. repeat constructor; simpl; intuition discriminate.
    + intros v ws H. simpl in H.
      destruct H as [H|[H|[]]]; injection H as _ <-;
        repeat constructor; simpl; intuition discriminate.
  - intros v w Hw. unfold dom, domain_get in Hw. simpl in Hw.
    destruct (var_eqb v Example2.A) eqn:EA.
    + apply var_eqb_eq in EA. subst v. simpl in Hw.
      destruct Hw as [<-|[<-|[]]]; reflexivity.
    + destruct (var_eqb v Example2.B) eqn:EB; [|destruct Hw].
      apply var_eqb_eq in EB. subst v. simpl in Hw.
      destruct Hw as [<-|[<-|[<-|[]]]]; reflexivity.
  - reflexivity.
Defined.

(** * The letter grid *)

Lemma list_set_length {A : Type} (l : list A) (n : nat) (x : A) :
  List.length (list_set l n x) = List.length l.
Proof.
  revert n. induction l as [|y l IH]; intros [|n]; simpl; auto.
Qed.

Lemma nth_error_list_set_same {A : Type} (l : list A) (n : nat) (x : A) :
  n < List.length l -> nth_error (list_set l n x) n = Some x.
Proof.
  revert n. induction l as [|y l IH]; intros [|n]; simpl; try lia; auto.
  intros H. apply IH. lia.
Qed.

Lemma nth_error_list_set_other {A : Type} (l : list A) (n m : nat) (x : A) :
  m <> n -> nth_error (list_set l n x) m = nth_error l m.
Proof.
  revert n m. induction l as [|y l IH]; intros [|n] [|m] H; simpl; auto;
    try congruence.
Qed.

Lemma list_set_Forall {A : Type} (P : A -> Prop) (l : list A) (n : nat) (x : A) :
  Forall P l -> P x -> Forall P (list_set l n x).
Proof.
  intros Hl Hx. revert n. induction Hl as [|y l Hy Hl IH]; intros [|n]; simpl;
    constructor; auto.
Qed.

Lemma shaped_row {A : Type} (w h : nat) (g : list (list A)) (i : nat) (row : list A) :
  shaped w h g -> nth_error g i = Some row -> List.length row = w /\ i < h.
Proof.
  intros [Hh Hw] Hrow. split.
  - rewrite Forall_forall in Hw. apply Hw. eapply nth_error_In; eauto.
  - rewrite <- Hh. apply nth_error_Some. congruence.
Qed.

Lemma shaped_cell {A : Type} (w h : nat) (g : list (list A)) (i j : nat) :
  shaped w h g -> (i < h /\ j < w <-> exists x, cell g i j = Some x).
Proof.
  intros Hs. unfold cell. destruct (nth_error g i) as [row|] eqn:E.
  - destruct (shaped_row _ _ _ _ _ Hs E) as [Hw Hi]. split.
    + intros [_ Hj]. destruct (nth_error row j) as [x|] eqn:Ej; [eauto|].
      apply nth_error_None in Ej. lia.
    + intros [x Hx]. split; [assumption|].
      rewrite <- Hw. apply nth_error_Some. congruence.
  - split.
    + intros [Hi _]. apply nth_error_None in E. destruct Hs as [Hh _]. lia.
    + intros [x Hx]. discriminate.
Qed.

(** What a successful [letters[i][j] = c] does to a grid. *)
Lemma letters_set_ok (w h : nat) (g g' : Letters) (i j : nat) (c : ascii) :
  shaped w h g ->
  letters_set g i j c = Ok g' ->
  shaped w h g' /\ i < h /\ j < w /\
  forall i' j', cell g' i' j'
                = if (i' =? i) && (j' =? j) then Some (Some c) else cell g i' j'.
Proof.
  intros Hs. unfold letters_set.
  destruct (nth_error g i) as [row|] eqn:E; [|discriminate].
  destruct (shaped_row _ _ _ _ _ Hs E) as [Hw Hi].
  destruct (j <? List.length row) eqn:Hj; [|discriminate].
  apply Nat.ltb_lt in Hj. intros [= <-].
  destruct Hs as [Hh HF]. split; [|split; [assumption|split; [lia|]]].
  - split; [now rewrite list_set_length|].
    apply list_set_Forall; [assumption|]. now rewrite list_set_length.
  - intros i' j'. unfold cell.
    destruct (Nat.eqb_spec i' i) as [->|Hne]; simpl.
    + rewrite nth_error_list_set_same by lia.
      destruct (Nat.eqb_spec j' j) as [->|Hnej].
      * now apply nth_error_list_set_same.
      * rewrite nth_error_list_set_other by assumption. now rewrite E.
    + now rewrite nth_error_list_set_other.
Qed.

Lemma letters_set_total (w h : nat) (g : Letters) (i j : nat) (c : ascii) :
  shaped w h g -> i < h -> j < w -> exists g', letters_set g i j c = Ok g'.
Proof.
  intros Hs Hi Hj. unfold letters_set.
  destruct (nth_error g i) as [row|] eqn:E.
  - destruct (shaped_row _ _ _ _ _ Hs E) as [Hw _].
    assert (Hlt : (j <? List.length row) = true) by (apply Nat.ltb_lt; lia).
    rewrite Hlt. eauto.
  - apply nth_error_None in E. destruct Hs as [Hh _]. lia.
Qed.

Lemma letters_set_raise (g : Letters) (i j : nat) (c : ascii) (r : result Letters) :
  letters_set g i j c = r -> (exists g', r = Ok g') \/ r = Raise IndexError.
Proof.
  unfold letters_set. destruct (nth_error g i) as [row|]; [|intros <-; now right].
  destruct (j <? List.length row); intros <-; eauto.
Qed.

(** The test that the [k]-th letter of [variable] goes to cell [(i, j)]. *)
Lemma covers_hit (variable : Var) (word : string) (k : nat) (c : ascii) :
  String.get k word = Some c ->
  covers variable word (cell_i variable k) (cell_j variable k) = Some c.
Proof.
  intros Hc. unfold covers, cell_i, cell_j.
  destruct (var_direction variable); simpl.
  - rewrite Nat.add_0_r, Nat.eqb_refl. simpl.
    assert (Hle : (var_j variable <=? var_j variable + k) = true)
      by (apply Nat.leb_le; lia).
    rewrite Hle. now replace (var_j variable + k - var_j variable) with k by lia.
  - rewrite Nat.add_0_r, Nat.eqb_refl. simpl.
    assert (Hle : (var_i variable <=? var_i variable + k) = true)
      by (apply Nat.leb_le; lia).
    rewrite Hle. now replace (var_i variable + k - var_i variable) with k by lia.
Qed.

Lemma covers_inv (variable : Var) (word : string) (i j : nat) (c : ascii) :
  covers variable word i j = Some c ->
  exists k, String.get k word = Some c /\ cell_i variable k = i /\ cell_j variable k = j.
Proof.
  unfold covers, cell_i, cell_j.
  destruct (var_direction variable); simpl.
  - destruct (Nat.eqb_spec i (var_i variable)) as [->|]; simpl; [|discriminate].
    destruct (Nat.leb_spec (var_j variable) j) as [Hle|Hgt]; [|discriminate].
    intros Hget. exists (j - var_j variable). repeat split; auto; lia.
  - destruct (Nat.eqb_spec j (var_j variable)) as [->|]; simpl; [|discriminate].
    destruct (Nat.leb_spec (var_i variable) i) as [Hle|Hgt]; [|discriminate].
    intros Hget. exists (i - var_i variable). repeat split; auto; lia.
Qed.

Lemma cell_injective (variable : Var) (k k' : nat) :
  cell_i variable k = cell_i variable k' -> cell_j variable k = cell_j variable k' ->
  k = k'.
Proof.
  unfold cell_i, cell_j. destruct (var_direction variable); simpl; lia.
Qed.

Lemma get_some_lt (word : string) (k : nat) (c : ascii) :
  String.get k word = Some c -> k < String.length word.
Proof.
  revert k. induction word as [|a word IH]; intros k; simpl; [discriminate|].
  destruct k as [|k]; [lia|]. intros H. apply IH in H. lia.
Qed.

(** Writing the letters numbered [ks] of a word: the cells written are on
    the grid, a cell that none of them reaches is unchanged, and a cell
    that one of them reaches shows that letter. *)
Lemma write_word_ok (w h : nat) (variable : Var) (word : string) (ks : list nat) :
  forall (g g' : Letters),
    shaped w h g -> NoDup ks ->
    write_word variable word ks g = Ok g' ->
    shaped w h g' /\
    (forall k, In k ks -> cell_i variable k < h /\ cell_j variable k < w) /\
    (forall i j,
        (forall k, In k ks -> ~ (cell_i variable k = i /\ cell_j variable k = j)) ->
        cell g' i j = cell g i j) /\
    (forall k, In k ks ->
               exists c, String.get k word = Some c /\
                         cell g' (cell_i variable k) (cell_j variable k) = Some (Some c)).
Proof.
  induction ks as [|k0 ks IH]; intros g g' Hs Hnd; simpl.
  - intros [= <-]. split; [assumption|]. split; [intros k []|].
    split; [reflexivity|intros k []].
  - inversion Hnd as [|? ? Hk0 Hnd']; subst.
    intros H. apply rbind_ok in H. destruct H as (c & Hc & H).
    apply rbind_ok in H. destruct H as (g1 & Hset & H).
    unfold char_at in Hc. destruct (String.get k0 word) as [c'|] eqn:Hget; [|discriminate].
    injection Hc as ->.
    destruct (letters_set_ok w h _ _ _ _ _ Hs Hset) as (Hs1 & Hi & Hj & Hcell).
    destruct (IH g1 g' Hs1 Hnd' H) as (Hs' & Hin & Hmiss & Hhit).
    split; [exact Hs'|]. split; [|split].
    + intros k [<-|Hk]; auto.
    + intros i j Hno. rewrite Hmiss.
      * rewrite Hcell.
        destruct (Nat.eqb_spec i (cell_i variable k0)) as [->|]; simpl; auto.
        destruct (Nat.eqb_spec j (cell_j variable k0)) as [->|]; simpl; auto.
        exfalso. apply (Hno k0); auto.
      * intros k Hk. apply Hno. now right.
    + intros k [<-|Hk]; [|now apply Hhit].
      exists c. split; [exact Hget|].
      rewrite Hmiss.
      * rewrite Hcell, !Nat.eqb_refl. reflexivity.
      * intros k Hk [H1 H2]. apply Hk0.
        now rewrite (cell_injective variable k0 k).
Qed.

(** One word written over a grid, cell by cell. *)
Lemma write_word_cells (w h : nat) (variable : Var) (word : string) (g g' : Letters) :
  shaped w h g ->
  write_word variable word (seq 0 (String.length word)) g = Ok g' ->
  shaped w h g' /\
  forall i j, i < h -> j < w ->
              cell g' i j = match covers variable word i j with
                            | Some c => Some (Some c)
                            | None => cell g i j
                            end.
Proof.
  intros Hs H.
  destruct (write_word_ok w h variable word _ g g' Hs (seq_NoDup _ _) H)
    as (Hs' & _ & Hmiss & Hhit).
  split; [exact Hs'|]. intros i j Hi Hj.
  destruct (covers variable word i j) as [c|] eqn:Hcov.
  - apply covers_inv in Hcov. destruct Hcov as (k & Hget & <- & <-).
    destruct (Hhit k) as (c' & Hget' & Hcell).
    + apply in_seq. apply get_some_lt in Hget. lia.
    + congruence.
  - apply Hmiss. intros k Hk [<- <-].
    apply in_seq in Hk. destruct (get_in_range word k) as [c Hc]; [lia|].
    rewrite (covers_hit variable word k c Hc) in Hcov. discriminate.
Qed.

Lemma write_words_cells (w h : nat) (items : Assignment) :
  forall (g g' : Letters) (acc : nat -> nat -> option ascii),
    shaped w h g ->
    (forall i j, i < h -> j < w -> cell g i j = Some (acc i j)) ->
    write_words items g = Ok g' ->
    shaped w h g' /\
    forall i j, i < h -> j < w ->
                cell g' i j
                = Some (fold_left (fun a (e : Var * string) =>
                                     match covers (fst e) (snd e) i j with
                                     | Some c => Some c
                                     | None => a
                                     end) items (acc i j)).
Proof.
  induction items as [|[variable word] rest IH]; intros g g' acc Hs Hacc; simpl.
  - intros [= <-]. auto.
  - intros H. apply rbind_ok in H. destruct H as (g1 & H1 & H).
    destruct (write_word_cells w h variable word g g1 Hs H1) as (Hs1 & Hc1).
    apply (IH g1 g' (fun i j => match covers variable word i j with
                                | Some c => Some c
                                | None => acc i j
                                end) Hs1); [|exact H].
    intros i j Hi Hj. rewrite Hc1 by assumption.
    destruct (covers variable word i j); [reflexivity|auto].
Qed.

Lemma blank_shaped (w h : nat) : shaped w h (repeat (repeat (@None ascii) w) h).
Proof.
  split; [apply repeat_length|].
  apply Forall_forall. intros row Hrow. apply repeat_spec in Hrow. subst.
  apply repeat_length.
Qed.

Lemma blank_cell (w h i j : nat) :
  i < h -> j < w -> cell (repeat (repeat (@None ascii) w) h) i j = Some None.
Proof.
  intros Hi Hj. unfold cell.
  rewrite (nth_error_repeat _ Hi). now apply nth_error_repeat.
Qed.

(** X15.  The grid returned by [letter_grid] has [height] rows of [width]
    cells, and each cell holds the letter that the last entry of the
    assignment covering it puts there, [None] when no assigned word covers
    the cell. *)
Theorem letter_grid_cells (board : Board) (assignment : Assignment) (g : Letters)
        (i j : nat) :
  letter_grid board assignment = Ok g ->
  i < height board -> j < width board ->
  shaped (width board) (height board) g /\
  cell g i j = Some (letter_at assignment i j).
Proof.
  intros H Hi Hj. unfold letter_grid in H.
  destruct (write_words_cells (width board) (height board) assignment _ g
              (fun _ _ => None) (blank_shaped _ _)) as (Hs & Hc); auto.
  intros i' j' Hi' Hj'. now apply blank_cell.
Qed.

Lemma letter_grid_cells_witness :
  shaped 4 3 (match letter_grid board1 filled1 with Ok g => g | _ => [] end) /\
  cell (match letter_grid board1 filled1 with Ok g => g | _ => [] end) 2 3
  = Some (letter_at filled1 2 3).
Proof.
  apply (letter_grid_cells board1 filled1 _ 2 3).
  - reflexivity.
  - simpl. lia.
  - simpl. lia.
Defined.

Lemma write_word_total (w h : nat) (variable : Var) (word : string) (ks : list nat) :
  forall (g : Letters),
    shaped w h g ->
    (forall k, In k ks -> k < String.length word /\
                          cell_i variable k < h /\ cell_j variable k < w) ->
    exists g', write_word variable word ks g = Ok g' /\ shaped w h g'.
Proof.
  induction ks as [|k ks IH]; intros g Hs Hks; simpl; [eauto|].
  destruct (Hks k (or_introl eq_refl)) as (Hk & Hi & Hj).
  unfold char_at. destruct (get_in_range word k Hk) as [c ->]. simpl.
  destruct (letters_set_total w h g _ _ c Hs Hi Hj) as [g1 Hset].
  rewrite Hset. simpl.
  destruct (letters_set_ok w h _ _ _ _ _ Hs Hset) as (Hs1 & _).
  apply IH; [assumption|]. intros k' Hk'. apply Hks. now right.
Qed.

Lemma write_words_total (w h : nat) (board : Board) (items : Assignment) :
  width board = w -> height board = h ->
  forall (g : Letters),
    shaped w h g -> on_board board items ->
    exists g', write_words items g = Ok g'.
Proof.
  intros Hw Hh. induction items as [|[variable word] rest IH]; intros g Hs Hon; simpl;
    [eauto|].
  destruct (write_word_total w h variable word (seq 0 (String.length word)) g Hs)
    as (g1 & -> & Hs1).
  - intros k Hk. apply in_seq in Hk.
    destruct (Hon variable word k (or_introl eq_refl)) as [Hi Hj]; [lia|].
    subst. repeat split; auto; lia.
  - simpl. apply IH; [assumption|].
    intros v wd k Hin Hk. apply (Hon v wd k); [now right|assumption].
Qed.

Lemma write_words_on_board (w h : nat) (items : Assignment) :
  forall (g g' : Letters),
    shaped w h g ->
    write_words items g = Ok g' ->
    forall variable word k,
      In (variable, word) items -> k < String.length word ->
      cell_i variable k < h /\ cell_j variable k < w.
Proof.
  induction items as [|[v0 w0] rest IH]; intros g g' Hs; simpl.
  - intros _ variable word k [].
  - intros H. apply rbind_ok in H. destruct H as (g1 & H1 & H).
    destruct (write_word_ok w h v0 w0 _ g g1 Hs (seq_NoDup _ _) H1) as (Hs1 & Hin & _).
    intros variable word k [[= <- <-]|Hrest] Hk.
    + apply Hin. apply in_seq. lia.
    + now apply (IH g1 g' Hs1 H variable word k).
Qed.

Lemma write_word_raise (variable : Var) (word : string) (ks : list nat) :
  forall (g : Letters) (r : result Letters),
    write_word variable word ks g = r -> (exists g', r = Ok g') \/ r = Raise IndexError.
Proof.
  induction ks as [|k ks IH]; intros g r; simpl; [intros <-; eauto|].
  unfold char_at. destruct (String.get k word) as [c|]; simpl; [|intros <-; now right].
  destruct (letters_set_raise g (cell_i variable k) (cell_j variable k) c _ eq_refl)
    as [[g1 ->]| ->]; simpl.
  - apply IH.
  - intros <-. now right.
Qed.

Lemma write_words_raise (items : Assignment) :
  forall (g : Letters) (r : result Letters),
    write_words items g = r -> (exists g', r = Ok g') \/ r = Raise IndexError.
Proof.
  induction items as [|[v w] rest IH]; intros g r; simpl; [intros <-; eauto|].
  destruct (write_word_raise v w (seq 0 (String.length w)) g _ eq_refl)
    as [[g1 ->]| ->]; simpl.
  - apply IH.
  - intros <-. now right.
Qed.

(** X16.  [letter_grid] returns a grid exactly when every letter of every
    assigned word falls on the board; otherwise it raises [IndexError],
    and nothing else. *)
Theorem letter_grid_outcome (board : Board) (assignment : Assignment) :
  ((exists g, letter_grid board assignment = Ok g) <-> on_board board assignment) /\
  (forall e, letter_grid board assignment = Raise e -> e = IndexError) /\
  letter_grid board assignment <> OutOfFuel.
Proof.
  unfold letter_grid. split; [split|split].
  - intros [g H]. intros variable word k.
    apply (write_words_on_board _ _ _ _ _ (blank_shaped _ _) H).
  - intros Hon. apply (write_words_total (width board) (height board) board);
      auto using blank_shaped.
  - intros e H. destruct (write_words_raise _ _ _ H) as [[g' Hg]|Hr]; congruence.
  - intros H. destruct (write_words_raise _ _ _ H) as [[g' Hg]|Hr]; congruence.
Qed.

Lemma letter_grid_outcome_witness :
  on_board board1 filled1 /\ ~ on_board board1 [(Example1.A, "ABBAS")].
Proof.
  destruct (letter_grid_outcome board1 filled1) as ([H1 _] & _).
  destruct (letter_grid_outcome board1 [(Example1.A, "ABBAS")]) as ([_ H2] & _).
  split.
  - apply H1. exists (match letter_grid board1 filled1 with Ok g => g | _ => [] end).
    reflexivity.
  - intros Hon. destruct (H2 Hon) as [g Hg]. discriminate Hg.
Defined.

(** * What [print] writes *)

Lemma print_cell_ok (board : Board) (assignment : Assignment) (g : Letters) (i j : nat) :
  shaped (width board) (height board) (structure board) ->
  i < height board -> j < width board ->
  cell g i j = Some (letter_at assignment i j) ->
  print_cell board g i j
  = Ok (match cell (structure board) i j with
        | Some false => block
        | _ => glyph (letter_at assignment i j)
        end).
Proof.
  intros Hs Hi Hj Hc.
  destruct (proj1 (shaped_cell _ _ _ i j Hs) (conj Hi Hj)) as [b Hb].
  rewrite Hb. unfold print_cell. unfold cell in Hb, Hc.
  destruct (nth_error (structure board) i) as [srow|]; [|discriminate].
  rewrite Hb. destruct b; [|reflexivity].
  destruct (nth_error g i) as [row|]; [|discriminate].
  rewrite Hc. now destruct (letter_at assignment i j).
Qed.

Lemma print_row_ok (board : Board) (assignment : Assignment) (g : Letters) (i : nat)
      (js : list nat) :
  shaped (width board) (height board) (structure board) ->
  i < height board ->
  (forall j, In j js -> j < width board /\ cell g i j = Some (letter_at assignment i j)) ->
  forall out,
    print_row board g i js out
    = (out ++ map (fun j => match cell (structure board) i j with
                            | Some false => block
                            | _ => glyph (letter_at assignment i j)
                            end) js, Ok tt).
Proof.
  intros Hs Hi. induction js as [|j js IH]; intros Hjs out; simpl.
  - now rewrite app_nil_r.
  - destruct (Hjs j (or_introl eq_refl)) as [Hj Hc].
    rewrite (print_cell_ok board assignment g i j Hs Hi Hj Hc).
    rewrite IH by (intros j' Hj'; apply Hjs; now right).
    now rewrite <- app_assoc.
Qed.

Lemma print_rows_ok (board : Board) (assignment : Assignment) (g : Letters)
      (rows : list nat) :
  shaped (width board) (height board) (structure board) ->
  (forall i j, i < height board -> j < width board ->
               cell g i j = Some (letter_at assignment i j)) ->
  (forall i, In i rows -> i < height board) ->
  forall out,
    print_rows board g rows out
    = (out ++ flat_map (row_texts board assignment) rows, Ok tt).
Proof.
  intros Hs Hc. induction rows as [|i rows IH]; intros Hrows out; simpl.
  - now rewrite app_nil_r.
  - rewrite (print_row_ok board assignment g i _ Hs (Hrows i (or_introl eq_refl))).
    + rewrite IH by (intros i' Hi'; apply Hrows; now right).
      unfold row_texts. now rewrite <- !app_assoc.
    + intros j Hj. apply in_seq in Hj. split; [lia|].
      apply Hc; [apply Hrows; now left|lia].
Qed.

(** X17.  When the assigned words fall on the board and the structure has
    [height] rows of [width] cells, [print] returns normally after writing,
    row after row, one text per cell and a newline: the full block for a
    closed cell and, for an open cell, the letter that [letter_grid] holds
    there, or a space. *)
Theorem print_output (board : Board) (assignment : Assignment) :
  on_board board assignment ->
  shaped (width board) (height board) (structure board) ->
  print board assignment
  = (flat_map (row_texts board assignment) (seq 0 (height board)), Ok tt).
Proof.
  intros Hon Hs. unfold print.
  assert (Hg : exists g, letter_grid board assignment = Ok g).
  { unfold letter_grid.
    apply (write_words_total (width board) (height board) board);
      auto using blank_shaped. }
  destruct Hg as [g Hg]. rewrite Hg.
  rewrite (print_rows_ok board assignment g); [reflexivity|exact Hs| |].
  - intros i j Hi Hj. unfold letter_grid in Hg.
    destruct (write_words_cells (width board) (height board) assignment _ g
                (fun _ _ => None) (blank_shaped _ _)) as (_ & Hc); auto.
    intros i' j' Hi' Hj'. now apply blank_cell.
  - intros i Hi. apply in_seq in Hi. lia.
Qed.

Lemma letter_grid_on_board (board : Board) (assignment : Assignment) (g : Letters) :
  letter_grid board assignment = Ok g -> on_board board assignment.
Proof.
  intros H variable word k.
  apply (write_words_on_board _ _ _ _ _ (blank_shaped _ _) H).
Qed.

Lemma print_output_witness :
  print board1 filled1
  = (flat_map (row_texts board1 filled1) (seq 0 (height board1)), Ok tt).
Proof.
  apply (print_output board1 filled1).
  - apply (letter_grid_on_board board1 filled1
             (match letter_grid board1 filled1 with Ok g => g | _ => [] end)).
    reflexivity.
  - split; [reflexivity|]. repeat constructor.
Defined.

(** * Further properties of the search *)

Lemma backtrack_values_extends (recur : Assignment -> Search) (self : CrosswordCreator)
      (a : Assignment) (v : Var) (values : list string) (log : list Event)
      (r : Assignment) :
  (forall a' log' r', recur a' = (log', Ok (Some r')) -> exists ext, r' = a' ++ ext) ->
  ~ In v (PyDict.keys a) ->
  backtrack_values recur self a v values = (log, Ok (Some r)) ->
  exists ext, r = a ++ ext.
Proof.
  intros Hrec Hn H. apply backtrack_values_some in H.
  destruct H as (value & log' & _ & _ & Hr).
  apply Hrec in Hr. destruct Hr as [ext ->].
  rewrite set_fresh by assumption. rewrite <- app_assoc. eauto.
Qed.

(** X18.  [backtrack] only adds to the assignment it is given: an
    assignment it returns starts with the entries of its argument, in
    their order and with their words, followed by the entries the search
    added. *)
Theorem backtrack_extends (self : CrosswordCreator) (fuel : nat) (a r : Assignment)
        (log : list Event) :
  backtrack fuel self a = (log, Ok (Some r)) ->
  exists ext, r = a ++ ext.
Proof.
  revert a r log. induction fuel as [|fuel IH]; intros a r log; simpl;
    destruct (List.length a =? List.length (domains self));
    try discriminate;
    try (intros [= _ <-]; exists []; now rewrite app_nil_r).
  destruct (select_unassigned_variable self a) as [v|e|] eqn:Hsel; try discriminate.
  apply select_unassigned_variable_ok in Hsel. destruct Hsel as [_ Hn].
  destruct (domain_get self v) as [values|]; [|discriminate].
  destruct (backtrack_values _ _ _ _ _) as [log1 r1] eqn:Hb.
  intros [= _ ->]. revert Hb. apply backtrack_values_extends; [|assumption].
  intros a' log' r'. apply IH.
Qed.

Lemma backtrack_extends_witness :
  exists ext,
    [(Example1.A, "ABBA"); (Example1.B, "AXE"); (Example1.C, "AXE")]
    = [(Example1.A, "ABBA")] ++ ext.
Proof.
  apply (backtrack_extends (snd (solve Example1.creator)) 2 [(Example1.A, "ABBA")] _
           (fst (backtrack 2 (snd (solve Example1.creator)) [(Example1.A, "ABBA")]))).
  reflexivity.
Defined.

(** X19.  The test by which [backtrack] stops, [len(assignment) ==
    len(self.domains)], agrees with [assignment_complete] on every
    assignment of distinct variables that have a domain. *)
Theorem length_test_is_assignment_complete (self : CrosswordCreator) (a : Assignment) :
  NoDup (PyDict.keys (domains self)) ->
  within self a ->
  ((List.length a =? List.length (domains self)) = assignment_complete self a).
Proof.
  intros Hnd Hw.
  destruct (assignment_complete self a) eqn:Hc.
  - apply Nat.eqb_eq. apply assignment_complete_iff in Hc.
    apply Nat.le_antisymm; [now apply within_length|].
    apply NoDup_incl_length in Hc; [|assumption].
    unfold PyDict.keys in Hc. now rewrite !length_map in Hc.
  - apply Nat.eqb_neq. intros Hlen.
    pose proof (within_full self a Hnd Hw Hlen) as Hin.
    apply assignment_complete_iff in Hin. congruence.
Qed.

Lemma length_test_is_assignment_complete_witness :
  (List.length [(Example1.A, "ABBA")] =? List.length (domains Example1.creator))
  = assignment_complete Example1.creator [(Example1.A, "ABBA")].
Proof.
  apply (length_test_is_assignment_complete Example1.creator [(Example1.A, "ABBA")]).
  - simpl. repeat constructor; simpl; intuition discriminate.
  - split.
    + simpl. repeat constructor. simpl. tauto.
    + simpl. intros v [<-|[]]. now left.
Defined.

(** * The store built by [__init__] *)

Lemma init_get (cw : Crossword) (v : Var) :
  domain_get (init cw) v = if existsb (var_eqb v) (variables cw)
                           then Some (words cw) else None.
Proof.
  unfold domain_get, init. simpl.
  induction (variables cw) as [|u l IH]; simpl; [reflexivity|].
  destruct (var_eqb v u); simpl; auto.
Qed.

(** X20.  [__init__] gives every variable of the puzzle the whole
    vocabulary as its domain and no other variable a domain; when the
    variables and the words are sets, the store is a dictionary of sets
    with one domain per variable. *)
Theorem init_store (cw : Crossword) (v : Var) :
  (In v (variables cw) -> domain_get (init cw) v = Some (words cw)) /\
  (~ In v (variables cw) -> domain_get (init cw) v = None) /\
  (NoDup (variables cw) -> NoDup (words cw) -> store_of_puzzle (init cw)).
Proof.
  rewrite init_get. split; [|split].
  - intros H. apply existsb_var_In in H. now rewrite H.
  - intros H. destruct (existsb (var_eqb v) (variables cw)) eqn:E; [|reflexivity].
    apply existsb_var_In in E. contradiction.
  - intros Hv Hw. split; [now apply store_ok_init|].
    simpl. unfold PyDict.keys. rewrite map_map. simpl. apply map_id.
Qed.

Lemma init_store_witness :
  domain_get (init Example1.geometry) Example1.B = Some (words Example1.geometry) /\
  domain_get (init Example1.geometry) (mkVar 5 5 DOWN 2) = None /\
  store_of_puzzle (init Example1.geometry).
Proof.
  destruct (init_store Example1.geometry Example1.B) as (H1 & _ & H3).
  destruct (init_store Example1.geometry (mkVar 5 5 DOWN 2)) as (_ & H2 & _).
  split; [|split].
  - apply H1. simpl. auto.
  - apply H2. simpl. intuition discriminate.
  - apply H3; simpl; repeat constructor; simpl; intuition discriminate.
Defined.

(** * [order_domain_values] returns *)

Lemma count_words_total (word : string) (i j : nat) (l : list string) :
  i < String.length word ->
  (forall w2, In w2 l -> j < String.length w2) ->
  forall n, exists m, count_words word i j l n = Ok m.
Proof.
  intros Hi. induction l as [|w2 l IH]; intros Hj n; simpl; [eauto|].
  unfold char_at.
  destruct (get_in_range word i Hi) as [c1 ->]. simpl.
  destruct (get_in_range w2 j (Hj w2 (or_introl eq_refl))) as [c2 ->]. simpl.
  apply IH. intros u Hu. apply Hj. now right.
Qed.

Lemma count_neighbors_total (self : CrosswordCreator) (a : Assignment) (var : Var)
      (word : string) (ns : list Var) :
  well_formed_geometry (crossword self) = true ->
  arcs_known (crossword self) = true ->
  store_of_puzzle self -> node_consistent self ->
  In var (variables (crossword self)) ->
  String.length word = var_length var ->
  incl ns (neighbors (crossword self) var) ->
  forall n, exists m, count_neighbors self a var word ns n = Ok m.
Proof.
  intros Hwf Hknown [Hok Hkeys] Hnc Hvar Hlen.
  induction ns as [|nb ns IH]; intros Hns n; simpl; [eauto|].
  assert (IH' : forall n, exists m, count_neighbors self a var word ns n = Ok m)
    by (apply IH; intros u Hu; apply Hns; now right).
  destruct (negb (PyDict.mem var_eqb nb a)); [|apply IH'].
  destruct (well_formed_neighbors_overlap (crossword self) var nb Hwf Hvar)
    as [[p q] Ho]; [apply Hns; now left|].
  destruct (well_formed_overlap _ _ _ _ _ Hwf Ho) as (_ & Hsym & _ & Hp & Hq).
  destruct (arcs_known_In _ _ _ _ Hknown Ho) as [Hnb _].
  unfold PyDict.lookup. rewrite Hsym. simpl.
  rewrite <- Hkeys in Hnb. apply (get_keys _ _ var_eqb var_eqb_eq) in Hnb.
  destruct Hnb as [nd Hnd]. rewrite Hnd. simpl.
  destruct (count_words_total word q p nd) with (n := n) as [m ->].
  - lia.
  - intros w2 Hw2. now rewrite (node_consistent_length self nb nd w2 Hnc Hnd Hw2).
  - simpl. apply IH'.
Qed.

Lemma order_loop_total (self : CrosswordCreator) (a : Assignment) (var : Var)
      (ws : list string) :
  well_formed_geometry (crossword self) = true ->
  arcs_known (crossword self) = true ->
  store_of_puzzle self -> node_consistent self ->
  In var (variables (crossword self)) ->
  (forall w, In w ws -> String.length w = var_length var) ->
  forall wd sl,
    exists res,
      order_loop self a var (neighbors (crossword self) var) ws wd sl = Ok res /\
      (ws <> [] \/ sl <> None -> res <> None).
Proof.
  intros Hwf Hknown Hst Hnc Hvar.
  induction ws as [|w ws IH]; intros Hlen wd sl; simpl.
  - exists sl. split; [reflexivity|]. intros [H|H]; [congruence|exact H].
  - destruct (count_neighbors_total self a var w (neighbors (crossword self) var)
                Hwf Hknown Hst Hnc Hvar (Hlen w (or_introl eq_refl)) (incl_refl _) 0)
      as [n ->].
    simpl.
    destruct (IH (fun u Hu => Hlen u (or_intror Hu))
                 (PyDict.set String.eqb w n wd)
                 (Some (sorted_words (PyDict.set String.eqb w n wd))))
      as (res & Hres & Hsome).
    exists res. split; [exact Hres|]. intros _. apply Hsome. right. discriminate.
Qed.

(** X21.  On a well-formed puzzle with node-consistent domains,
    [order_domain_values] returns a list for every puzzle variable that
    still has a candidate word. *)
Theorem order_domain_values_returns (self : CrosswordCreator) (var : Var)
        (a : Assignment) :
  well_formed_geometry (crossword self) = true ->
  arcs_known (crossword self) = true ->
  store_of_puzzle self -> node_consistent self ->
  In var (variables (crossword self)) ->
  dom self var <> [] ->
  exists l, order_domain_values self var a = Ok l.
Proof.
  intros Hwf Hknown Hst Hnc Hvar Hne.
  unfold order_domain_values, PyDict.lookup.
  unfold dom, domain_get in Hne.
  destruct (PyDict.get var_eqb var (domains self)) as [ws|] eqn:Hd; [|congruence].
  simpl.
  destruct (order_loop_total self a var ws Hwf Hknown Hst Hnc Hvar) with (wd := @nil (string * nat)) (sl := @None (list string))
    as (res & -> & Hsome).
  - intros w Hw. now apply (node_consistent_length self var ws w Hnc Hd).
  - simpl. destruct res as [l|]; [eauto|].
    exfalso. apply Hsome; auto.
Qed.

Lemma distinct_words_NoDup (l : list string) : distinct_words l = true -> NoDup l.
Proof.
  induction l as [|w l IH]; simpl; [constructor|].
  rewrite andb_true_iff, negb_true_iff. intros [Hw Hl]. constructor; [|auto].
  intros Hin. apply word_mem_In in Hin. congruence.
Qed.

Lemma distinct_vars_NoDup (l : list Var) : distinct_vars l = true -> NoDup l.
Proof.
  induction l as [|v l IH]; simpl; [constructor|].
  rewrite andb_true_iff, negb_true_iff. intros [Hv Hl]. constructor; [|auto].
  intros Hin. apply existsb_var_In in Hin. congruence.
Qed.

Lemma store_okb_ok (self : CrosswordCreator) : store_okb self = true -> store_ok self.
Proof.
  unfold store_okb. rewrite andb_true_iff, forallb_forall. intros [H1 H2]. split.
  - now apply distinct_vars_NoDup.
  - intros v ws Hin. apply distinct_words_NoDup. now apply (H2 (v, ws)).
Qed.

Lemma node_consistentb_ok (self : CrosswordCreator) :
  node_consistentb self = true -> node_consistent self.
Proof.
  unfold node_consistentb. rewrite forallb_forall. intros H v w Hw.
  unfold dom in Hw. destruct (domain_get self v) as [ws|] eqn:Hd; [|destruct Hw].
  apply (get_In _ _ var_eqb var_eqb_eq) in Hd. apply H in Hd. simpl in Hd.
  rewrite forallb_forall in Hd. now apply Hd.
Qed.

Lemma order_domain_values_returns_witness :
  exists l, order_domain_values Example2.pruned Example2.A [] = Ok l.
Proof.
  apply (order_domain_values_returns Example2.pruned Example2.A []).
  - reflexivity.
  - reflexivity.
  - split; [apply store_okb_ok; reflexivity|reflexivity].
  - apply node_consistentb_ok. reflexivity.
  - simpl. auto.
  - discriminate.
Defined.
